(** * securefs, lite format: the AES-GCM crypt stream and the FUSE callbacks

    A shallow embedding of [lite_stream.cpp] and [lite_operations.cpp].
    Unsigned 64-bit arithmetic ([length_type], [offset_type]) is carried by
    [Z] with the wrap-around written out; byte buffers are [list byte];
    exceptions, the random generator, the inner stream and the logger are
    threaded through a small state-and-exception monad. *)

From Stdlib Require Import ZArith List Bool String Lia.
From Stdlib Require Import Strings.Byte.
Import ListNotations.
Open Scope Z_scope.

(** ** Machine integers *)

Definition u64 (z : Z) : Z := z mod 2 ^ 64.
Definition u32 (z : Z) : Z := z mod 2 ^ 32.

(** [static_cast<int>] of a 64-bit value, unsigned or signed: two's
    complement on 32 bits. *)
Definition static_cast_int (z : Z) : Z :=
  let r := z mod 2 ^ 32 in if r <? 2 ^ 31 then r else r - 2 ^ 32.

(** ** Outcomes of a call *)

Inductive Exception : Type :=
| InvalidArgumentException (msg : string)
| StreamTooLongException (max_size size : Z)
| LiteMessageVerificationException
| POSIXException (errno : Z)
| StdException (what : string).

(** What stops a run without a C++ result: the loop budget of the model is
    used up, or the code steps outside a buffer (undefined behaviour). *)
Inductive Stop : Type :=
| OutOfFuel
| BufferOverrun.

Inductive Result (A : Type) : Type :=
| Ok (a : A)
| Throw (e : Exception)
| Halt (why : Stop).

Arguments Ok {A} a.
Arguments Throw {A} e.
Arguments Halt {A} why.

(** ** The state-and-exception monad *)

Definition M (S A : Type) : Type := S -> Result A * S.

Definition ret {S A} (a : A) : M S A := fun s => (Ok a, s).

Definition bind {S A B} (c : M S A) (k : A -> M S B) : M S B :=
  fun s =>
    match c s with
    | (Ok a, s') => k a s'
    | (Throw e, s') => (Throw e, s')
    | (Halt w, s') => (Halt w, s')
    end.

Definition throw {S A} (e : Exception) : M S A := fun s => (Throw e, s).
Definition halt {S A} (w : Stop) : M S A := fun s => (Halt w, s).
Definition get {S} : M S S := fun s => (Ok s, s).
Definition modify {S} (f : S -> S) : M S unit := fun s => (Ok tt, f s).

(** [try { body } catch (const std::exception& e) { handler e }] *)
Definition try_catch {S A} (body : M S A) (handler : Exception -> M S A) : M S A :=
  fun s =>
    match body s with
    | (Throw e, s') => handler e s'
    | r => r
    end.

(** A scope guard ([DEFER], a destructor): [cleanup] runs when [body] leaves,
    normally or by an exception. *)
Definition scoped {S A} (body : M S A) (cleanup : S -> S) : M S A :=
  fun s => let '(r, s') := body s in (r, cleanup s').

Declare Scope monad_scope.
Delimit Scope monad_scope with monad.
Notation "x <- c1 ;; c2" := (bind c1 (fun x => c2))
  (at level 61, c1 at next level, right associativity) : monad_scope.
Notation "' pat <- c1 ;; c2" := (bind c1 (fun 'pat => c2))
  (at level 61, pat pattern, c1 at next level, right associativity) : monad_scope.
Notation "c1 ;; c2" := (bind c1 (fun _ => c2))
  (at level 61, right associativity) : monad_scope.
Open Scope monad_scope.

(** ** The logger ([logger.h]) *)

Inductive LoggingLevel : Type :=
| kLogTrace | kLogVerbose | kLogInfo | kLogWarning | kLogError.

Definition level_value (l : LoggingLevel) : Z :=
  match l with
  | kLogTrace => 0 | kLogVerbose => 1 | kLogInfo => 2
  | kLogWarning => 3 | kLogError => 4
  end.

Definition stringify (l : LoggingLevel) : string :=
  match l with
  | kLogTrace => "Trace" | kLogVerbose => "Verbose" | kLogInfo => "Info"
  | kLogWarning => "Warning" | kLogError => "Error"
  end.

Record Logger : Type := mkLogger {
  m_level : LoggingLevel;
  lines : list (LoggingLevel * string)
}.

(** [GENERIC_LOG]: the line is emitted when the logger's level is at most the
    line's level. *)
Definition logger_log (log_level : LoggingLevel) (text : string) (g : Logger) : Logger :=
  if level_value (m_level g) <=? level_value log_level
  then mkLogger (m_level g) (lines g ++ [(log_level, text)])
  else g.

Class HasLogger (S : Type) : Type := {
  global_logger : S -> Logger;
  set_global_logger : Logger -> S -> S
}.

Definition GENERIC_LOG {S} `{HasLogger S} (log_level : LoggingLevel) (text : string) : S -> S :=
  fun s => set_global_logger (logger_log log_level text (global_logger s)) s.

Definition INFO_LOG {S} `{HasLogger S} := GENERIC_LOG (S := S) kLogInfo.
Definition TRACE_LOG {S} `{HasLogger S} := GENERIC_LOG (S := S) kLogTrace.
Definition WARN_LOG {S} `{HasLogger S} := GENERIC_LOG (S := S) kLogWarning.
Definition ERROR_LOG {S} `{HasLogger S} := GENERIC_LOG (S := S) kLogError.

(** [OperationLogger _(text)]: one line when the object is built, one when it
    is destroyed at the end of its scope. *)
Definition OperationLogger {S A} `{HasLogger S} (text : string) (body : M S A) : M S A :=
  modify (INFO_LOG ("Being ++++++++++++++[" ++ text ++ "]++++++++++++")) ;;
  scoped body (INFO_LOG ("End   --------------[" ++ text ++ "]------------")).

(** ** Byte utilities *)

Definition byte_of_Z (z : Z) : byte :=
  match Byte.of_N (Z.to_N (z mod 256)) with
  | Some b => b
  | None => x00
  end.

(** Modelled from the spec: [is_all_zeros] of myutils is absent; it is the
    all-zero detection of section 4.A, true when every byte of the slice is
    zero. *)
Definition is_all_zeros (data : list byte) : bool :=
  forallb (fun b => Byte.eqb b x00) data.

(** Modelled from the spec: [to_little_endian] of myutils is absent; it is the
    canonical LSB-first encoding of a [uint32_t] in four bytes (section 4.A,
    and the test case "Test endian"). *)
Definition to_little_endian (value : Z) : list byte :=
  [ byte_of_Z (Z.shiftr value 0); byte_of_Z (Z.shiftr value 8);
    byte_of_Z (Z.shiftr value 16); byte_of_Z (Z.shiftr value 24) ].

(** ** The inner stream *)

(** Modelled from the spec: [StreamBase] (streams.h) is absent; section 4.D
    gives its contract.  A stream is its byte contents; a read returns the
    bytes that exist, short at the end; a write past the end fills the gap
    with zeros. *)
Definition StreamBase : Type := list byte.

(** [read(buf, offset, length)]: the bytes that exist in the range. *)
Definition stream_read (data : StreamBase) (offset length : Z) : list byte :=
  firstn (Z.to_nat length) (skipn (Z.to_nat offset) data).

(** [write(buf, offset, length)]: the range is overwritten, the stream
    grown when the range ends past its end. *)
Definition stream_write (data : StreamBase) (offset : Z) (src : list byte) : StreamBase :=
  let off := Z.to_nat offset in
  (firstn off data ++ repeat x00 (off - List.length data))
    ++ src ++ skipn (off + List.length src) data.

(** [size()] *)
Definition stream_size (data : StreamBase) : Z := Z.of_nat (List.length data).

(** [resize(new_size)]: cut, or extended with zeros. *)
Definition stream_resize (data : StreamBase) (new_size : Z) : StreamBase :=
  let n := Z.to_nat new_size in
  firstn n data ++ repeat x00 (n - List.length data).

(** ** Constants of the lite stream *)

(** Modelled from the spec: lite_stream.h is absent; section 3 fixes
    [header_size] = 32. *)
Definition get_header_size : Z := 32.

(** Modelled from the spec: lite_stream.h is absent; section 3 fixes
    [mac_size] = 16. *)
Definition get_mac_size : Z := 16.

Definition MAX_BLOCKS : Z := u64 (u64 (Z.shiftl 1 31) - 1).

(** ** [AESGCMCryptStream::calculate_real_size] *)

Definition calculate_real_size (underlying_size block_size iv_size : Z) : Z :=
  let header_size := get_header_size in
  let underlying_block_size := u64 (u64 (block_size + iv_size) + get_mac_size) in
  if underlying_size <=? header_size then 0
  else
    let underlying_size := u64 (underlying_size - header_size) in
    let num_blocks := underlying_size / underlying_block_size in
    let residue := underlying_size mod underlying_block_size in
    u64 (u64 (num_blocks * block_size)
         + (if residue >? u64 (iv_size + get_mac_size)
            then u64 (u64 (residue - iv_size) - get_mac_size)
            else 0)).

(** The size correspondence in the words of section 3, over the integers. *)
Definition spec_logical_size (underlying_size block_size iv_size : Z) : Z :=
  let mac_size := 16 in
  let header_size := 32 in
  let underlying_block_size := block_size + iv_size + mac_size in
  if underlying_size <=? header_size then 0
  else
    let U := underlying_size - header_size in
    let n := U / underlying_block_size in
    let r := U mod underlying_block_size in
    n * block_size + Z.max 0 (r - iv_size - mac_size).

(** ** The primitives of Crypto++ and of the environment *)

(** AES in ECB mode and AES-GCM come from Crypto++; they are taken as an
    interface.  [GCM_DecryptAndVerify] hands back the decrypted message
    together with the verdict on the tag, as the library call does (the
    message is written whether or not the tag verifies). *)
Class Crypto : Type := {
  ECB_ProcessData : list byte -> list byte -> list byte;
  GCM_EncryptAndAuthenticate :
    list byte -> list byte -> list byte -> list byte -> list byte * list byte;
  GCM_DecryptAndVerify :
    list byte -> list byte -> list byte -> list byte -> list byte -> bool * list byte;
  GCM_ciphertext_length : forall key iv aad message,
    List.length (fst (GCM_EncryptAndAuthenticate key iv aad message)) = List.length message;
  GCM_mac_length : forall key iv aad message,
    Z.of_nat (List.length (snd (GCM_EncryptAndAuthenticate key iv aad message))) = get_mac_size
}.

(** The test behind [warn_if_key_not_random] (myutils) is absent; it is a
    parameter. *)
Class KeyAudit : Type := {
  key_not_random : list byte -> bool
}.

Inductive Event : Type :=
| StreamRead (offset length : Z) (got : list byte)
| StreamWrite (offset : Z) (data : list byte)
| StreamResize (new_size : Z)
| StreamFlush
| GenerateRandom (got : list byte)
| EncryptAndAuthenticate (iv aad message : list byte)
| DecryptAndVerify (iv aad ciphertext mac : list byte)
| ProcessData (data : list byte).

(** The environment of a stream: the random generator, as the tape of bytes
    it will hand out and the position reached on it; the calls made so far
    to the inner stream, the generator and the ciphers; the global logger. *)
Record Env : Type := mkEnv {
  rng_tape : nat -> byte;
  rng_pos : nat;
  trace : list Event;
  env_logger : Logger
}.

#[export] Instance Env_HasLogger : HasLogger Env := {
  global_logger := env_logger;
  set_global_logger g e := mkEnv (rng_tape e) (rng_pos e) (trace e) g
}.

Definition env_record (ev : Event) (e : Env) : Env :=
  mkEnv (rng_tape e) (rng_pos e) (trace e ++ [ev]) (env_logger e).

(** Modelled from the spec: [generate_random] of myutils is absent; it fills
    the buffer from a CSPRNG (section 4.A).  The bytes are the next [size]
    bytes of the tape. *)
Definition generate_random (size : Z) : M Env (list byte) :=
  fun e =>
    let n := Z.to_nat size in
    let got := map (rng_tape e) (seq (rng_pos e) n) in
    (Ok got, env_record (GenerateRandom got)
               (mkEnv (rng_tape e) (rng_pos e + n)%nat (trace e) (env_logger e))).

Definition throwInvalidArgumentException {S A} (msg : string) : M S A :=
  throw (InvalidArgumentException msg).

(** [warn_if_key_not_random] (myutils) is absent; it is taken to write a
    warning to the log when the key fails the test, and to do nothing else. *)
Definition warn_if_key_not_random {S} `{HasLogger S} `{KeyAudit} (key : list byte) : M S unit :=
  if key_not_random key
  then modify (WARN_LOG "Encountering a key that has a non-random pattern")
  else ret tt.

(** ** The crypt stream object *)

Record AESGCMCryptStream : Type := mkStream {
  m_block_size : Z;
  m_stream : StreamBase;
  m_iv_size : Z;
  m_check : bool;
  m_buffer : list byte;
  m_session_key : list byte
}.

Definition get_block_size (s : AESGCMCryptStream) : Z := m_block_size s.
Definition get_iv_size (s : AESGCMCryptStream) : Z := m_iv_size s.

(** Modelled from the spec: lite_stream.h is absent; section 3 gives
    [underlying_block_size = block_size + iv_size + mac_size]. *)
Definition get_underlying_block_size (s : AESGCMCryptStream) : Z :=
  get_block_size s + get_iv_size s + get_mac_size.

(** [AESGCMCryptStream::AESGCMCryptStream].  The fresh [m_buffer] has
    indeterminate contents in C++, never read before they are written; they
    are zeros here. *)
Definition AESGCMCryptStream_new `{Crypto} `{KeyAudit}
    (stream : option StreamBase) (master_key : list byte)
    (block_size iv_size : Z) (check : bool) : M Env AESGCMCryptStream :=
  if (iv_size <? 12) || (iv_size >? 32)
  then throwInvalidArgumentException "IV size too small or too large"
  else
    match stream with
    | None => throwInvalidArgumentException "Null stream"
    | Some inner =>
        if block_size <? 32
        then throwInvalidArgumentException "Block size too small"
        else
          warn_if_key_not_random master_key ;;
          let got := stream_read inner 0 get_header_size in
          modify (env_record (StreamRead 0 get_header_size got)) ;;
          let rc := Z.of_nat (List.length got) in
          '(header, inner') <-
            (if rc =? 0
             then
               header <- generate_random get_header_size ;;
               modify (env_record (StreamWrite 0 header)) ;;
               ret (header, stream_write inner 0 header)
             else if negb (rc =? get_header_size)
             then throwInvalidArgumentException "Underlying stream has invalid header size"
             else ret (got, inner)) ;;
          let session_key := ECB_ProcessData master_key header in
          modify (env_record (ProcessData header)) ;;
          let s := mkStream block_size inner' iv_size check
                     (repeat x00 (Z.to_nat (block_size + iv_size + get_mac_size)))
                     session_key in
          warn_if_key_not_random header ;;
          warn_if_key_not_random session_key ;;
          ret s
    end.

(** A running stream: the object and its environment. *)
Record Machine : Type := mkMachine {
  self : AESGCMCryptStream;
  env : Env
}.

#[export] Instance Machine_HasLogger : HasLogger Machine := {
  global_logger m := env_logger (env m);
  set_global_logger g m := mkMachine (self m) (set_global_logger g (env m))
}.

Definition this : M Machine AESGCMCryptStream := fun m => (Ok (self m), m).

Definition record (ev : Event) : M Machine unit :=
  modify (fun m => mkMachine (self m) (env_record ev (env m))).

Definition lift_env {A} (c : M Env A) : M Machine A :=
  fun m => let '(r, e) := c (env m) in (r, mkMachine (self m) e).

Definition set_buffer (b : list byte) : M Machine unit :=
  modify (fun m =>
    let s := self m in
    mkMachine (mkStream (m_block_size s) (m_stream s) (m_iv_size s) (m_check s) b
                 (m_session_key s)) (env m)).

Definition set_stream (d : StreamBase) : M Machine unit :=
  modify (fun m =>
    let s := self m in
    mkMachine (mkStream (m_block_size s) d (m_iv_size s) (m_check s) (m_buffer s)
                 (m_session_key s)) (env m)).

(** Overwriting the bytes of [buf] from [off] on with [src]. *)
Definition splice (buf : list byte) (off : nat) (src : list byte) : list byte :=
  firstn off buf ++ src ++ skipn (off + List.length src) buf.

(** Storing [src] into [m_buffer] at [offset]; outside the buffer the C++
    code has no defined behaviour. *)
Definition buffer_store (offset : Z) (src : list byte) : M Machine unit :=
  s <- this ;;
  let off := Z.to_nat offset in
  if (off + List.length src <=? List.length (m_buffer s))%nat
  then set_buffer (splice (m_buffer s) off src)
  else halt BufferOverrun.

(** The [length] bytes of [m_buffer] from [offset] on. *)
Definition buffer_load (offset length : Z) : M Machine (list byte) :=
  s <- this ;;
  let off := Z.to_nat offset in
  let n := Z.to_nat length in
  if (off + n <=? List.length (m_buffer s))%nat
  then ret (firstn n (skipn off (m_buffer s)))
  else halt BufferOverrun.

(** [m_stream->read(m_buffer.get(), offset, length)] *)
Definition m_stream_read (offset length : Z) : M Machine Z :=
  s <- this ;;
  let got := stream_read (m_stream s) offset length in
  record (StreamRead offset length got) ;;
  buffer_store 0 got ;;
  ret (Z.of_nat (List.length got)).

(** [m_stream->write(m_buffer.get(), offset, length)] *)
Definition m_stream_write (offset length : Z) : M Machine unit :=
  src <- buffer_load 0 length ;;
  s <- this ;;
  record (StreamWrite offset src) ;;
  set_stream (stream_write (m_stream s) offset src).

(** [AESGCMCryptStream::flush] *)
Definition flush : M Machine unit := record StreamFlush.

(** [AESGCMCryptStream::read_block]; the result is the count returned and
    the bytes stored at [output]. *)
Definition read_block `{Crypto} (block_number : Z) : M Machine (Z * list byte) :=
  OperationLogger "AESGCMCryptStream::ReadBlock" (
    s <- this ;;
    if block_number >? MAX_BLOCKS
    then throw (StreamTooLongException (u64 (MAX_BLOCKS * get_block_size s))
                                       (u64 (block_number * get_block_size s)))
    else
      rc <- m_stream_read
              (u64 (get_header_size + u64 (get_underlying_block_size s * block_number)))
              (get_underlying_block_size s) ;;
      if rc <=? get_mac_size + get_iv_size s
      then ret (0, [])
      else if rc >? get_underlying_block_size s
      then throwInvalidArgumentException "Invalid read"
      else
        let out_size := u64 (u64 (rc - get_iv_size s) - get_mac_size) in
        whole <- buffer_load 0 rc ;;
        if is_all_zeros whole
        then ret (out_size, repeat x00 (Z.to_nat (get_block_size s)))
        else
          let auxiliary := to_little_endian (u32 block_number) in
          '(success, message) <-
            OperationLogger "DecryptAndAuthenticate" (
              mac <- buffer_load (rc - get_mac_size) get_mac_size ;;
              iv <- buffer_load 0 (get_iv_size s) ;;
              ciphertext <- buffer_load (get_iv_size s) out_size ;;
              record (DecryptAndVerify iv auxiliary ciphertext mac) ;;
              ret (GCM_DecryptAndVerify (m_session_key s) iv auxiliary ciphertext mac)) ;;
          if m_check s && negb success
          then throw LiteMessageVerificationException
          else ret (out_size, message)).

(** The loop [do generate_random(m_buffer, iv_size) while (is_all_zeros(...))];
    [fuel] bounds the number of draws. *)
Fixpoint draw_iv (fuel : nat) : M Machine unit :=
  match fuel with
  | O => halt OutOfFuel
  | S fuel' =>
      s <- this ;;
      got <- lift_env (generate_random (get_iv_size s)) ;;
      buffer_store 0 got ;;
      iv <- buffer_load 0 (get_iv_size s) ;;
      if is_all_zeros iv then draw_iv fuel' else ret tt
  end.

(** [AESGCMCryptStream::write_block]; [input] is the slice [(input, size)]. *)
Definition write_block `{Crypto} (fuel : nat) (block_number : Z) (input : list byte)
  : M Machine unit :=
  let size := Z.of_nat (List.length input) in
  OperationLogger "AESGCMCryptStream::WriteBlock" (
    s <- this ;;
    if block_number >? MAX_BLOCKS
    then throw (StreamTooLongException (u64 (MAX_BLOCKS * get_block_size s))
                                       (u64 (block_number * get_block_size s)))
    else
      let underlying_offset :=
        u64 (u64 (block_number * get_underlying_block_size s) + get_header_size) in
      let underlying_size := u64 (u64 (size + get_iv_size s) + get_mac_size) in
      if is_all_zeros input
      then
        buffer_store 0 (repeat x00 (Z.to_nat underlying_size)) ;;
        m_stream_write underlying_offset underlying_size
      else
        let auxiliary := to_little_endian (u32 block_number) in
        draw_iv fuel ;;
        OperationLogger "EncryptAndAuthenticate" (
          iv <- buffer_load 0 (get_iv_size s) ;;
          record (EncryptAndAuthenticate iv auxiliary input) ;;
          let '(ciphertext, mac) :=
            GCM_EncryptAndAuthenticate (m_session_key s) iv auxiliary input in
          buffer_store (get_iv_size s) ciphertext ;;
          buffer_store (get_iv_size s + size) mac) ;;
        m_stream_write underlying_offset underlying_size).

(** [AESGCMCryptStream::size] *)
Definition size (s : AESGCMCryptStream) : Z :=
  calculate_real_size (stream_size (m_stream s)) (get_block_size s) (get_iv_size s).

(** [AESGCMCryptStream::adjust_logical_size] *)
Definition adjust_logical_size (length : Z) : M Machine unit :=
  s <- this ;;
  let new_blocks := length / get_block_size s in
  let residue := length mod get_block_size s in
  let new_size :=
    u64 (u64 (get_header_size + u64 (new_blocks * get_underlying_block_size s))
         + (if residue >? 0 then u64 (u64 (residue + get_iv_size s) + get_mac_size) else 0)) in
  record (StreamResize new_size) ;;
  set_stream (stream_resize (m_stream s) new_size).

(** What the constructor guarantees of every stream object. *)
Definition stream_ok (s : AESGCMCryptStream) : Prop :=
  32 <= m_block_size s < 2 ^ 32 /\
  12 <= m_iv_size s <= 32 /\
  Z.of_nat (List.length (m_buffer s)) = get_underlying_block_size s.

(** * The FUSE callbacks ([lite_operations.cpp]) *)

(** The callbacks are modelled as built with [HAS_THREAD_LOCAL]: the
    per-thread file system is the thread-local [opt_fs].  Whether [_WIN32]
    is defined is a parameter of the build.  The xattr callbacks, which
    exist on Apple hosts only, are part of the model.  [init] and [destroy],
    which return no [int], are not. *)

(** The preprocessor symbols the callbacks depend on. *)
Class Build : Type := {
  _WIN32 : bool
}.

Module Operations.

(** POSIX error numbers and open flags, with their Linux values. *)
Definition EPERM : Z := 1.
Definition ENOENT : Z := 2.
Definition EIO : Z := 5.
Definition EFAULT : Z := 14.
Definition EINVAL : Z := 22.
Definition EFBIG : Z := 27.
Definition EACCES : Z := 13.
(** [ENOATTR] exists on Apple hosts, where the xattr callbacks are compiled;
    it has its value there. *)
Definition ENOATTR : Z := 93.
Definition O_RDWR : Z := 2.
Definition O_CREAT : Z := 64.
Definition O_EXCL : Z := 128.

(** Modelled from the spec: exceptions.h is absent; section 7 names the error
    kinds and says each is surfaced as its errno: [EIO] for a verification
    failure, the native code for a POSIX error.  [InvalidArgument] and
    [StreamTooLong] are taken with [EINVAL] and [EFBIG].  The result is [None]
    for an exception that is not an [ExceptionBase]. *)
Definition error_number (e : Exception) : option Z :=
  match e with
  | InvalidArgumentException _ => Some EINVAL
  | StreamTooLongException _ _ => Some EFBIG
  | LiteMessageVerificationException => Some EIO
  | POSIXException errno => Some errno
  | StdException _ => None
  end.

(** [ebase ? ebase->error_number() : EPERM] *)
Definition exception_code (e : Exception) : Z :=
  match error_number e with
  | Some n => n
  | None => EPERM
  end.

Definition KEY_LENGTH : Z := 32.

Record fuse_statvfs : Type := mk_statvfs {
  f_bsize : Z; f_frsize : Z; f_blocks : Z; f_bfree : Z; f_bavail : Z;
  f_files : Z; f_ffree : Z; f_favail : Z; f_fsid : Z; f_flag : Z;
  f_namemax : Z
}.

Definition set_f_namemax (v : Z) (b : fuse_statvfs) : fuse_statvfs :=
  mk_statvfs (f_bsize b) (f_frsize b) (f_blocks b) (f_bfree b) (f_bavail b)
    (f_files b) (f_ffree b) (f_favail b) (f_fsid b) (f_flag b) v.

Record fuse_stat : Type := mk_stat {
  st_mode : Z; st_uid : Z; st_gid : Z; st_size : Z
}.

Record fuse_file_info : Type := mk_info {
  info_flags : Z;
  fh : Z
}.

(** The arguments the per-thread [FileSystem] is built from. *)
Record FileSystem : Type := mkFileSystem {
  fs_root : Z;
  fs_name_key : list byte;
  fs_content_key : list byte;
  fs_xattr_key : list byte;
  fs_block_size : Z;
  fs_iv_size : Z;
  fs_flags : Z
}.

(** [operations::MountOptions], reached through the FUSE context. *)
Record MountOptions : Type := mkMountOptions {
  root : Z;
  version : option Z;
  master_key : list byte;
  block_size : option Z;
  iv_size : option Z;
  flags : option Z
}.

(** The classes behind the callbacks, [lite::FileSystem], [File] and
    [DirectoryTraverser] (lite_fs.h), are absent; they are an interface
    over the state [Host] of the host file system.  A [File*] or a
    [DirectoryTraverser*] is its address, zero for a null pointer.  The
    xattr functions give the value they return and, for [listxattr] and
    [getxattr], the bytes they leave in the buffer. *)
Class Backend (Host : Type) : Type := {
  FileSystem_new : FileSystem -> M Host unit;
  FileSystem_statvfs : FileSystem -> M Host fuse_statvfs;
  FileSystem_stat : FileSystem -> string -> M Host (bool * fuse_stat);
  FileSystem_create_traverser : FileSystem -> string -> M Host Z;
  FileSystem_open : FileSystem -> string -> Z -> Z -> M Host Z;
  FileSystem_unlink : FileSystem -> string -> M Host unit;
  FileSystem_mkdir : FileSystem -> string -> Z -> M Host unit;
  FileSystem_rmdir : FileSystem -> string -> M Host unit;
  FileSystem_chmod : FileSystem -> string -> Z -> M Host unit;
  FileSystem_chown : FileSystem -> string -> Z -> Z -> M Host unit;
  FileSystem_symlink : FileSystem -> string -> string -> M Host unit;
  FileSystem_link : FileSystem -> string -> string -> M Host unit;
  FileSystem_readlink : FileSystem -> string -> Z -> M Host string;
  FileSystem_rename : FileSystem -> string -> string -> M Host unit;
  FileSystem_utimens : FileSystem -> string -> list Z -> M Host unit;
  File_lock : Z -> bool -> M Host unit;
  File_unlock : Z -> Host -> Host;
  File_read : Z -> Z -> Z -> M Host (list byte);
  File_write : Z -> list byte -> Z -> M Host unit;
  File_flush : Z -> M Host unit;
  File_fsync : Z -> M Host unit;
  File_resize : Z -> Z -> M Host unit;
  File_delete : Z -> M Host unit;
  Traverser_rewind : Z -> M Host unit;
  Traverser_next : Z -> M Host (option (string * fuse_stat));
  Traverser_delete : Z -> M Host unit;
  FileSystem_listxattr : FileSystem -> string -> Z -> M Host (Z * list byte);
  FileSystem_getxattr : FileSystem -> string -> string -> Z -> M Host (Z * list byte);
  FileSystem_setxattr : FileSystem -> string -> string -> list byte -> Z -> M Host Z;
  FileSystem_removexattr : FileSystem -> string -> string -> M Host Z
}.

(** How a call into the backend ended; [status] is the value returned, seen
    as an integer. *)
Inductive CallOutcome : Type :=
| Returned (status : Z)
| Raised (e : Exception)
| Stopped (why : Stop).

(** A call into the backend: the function called, the [File*] or
    [DirectoryTraverser*] it is called on, if any, and how it ended. *)
Definition Entry : Type := (string * option Z * CallOutcome)%type.

(** What a worker thread sees: its thread-local [opt_fs], the mount options
    of the FUSE context, the host, the calls made into the backend so far,
    and the global logger. *)
Record World (Host : Type) : Type := mkWorld {
  opt_fs : option FileSystem;
  mount : MountOptions;
  host : Host;
  calls : list Entry;
  world_logger : Logger
}.

Arguments mkWorld {Host}.
Arguments opt_fs {Host}.
Arguments mount {Host}.
Arguments host {Host}.
Arguments calls {Host}.
Arguments world_logger {Host}.

#[export] Instance World_HasLogger {Host} : HasLogger (World Host) := {
  global_logger := world_logger;
  set_global_logger g w := mkWorld (opt_fs w) (mount w) (host w) (calls w) g
}.

Section Callbacks.
Context {Host : Type} `{Backend Host} `{KeyAudit} {build : Build}.

Abbreviation W := (World Host).

(** A call into the backend, entered in [calls] with what it is called on
    and its outcome. *)
Definition enter {A} (callee : string) (on : option Z) (status : A -> Z) (f : M Host A)
  : M W A :=
  fun w =>
    let '(r, h) := f (host w) in
    let outcome :=
      match r with
      | Ok a => Returned (status a)
      | Throw e => Raised e
      | Halt why => Stopped why
      end in
    (r, mkWorld (opt_fs w) (mount w) h (calls w ++ [(callee, on, outcome)])
          (world_logger w)).

(** A call to a function of the file system, or to the filler. *)
Definition invoke {A} (callee : string) (status : A -> Z) (f : M Host A) : M W A :=
  enter callee None status f.

(** A call to [method] of the file or traverser at [handle]. *)
Definition invoke_on {A} (handle : Z) (callee : string) (status : A -> Z)
    (method : Z -> M Host A) : M W A :=
  enter callee (Some handle) status (method handle).

(** A call to [method] of the object at [handle] made when a scope is left
    (a [DEFER]); it does not raise. *)
Definition leave_on (handle : Z) (callee : string) (method : Z -> Host -> Host) : W -> W :=
  fun w =>
    mkWorld (opt_fs w) (mount w) (method handle (host w))
      (calls w ++ [(callee, Some handle, Returned 0)]) (world_logger w).

(** The destructor of the object at [handle], run when its owner leaves
    the scope; it does not raise. *)
Definition delete_on (handle : Z) (callee : string) (destructor : Z -> M Host unit)
  : W -> W :=
  leave_on handle callee (fun handle h => snd (destructor handle h)).

Definition void (_ : unit) : Z := 0.
Definition same (z : Z) : Z := z.

(** [optional<T>::value()] *)
Definition value {A} (o : option A) : M W A :=
  match o with
  | Some a => ret a
  | None => throw (StdException "bad optional access")
  end.

(** [get_local_filesystem], with [HAS_THREAD_LOCAL]. *)
Definition get_local_filesystem : M W FileSystem :=
  w <- get ;;
  match opt_fs w with
  | Some fs => ret fs
  | None =>
      let opt := mount w in
      v <- value (version opt) ;;
      if negb (v =? 4)
      then throwInvalidArgumentException "This function only supports filesystem format 4"
      else if negb (Z.of_nat (List.length (master_key opt)) =? 3 * KEY_LENGTH)
      then throwInvalidArgumentException "Master key has wrong length"
      else
        let k := Z.to_nat KEY_LENGTH in
        let name_key := firstn k (master_key opt) in
        let content_key := firstn k (skipn k (master_key opt)) in
        let xattr_key := firstn k (skipn (2 * k) (master_key opt)) in
        warn_if_key_not_random name_key ;;
        warn_if_key_not_random content_key ;;
        warn_if_key_not_random xattr_key ;;
        bs <- value (block_size opt) ;;
        iv <- value (iv_size opt) ;;
        fl <- value (flags opt) ;;
        let fs := mkFileSystem (root opt) name_key content_key xattr_key bs iv fl in
        invoke "FileSystem::FileSystem" void (FileSystem_new fs) ;;
        modify (fun w => mkWorld (Some fs) (mount w) (host w) (calls w) (world_logger w)) ;;
        ret fs
  end.

(** Modelled from the spec: the macros [OPT_CATCH_WITH_PATH],
    [OPT_CATCH_WITH_PATH_OFF_LEN] and [OPT_CATCH_WITH_TWO_PATHS] are absent;
    errors are surfaced as negative errno (section 7), by the handler that
    [ftruncate] writes out in full: the error number of an [ExceptionBase],
    [EPERM] for any other exception, logged and returned negated. *)
Definition OPT_CATCH (func : string) (e : Exception) : M W Z :=
  let code := exception_code e in
  modify (ERROR_LOG (func ++ " encounters exception")) ;;
  ret (- code).

Definition OPT_TRACE (func : string) : M W unit :=
  modify (TRACE_LOG func).

Definition keep {A} (a : A) (c : M W Z) : M W (Z * A) :=
  v <- c ;; ret (v, a).

Definition statfs (path : string) (buf : option fuse_statvfs)
  : M W (Z * option fuse_statvfs) :=
  OperationLogger "operations-statfs" (
    filesystem <- get_local_filesystem ;;
    OPT_TRACE "statfs" ;;
    try_catch
      (match buf with
       | None => ret (- EFAULT, buf)
       | Some _ =>
           st <- invoke "FileSystem::statvfs" f_namemax (FileSystem_statvfs filesystem) ;;
           ret (0, Some (set_f_namemax (u64 (u64 (f_namemax st * 5) / 8 - 16)) st))
       end)
      (fun e => keep buf (OPT_CATCH "statfs" e))).

Definition getattr (path : string) (st : fuse_stat) : M W (Z * fuse_stat) :=
  filesystem <- get_local_filesystem ;;
  OPT_TRACE "getattr" ;;
  try_catch
    ('(found, st') <- invoke "FileSystem::stat"
                        (fun r : bool * fuse_stat => if fst r then 1 else 0)
                        (FileSystem_stat filesystem path) ;;
     if negb found then ret (- ENOENT, st')
     else modify (TRACE_LOG "stat") ;; ret (0, st'))
    (fun e => keep st (OPT_CATCH "getattr" e)).

Definition opendir (path : string) (info : fuse_file_info) : M W (Z * fuse_file_info) :=
  OperationLogger "operations-opendir" (
    filesystem <- get_local_filesystem ;;
    OPT_TRACE "opendir" ;;
    try_catch
      (traverser <- invoke "FileSystem::create_traverser" same
                      (FileSystem_create_traverser filesystem path) ;;
       ret (0, mk_info (info_flags info) traverser))
      (fun e => keep info (OPT_CATCH "opendir" e))).

Definition releasedir (path : string) (info : fuse_file_info) : M W Z :=
  OperationLogger "operations-releasedir" (
    modify (TRACE_LOG "releasedir") ;;
    try_catch
      ((if fh info =? 0 then ret tt
        else invoke_on (fh info) "DirectoryTraverser::~DirectoryTraverser" void
               Traverser_delete) ;;
       ret 0)
      (OPT_CATCH "releasedir")).

(** The loop of [readdir]; [fuel] bounds the number of entries read.  The
    entries [.] and [..] are skipped under [#ifndef _WIN32]. *)
Fixpoint readdir_loop (fuel : nat) (traverser : Z)
    (filler : string -> fuse_stat -> M Host Z) : M W Z :=
  match fuel with
  | O => halt OutOfFuel
  | S fuel' =>
      next <- invoke_on traverser "DirectoryTraverser::next"
                (fun r : option (string * fuse_stat) =>
                   match r with Some _ => 1 | None => 0 end)
                Traverser_next ;;
      match next with
      | None => ret 0
      | Some (name, stbuf) =>
          if negb _WIN32 && (String.eqb name "." || String.eqb name "..")
          then readdir_loop fuel' traverser filler
          else
            rc <- invoke "filler" same (filler name stbuf) ;;
            if negb (rc =? 0) then ret (- Z.abs rc)
            else readdir_loop fuel' traverser filler
      end
  end.

Definition readdir (fuel : nat) (path : string)
    (filler : string -> fuse_stat -> M Host Z) (info : fuse_file_info) : M W Z :=
  OperationLogger "operations-readdir" (
    OPT_TRACE "readdir" ;;
    try_catch
      (let traverser := fh info in
       if traverser =? 0 then ret (- EFAULT)
       else
         invoke_on traverser "DirectoryTraverser::rewind" void Traverser_rewind ;;
         readdir_loop fuel traverser filler)
      (OPT_CATCH "readdir")).

Definition create (path : string) (mode : Z) (info : fuse_file_info)
  : M W (Z * fuse_file_info) :=
  OperationLogger "operations-create" (
    filesystem <- get_local_filesystem ;;
    OPT_TRACE "create" ;;
    try_catch
      (file <- invoke "FileSystem::open" same
                 (FileSystem_open filesystem path
                    (Z.lor (Z.lor O_RDWR O_CREAT) O_EXCL) mode) ;;
       ret (0, mk_info (info_flags info) file))
      (fun e => keep info (OPT_CATCH "create" e))).

Definition open (path : string) (info : fuse_file_info) : M W (Z * fuse_file_info) :=
  OperationLogger "operations-open" (
    filesystem <- get_local_filesystem ;;
    OPT_TRACE "open" ;;
    try_catch
      (file <- invoke "FileSystem::open" same
                 (FileSystem_open filesystem path (info_flags info) 420) ;;
       ret (0, mk_info (info_flags info) file))
      (fun e => keep info (OPT_CATCH "open" e))).

Definition release (path : string) (info : fuse_file_info) : M W Z :=
  OperationLogger "operations-release" (
    modify (TRACE_LOG "release") ;;
    try_catch
      ((if fh info =? 0 then ret tt
        else invoke_on (fh info) "File::~File" void File_delete) ;;
       ret 0)
      (OPT_CATCH "release")).

(** [fp->lock(exclusive); DEFER(fp->unlock());] around [body]. *)
Definition locked {A} (fp : Z) (exclusive : bool) (body : M W A) : M W A :=
  invoke_on fp "File::lock" void (fun fp => File_lock fp exclusive) ;;
  scoped body (leave_on fp "File::unlock" File_unlock).

Definition read (path : string) (size offset : Z) (info : fuse_file_info)
  : M W (Z * list byte) :=
  OperationLogger "operations-read" (
    OPT_TRACE "read" ;;
    let fp := fh info in
    if fp =? 0 then ret (- EFAULT, [])
    else
      try_catch
        (locked fp false (
           got <- invoke_on fp "File::read"
                    (fun got : list byte => Z.of_nat (List.length got))
                    (fun fp => File_read fp offset size) ;;
           ret (static_cast_int (Z.of_nat (List.length got)), got)))
        (fun e => keep [] (OPT_CATCH "read" e))).

Definition write (path : string) (buf : list byte) (offset : Z) (info : fuse_file_info)
  : M W Z :=
  let size := Z.of_nat (List.length buf) in
  OperationLogger "operations-write" (
    modify (INFO_LOG "write") ;;
    OPT_TRACE "write" ;;
    let fp := fh info in
    if fp =? 0 then ret (- EFAULT)
    else
      try_catch
        (locked fp true (
           invoke_on fp "File::write" void (fun fp => File_write fp buf offset) ;;
           ret (static_cast_int size)))
        (OPT_CATCH "write")).

Definition flush (path : string) (info : fuse_file_info) : M W Z :=
  OperationLogger "operations-flush" (
    modify (TRACE_LOG "flush") ;;
    let fp := fh info in
    if fp =? 0 then ret (- EFAULT)
    else
      try_catch
        (locked fp true (invoke_on fp "File::flush" void File_flush ;; ret 0))
        (OPT_CATCH "flush")).

Definition ftruncate (path : string) (len : Z) (info : fuse_file_info) : M W Z :=
  OperationLogger "operations-ftruncate" (
    modify (TRACE_LOG "ftruncate") ;;
    let fp := fh info in
    if fp =? 0 then ret (- EFAULT)
    else
      try_catch
        (locked fp true
           (invoke_on fp "File::resize" void (fun fp => File_resize fp (u64 len)) ;; ret 0))
        (fun e =>
           let code := exception_code e in
           modify (ERROR_LOG "ftruncate encounters exception") ;;
           ret (- code))).

(** The callbacks that hand one call to the file system. *)
Definition delegate (func callee : string) (f : FileSystem -> M Host unit) : M W Z :=
  OperationLogger ("operations-" ++ func) (
    filesystem <- get_local_filesystem ;;
    OPT_TRACE func ;;
    try_catch (invoke callee void (f filesystem) ;; ret 0) (OPT_CATCH func)).

Definition unlink (path : string) : M W Z :=
  delegate "unlink" "FileSystem::unlink" (fun fs => FileSystem_unlink fs path).

Definition mkdir (path : string) (mode : Z) : M W Z :=
  delegate "mkdir" "FileSystem::mkdir" (fun fs => FileSystem_mkdir fs path mode).

Definition rmdir (path : string) : M W Z :=
  delegate "rmdir" "FileSystem::rmdir" (fun fs => FileSystem_rmdir fs path).

Definition chmod (path : string) (mode : Z) : M W Z :=
  delegate "chmod" "FileSystem::chmod" (fun fs => FileSystem_chmod fs path mode).

Definition chown (path : string) (uid gid : Z) : M W Z :=
  delegate "chown" "FileSystem::chown" (fun fs => FileSystem_chown fs path uid gid).

Definition symlink (to from : string) : M W Z :=
  delegate "symlink" "FileSystem::symlink" (fun fs => FileSystem_symlink fs to from).

Definition link (src dest : string) : M W Z :=
  delegate "link" "FileSystem::link" (fun fs => FileSystem_link fs src dest).

Definition rename (from to : string) : M W Z :=
  delegate "rename" "FileSystem::rename" (fun fs => FileSystem_rename fs from to).

Definition utimens (path : string) (ts : list Z) : M W Z :=
  delegate "utimens" "FileSystem::utimens" (fun fs => FileSystem_utimens fs path ts).

Definition readlink (path : string) (size : Z) : M W (Z * string) :=
  OperationLogger "operations-readlink" (
    filesystem <- get_local_filesystem ;;
    OPT_TRACE "readlink" ;;
    try_catch
      (target <- invoke "FileSystem::readlink" (fun _ : string => 0)
                   (FileSystem_readlink filesystem path size) ;;
       ret (0, target))
      (fun e => keep EmptyString (OPT_CATCH "readlink" e))).

Definition fsync (path : string) (datasync : Z) (info : fuse_file_info) : M W Z :=
  OperationLogger "operations-fsync" (
    modify (TRACE_LOG "fsync") ;;
    let fp := fh info in
    if fp =? 0 then ret (- EFAULT)
    else
      try_catch
        (locked fp true (invoke_on fp "File::fsync" void File_fsync ;; ret 0))
        (OPT_CATCH "fsync")).

Definition truncate (path : string) (len : Z) : M W Z :=
  OperationLogger "operations-truncate" (
    if len <? 0 then ret (- EINVAL)
    else
      modify (TRACE_LOG "truncate") ;;
      filesystem <- get_local_filesystem ;;
      try_catch
        (fp <- invoke "FileSystem::open" same (FileSystem_open filesystem path O_RDWR 420) ;;
         scoped
           (locked fp true
              (invoke_on fp "File::resize" void (fun fp => File_resize fp (u64 len)) ;;
               ret 0))
           (delete_on fp "File::~File" File_delete))
        (OPT_CATCH "truncate")).

(** The xattr callbacks, compiled under [#ifdef __APPLE__].  They have no
    logger, no trace and no [try] block.  The bytes that [listxattr] and
    [getxattr] of the file system leave in the buffer are returned beside
    the [int]; a callback that returns before the call leaves none. *)
Definition listxattr (path : string) (size : Z) : M W (Z * list byte) :=
  filesystem <- get_local_filesystem ;;
  '(rc, list) <- invoke "FileSystem::listxattr" (fun r : Z * list byte => fst r)
                   (FileSystem_listxattr filesystem path size) ;;
  ret (static_cast_int rc, list).

Definition getxattr (path name : string) (size position : Z) : M W (Z * list byte) :=
  if negb (position =? 0) then ret (- EINVAL, [])
  else if String.eqb name "com.apple.quarantine" then ret (- ENOATTR, [])
  else if String.eqb name "com.apple.FinderInfo" then ret (- ENOATTR, [])
  else
    filesystem <- get_local_filesystem ;;
    '(rc, value) <- invoke "FileSystem::getxattr" (fun r : Z * list byte => fst r)
                      (FileSystem_getxattr filesystem path name size) ;;
    ret (static_cast_int rc, value).

(** [value] is [None] for a null pointer; [size] is the length of the
    value. *)
Definition setxattr (path name : string) (value : option (list byte)) (flags position : Z)
  : M W Z :=
  if negb (position =? 0) then ret (- EINVAL)
  else if String.eqb name "com.apple.quarantine" then ret 0
  else if String.eqb name "com.apple.FinderInfo" then ret (- EACCES)
  else
    match value with
    | None => ret 0
    | Some bytes =>
        if Z.of_nat (List.length bytes) =? 0 then ret 0
        else
          filesystem <- get_local_filesystem ;;
          invoke "FileSystem::setxattr" same
            (FileSystem_setxattr filesystem path name bytes flags)
    end.

Definition removexattr (path name : string) : M W Z :=
  filesystem <- get_local_filesystem ;;
  invoke "FileSystem::removexattr" same (FileSystem_removexattr filesystem path name).

(** The operation table of [init_fuse_operations], for the callbacks that
    return an [int]; the last four are installed on Apple hosts when xattr
    support is asked for. *)
Inductive Callback : Type :=
| Statfs (path : string) (buf : option fuse_statvfs)
| Getattr (path : string) (st : fuse_stat)
| Opendir (path : string) (info : fuse_file_info)
| Releasedir (path : string) (info : fuse_file_info)
| Readdir (fuel : nat) (path : string) (filler : string -> fuse_stat -> M Host Z)
    (info : fuse_file_info)
| Create (path : string) (mode : Z) (info : fuse_file_info)
| Open (path : string) (info : fuse_file_info)
| Release (path : string) (info : fuse_file_info)
| Read (path : string) (size offset : Z) (info : fuse_file_info)
| Write (path : string) (buf : list byte) (offset : Z) (info : fuse_file_info)
| Flush (path : string) (info : fuse_file_info)
| Ftruncate (path : string) (len : Z) (info : fuse_file_info)
| Unlink (path : string)
| Mkdir (path : string) (mode : Z)
| Rmdir (path : string)
| Chmod (path : string) (mode : Z)
| Chown (path : string) (uid gid : Z)
| Symlink (to from : string)
| Link (src dest : string)
| Readlink (path : string) (size : Z)
| Rename (from to : string)
| Fsync (path : string) (datasync : Z) (info : fuse_file_info)
| Truncate (path : string) (len : Z)
| Utimens (path : string) (ts : list Z)
| Listxattr (path : string) (size : Z)
| Getxattr (path name : string) (size position : Z)
| Setxattr (path name : string) (value : option (list byte)) (flags position : Z)
| Removexattr (path name : string).

(** The [int] a callback hands back to FUSE. *)
Definition returned {A} (c : M W (Z * A)) : M W Z :=
  r <- c ;; ret (fst r).

Definition call (cb : Callback) : M W Z :=
  match cb with
  | Statfs path buf => returned (statfs path buf)
  | Getattr path st => returned (getattr path st)
  | Opendir path info => returned (opendir path info)
  | Releasedir path info => releasedir path info
  | Readdir fuel path filler info => readdir fuel path filler info
  | Create path mode info => returned (create path mode info)
  | Open path info => returned (open path info)
  | Release path info => release path info
  | Read path size offset info => returned (read path size offset info)
  | Write path buf offset info => write path buf offset info
  | Flush path info => flush path info
  | Ftruncate path len info => ftruncate path len info
  | Unlink path => unlink path
  | Mkdir path mode => mkdir path mode
  | Rmdir path => rmdir path
  | Chmod path mode => chmod path mode
  | Chown path uid gid => chown path uid gid
  | Symlink to from => symlink to from
  | Link src dest => link src dest
  | Readlink path size => returned (readlink path size)
  | Rename from to => rename from to
  | Fsync path datasync info => fsync path datasync info
  | Truncate path len => truncate path len
  | Utimens path ts => utimens path ts
  | Listxattr path size => returned (listxattr path size)
  | Getxattr path name size position => returned (getxattr path name size position)
  | Setxattr path name value flags position => setxattr path name value flags position
  | Removexattr path name => removexattr path name
  end.

(** The error code of a callback that turns its arguments down: a null
    handle or buffer, a negative length, a position other than zero or an
    attribute that the xattr callbacks do not serve. *)
Definition refusal (cb : Callback) : option Z :=
  match cb with
  | Statfs _ None => Some (- EFAULT)
  | Readdir _ _ _ info | Read _ _ _ info | Write _ _ _ info | Flush _ info
  | Ftruncate _ _ info | Fsync _ _ info =>
      if fh info =? 0 then Some (- EFAULT) else None
  | Truncate _ len => if len <? 0 then Some (- EINVAL) else None
  | Getxattr _ name _ position =>
      if negb (position =? 0) then Some (- EINVAL)
      else if String.eqb name "com.apple.quarantine" || String.eqb name "com.apple.FinderInfo"
      then Some (- ENOATTR)
      else None
  | Setxattr _ name _ _ position =>
      if negb (position =? 0) then Some (- EINVAL)
      else if String.eqb name "com.apple.quarantine" then None
      else if String.eqb name "com.apple.FinderInfo" then Some (- EACCES)
      else None
  | _ => None
  end.
End Callbacks.

Arguments Callback Host : clear implicits.

(** The error code that a call into the backend which did not do its work
    leads to: the error number of the exception it raised, [ENOENT] when
    [stat] found nothing, what [filler] returned when it asked to stop. *)
Definition entry_failure (en : Entry) : option Z :=
  match en with
  | (callee, _, Returned status) =>
      if String.eqb callee "FileSystem::stat" && (status =? 0) then Some (- ENOENT)
      else if String.eqb callee "filler" && negb (status =? 0) then Some (- Z.abs status)
      else None
  | (_, _, Raised e) => Some (- exception_code e)
  | (_, _, Stopped _) => None
  end.

(** The error code of the first call among [made] that failed. *)
Fixpoint first_failure (made : list Entry) : option Z :=
  match made with
  | [] => None
  | en :: rest =>
      match entry_failure en with
      | Some code => Some code
      | None => first_failure rest
      end
  end.

(** The call fails: the callback turns its arguments down, or one of the
    backend calls it made failed. *)
Definition fails {Host} (cb : Callback Host) (made : list Entry) : bool :=
  match refusal cb, first_failure made with
  | None, None => false
  | _, _ => true
  end.

(** What a call that fails returns. *)
Definition failure_value {Host} (cb : Callback Host) (made : list Entry) : Z :=
  match refusal cb, first_failure made with
  | Some code, _ => code
  | None, Some code => code
  | None, None => 0
  end.

(** What the call to [callee] returned, among the calls made; zero when
    there is none. *)
Fixpoint returned_by (callee : string) (made : list Entry) : Z :=
  match made with
  | [] => 0
  | (name, _, Returned status) :: rest =>
      if String.eqb name callee then status else returned_by callee rest
  | _ :: rest => returned_by callee rest
  end.

(** What a call that succeeds returns: zero; for [read], the number of bytes
    that [File::read] returned, and for [write] the number of bytes given,
    cast to [int]; for the xattr callbacks, what the function of the file
    system returned (zero when [setxattr] returns without calling it), cast
    to [int] by [listxattr] and [getxattr]. *)
Definition success_value {Host} (cb : Callback Host) (made : list Entry) : Z :=
  match cb with
  | Read _ _ _ _ => static_cast_int (returned_by "File::read" made)
  | Write _ buf _ _ => static_cast_int (Z.of_nat (List.length buf))
  | Listxattr _ _ => static_cast_int (returned_by "FileSystem::listxattr" made)
  | Getxattr _ _ _ _ => static_cast_int (returned_by "FileSystem::getxattr" made)
  | Setxattr _ _ _ _ _ => returned_by "FileSystem::setxattr" made
  | Removexattr _ _ => returned_by "FileSystem::removexattr" made
  | _ => 0
  end.

End Operations.

(** * Notions used to state the properties *)

Import Operations.

(** ** States reached by the stream code *)

Definition with_buffer (b : list byte) (m : Machine) : Machine :=
  let s := self m in
  mkMachine (mkStream (m_block_size s) (m_stream s) (m_iv_size s) (m_check s) b
               (m_session_key s)) (env m).

Definition with_stream (d : StreamBase) (m : Machine) : Machine :=
  let s := self m in
  mkMachine (mkStream (m_block_size s) d (m_iv_size s) (m_check s) (m_buffer s)
               (m_session_key s)) (env m).

Definition recorded (ev : Event) (m : Machine) : Machine :=
  mkMachine (self m) (env_record ev (env m)).

Definition logged (text : string) (m : Machine) : Machine :=
  set_global_logger (logger_log kLogInfo text (global_logger m)) m.

(** The call left the object, the calls made so far and the generator as
    they were. *)
Definition untouched (m m' : Machine) : Prop :=
  self m' = self m /\
  trace (env m') = trace (env m) /\
  rng_pos (env m') = rng_pos (env m).

(** The [k]-th draw of [iv_size] bytes that the generator will hand out. *)
Definition draw (m : Machine) (k : nat) : list byte :=
  let n := Z.to_nat (get_iv_size (self m)) in
  map (rng_tape (env m)) (seq (rng_pos (env m) + k * n) n).

(** The machine after one draw has been stored in the buffer. *)
Definition drawn (m : Machine) : Machine :=
  let e := env m in
  with_buffer (splice (m_buffer (self m)) 0 (draw m 0))
    (mkMachine (self m)
       (env_record (GenerateRandom (draw m 0))
          (mkEnv (rng_tape e) (rng_pos e + Z.to_nat (get_iv_size (self m)))%nat (trace e)
             (env_logger e)))).

(** What [draw_iv] leaves behind when it returns: the same object except for
    the buffer, whose first [iv_size] bytes are not all zero. *)
Definition iv_drawn (m m' : Machine) : Prop :=
  stream_ok (self m') /\
  m_block_size (self m') = m_block_size (self m) /\
  m_stream (self m') = m_stream (self m) /\
  m_iv_size (self m') = m_iv_size (self m) /\
  m_check (self m') = m_check (self m) /\
  m_session_key (self m') = m_session_key (self m) /\
  is_all_zeros (firstn (Z.to_nat (m_iv_size (self m))) (m_buffer (self m'))) = false.

(** What the encrypting path of [write_block] does to machine [m] for block
    [i], once the IV loop has returned with [m1]: the block written is
    [iv | ciphertext | tag]. *)
Definition block_written `{Crypto} (m : Machine) (i : Z) (input : list byte)
    (m1 m' : Machine) : Prop :=
  let s := self m in
  let offset := get_header_size + i * get_underlying_block_size s in
  let auxiliary := to_little_endian (u32 i) in
  let iv := firstn (Z.to_nat (get_iv_size s)) (m_buffer (self m1)) in
  let '(ciphertext, mac) :=
    GCM_EncryptAndAuthenticate (m_session_key s) iv auxiliary input in
  m_stream (self m') = stream_write (m_stream s) offset (iv ++ ciphertext ++ mac) /\
  trace (env m')
  = trace (env m1)
      ++ [EncryptAndAuthenticate iv auxiliary input;
          StreamWrite offset (iv ++ ciphertext ++ mac)].

(** The environment after [warn_if_key_not_random]: at most one more line in
    the log. *)
Definition warned `{KeyAudit} (key : list byte) (e : Env) : Env :=
  if key_not_random key
  then WARN_LOG "Encountering a key that has a non-random pattern" e
  else e.

(** ** The return convention of the callbacks *)

(** The exceptions raised among [made] carry a positive error number. *)
Definition codes_positive (made : list Entry) : Prop :=
  forall callee on e, In (callee, on, Raised e) made -> 0 < exception_code e.

(** A callback that came back with [r] keeps to the return convention:
    it returns what a call that succeeds returns, or the error code of its
    failure, which is negative when the error numbers of the exceptions
    raised are positive. *)
Definition conforms {Host} (cb : Callback Host) (w : World Host)
    (r : Result Z) (w' : World Host) : Prop :=
  match r with
  | Ok v =>
      exists made,
        calls w' = calls w ++ made /\
        (fails cb made = false -> v = success_value cb made) /\
        (fails cb made = true ->
         v = failure_value cb made /\ (codes_positive made -> v < 0))
  | _ => True
  end.

(** ** Worked instances *)

(** A cipher that leaves the bytes as they are, tags with zeros and never
    verifies. *)
Definition example_crypto : Crypto := {|
  ECB_ProcessData := fun key data => data;
  GCM_EncryptAndAuthenticate := fun key iv aad message => (message, repeat x00 16);
  GCM_DecryptAndVerify := fun key iv aad ciphertext mac => (false, ciphertext);
  GCM_ciphertext_length := fun key iv aad message => eq_refl;
  GCM_mac_length := fun key iv aad message => eq_refl
|}.

Definition example_audit : KeyAudit := {| key_not_random := is_all_zeros |}.

(** A generator whose first twelve bytes are zero and the others one. *)
Definition example_tape (n : nat) : byte := if (n <? 12)%nat then x00 else x01.

Definition example_env : Env :=
  mkEnv example_tape 0 [] (mkLogger kLogInfo []).

Definition example_stream (inner : StreamBase) : AESGCMCryptStream :=
  mkStream 32 inner 12 false (repeat x00 60) (repeat x07 32).

Definition example_machine (inner : StreamBase) : Machine :=
  mkMachine (example_stream inner) example_env.

(** A host whose state is the [f_namemax] it reports and whose calls all
    succeed. *)
Definition example_backend : Backend Z := {|
  FileSystem_new := fun _ => ret tt;
  FileSystem_statvfs := fun _ h =>
    (Ok (mk_statvfs 4096 4096 0 0 0 0 0 0 0 0 h), h);
  FileSystem_stat := fun _ _ => ret (true, mk_stat 0 0 0 0);
  FileSystem_create_traverser := fun _ _ => ret 1;
  FileSystem_open := fun _ _ _ _ => ret 1;
  FileSystem_unlink := fun _ _ => ret tt;
  FileSystem_mkdir := fun _ _ _ => ret tt;
  FileSystem_rmdir := fun _ _ => ret tt;
  FileSystem_chmod := fun _ _ _ => ret tt;
  FileSystem_chown := fun _ _ _ _ => ret tt;
  FileSystem_symlink := fun _ _ _ => ret tt;
  FileSystem_link := fun _ _ _ => ret tt;
  FileSystem_readlink := fun _ _ _ => ret EmptyString;
  FileSystem_rename := fun _ _ _ => ret tt;
  FileSystem_utimens := fun _ _ _ => ret tt;
  File_lock := fun _ _ => ret tt;
  File_unlock := fun _ h => h;
  File_read := fun _ _ size => ret (repeat x00 (Z.to_nat size));
  File_write := fun _ _ _ => ret tt;
  File_flush := fun _ => ret tt;
  File_fsync := fun _ => ret tt;
  File_resize := fun _ _ => ret tt;
  File_delete := fun _ => ret tt;
  Traverser_rewind := fun _ => ret tt;
  Traverser_next := fun _ => ret None;
  Traverser_delete := fun _ => ret tt;
  FileSystem_listxattr := fun _ _ _ => ret (0, []);
  FileSystem_getxattr := fun _ _ _ _ => ret (0, []);
  FileSystem_setxattr := fun _ _ _ _ _ => ret 0;
  FileSystem_removexattr := fun _ _ _ => ret 0
|}.

(** A build for a POSIX host. *)
Definition example_build : Build := {| _WIN32 := false |}.

Definition example_world (namemax : Z) : World Z :=
  mkWorld None
    (mkMountOptions 3 (Some 4) (repeat x01 96) (Some 4096) (Some 12) (Some 0))
    namemax [] (mkLogger kLogInfo []).

Definition five_bytes : list byte := [x01; x02; x03; x04; x05].

Definition open_handle : fuse_file_info := mk_info 0 1.

Definition unlink_f : Callback Z := Unlink "/f".

Definition write_five : Callback Z := Write "/f" five_bytes 0 open_handle.

Definition empty_statvfs : fuse_statvfs :=
  mk_statvfs 0 0 0 0 0 0 0 0 0 0 0.

(** * Notions used for the further properties *)

(** A computation keeps the relation [R] between the state it starts from and
    the state it leaves, however it ends. *)
Definition preserves {S A} (R : S -> S -> Prop) (c : M S A) : Prop :=
  forall s r s', c s = (r, s') -> R s s'.

(** The parameters of the object and the capacity of its buffer are the
    same. *)
Definition same_shape (m m' : Machine) : Prop :=
  m_block_size (self m') = m_block_size (self m) /\
  m_iv_size (self m') = m_iv_size (self m) /\
  m_check (self m') = m_check (self m) /\
  m_session_key (self m') = m_session_key (self m) /\
  List.length (m_buffer (self m')) = List.length (m_buffer (self m)).

(** The inner stream and the position of the generator are the same. *)
Definition same_stream (m m' : Machine) : Prop :=
  m_stream (self m') = m_stream (self m) /\
  rng_pos (env m') = rng_pos (env m).

(** What [read_block] returns for block [i], from the fields of the object
    and the bytes [got] that the inner read hands back. *)
Definition block_result `{Crypto} (s : AESGCMCryptStream) (i : Z) (got : list byte)
  : Result (Z * list byte) :=
  let r := Z.of_nat (List.length got) in
  let out_size := r - get_iv_size s - get_mac_size in
  if r <=? get_mac_size + get_iv_size s then Ok (0, [])
  else if is_all_zeros got
  then Ok (out_size, repeat x00 (Z.to_nat (get_block_size s)))
  else
    let iv := firstn (Z.to_nat (get_iv_size s)) got in
    let ciphertext := firstn (Z.to_nat out_size) (skipn (Z.to_nat (get_iv_size s)) got) in
    let mac := firstn (Z.to_nat get_mac_size) (skipn (Z.to_nat (r - get_mac_size)) got) in
    let '(success, message) :=
      GCM_DecryptAndVerify (m_session_key s) iv (to_little_endian (u32 i)) ciphertext mac in
    if m_check s && negb success
    then Throw LiteMessageVerificationException
    else Ok (out_size, message).


(** Modelled from the spec: [from_little_endian] of myutils is absent; it is
    the inverse of [to_little_endian] (section 4.A, and the test case
    "Test endian"), the value of four bytes read LSB first. *)
Definition from_little_endian (raw : list byte) : Z :=
  match raw with
  | [b0; b1; b2; b3] =>
      Z.of_N (Byte.to_N b0) + 2 ^ 8 * Z.of_N (Byte.to_N b1)
      + 2 ^ 16 * Z.of_N (Byte.to_N b2) + 2 ^ 24 * Z.of_N (Byte.to_N b3)
  | _ => 0
  end.

(** ** Notions for the callbacks *)

(** The callbacks that call [get_local_filesystem]: those written with
    [SINGLE_COMMON_PROLOGUE] or its two-path form, [truncate] once its
    length is accepted, and the xattr callbacks once they have accepted
    their arguments. *)
Definition enters_filesystem {Host} (cb : Callback Host) : bool :=
  match cb with
  | Releasedir _ _ | Readdir _ _ _ _ | Release _ _ | Read _ _ _ _ | Write _ _ _ _
  | Flush _ _ | Ftruncate _ _ _ | Fsync _ _ _ => false
  | Truncate _ len => negb (len <? 0)
  | Getxattr _ name _ position =>
      (position =? 0)
      && negb (String.eqb name "com.apple.quarantine")
      && negb (String.eqb name "com.apple.FinderInfo")
  | Setxattr _ name value _ position =>
      (position =? 0)
      && negb (String.eqb name "com.apple.quarantine")
      && negb (String.eqb name "com.apple.FinderInfo")
      && match value with
         | None => false
         | Some bytes => negb (Z.of_nat (List.length bytes) =? 0)
         end
  | _ => true
  end.

(** The handle of the callbacks that test it before they use it. *)
Definition tested_handle {Host} (cb : Callback Host) : option fuse_file_info :=
  match cb with
  | Readdir _ _ _ info | Read _ _ _ info | Write _ _ _ info | Flush _ info
  | Ftruncate _ _ info | Fsync _ _ info => Some info
  | _ => None
  end.

(** The state of a worker after a call into the backend that left the host
    as [h] and is entered as [en]. *)
Definition entered {Host} (en : Entry) (h : Host) (w : World Host) : World Host :=
  mkWorld (opt_fs w) (mount w) h (calls w ++ [en]) (world_logger w).

(** The files locked and not yet unlocked after the calls [made], the last
    one locked first, starting from the files [held].  A [File::lock] that
    returned locks the file it was called on; a [File::unlock] has to be
    called on the file locked last, as a [DEFER] does: the result is [None]
    when it is called on another file, or when no file is locked. *)
Fixpoint locks_held (held : list Z) (made : list Entry) : option (list Z) :=
  match made with
  | [] => Some held
  | (callee, on, outcome) :: rest =>
      if String.eqb callee "File::lock"
      then match on, outcome with
           | Some fp, Returned _ => locks_held (fp :: held) rest
           | _, _ => locks_held held rest
           end
      else if String.eqb callee "File::unlock"
      then match on, held with
           | Some fp, last :: held' =>
               if fp =? last then locks_held held' rest else None
           | _, _ => None
           end
      else locks_held held rest
  end.

(** The calls added between [w] and [w'] give back every lock they take,
    whatever files were locked before. *)
Definition locks_released {Host} (w w' : World Host) : Prop :=
  exists made,
    calls w' = calls w ++ made /\ forall held, locks_held held made = Some held.

(** The mount options are the same, and a file system that the thread had
    is still the one it has. *)
Definition same_context {Host} (w w' : World Host) : Prop :=
  mount w' = mount w /\
  forall fs, opt_fs w = Some fs -> opt_fs w' = Some fs.

(** The thread-local file system and the mount options are the same. *)
Definition same_filesystem {Host} (w w' : World Host) : Prop :=
  mount w' = mount w /\ opt_fs w' = opt_fs w.

(** The files opened and not yet closed after the calls [made], the last
    one opened first, starting from the files [opened].  A
    [FileSystem::open] that returned opens the file whose handle it
    returned; a [File::~File] has to be called on the file opened last: the
    result is [None] when it is called on another file, or when no file is
    open. *)
Fixpoint files_open (opened : list Z) (made : list Entry) : option (list Z) :=
  match made with
  | [] => Some opened
  | (callee, on, outcome) :: rest =>
      if String.eqb callee "FileSystem::open"
      then match outcome with
           | Returned fp => files_open (fp :: opened) rest
           | _ => files_open opened rest
           end
      else if String.eqb callee "File::~File"
      then match on, opened with
           | Some fp, last :: opened' =>
               if fp =? last then files_open opened' rest else None
           | _, _ => None
           end
      else files_open opened rest
  end.

(** A worker whose mount options name another format than 4. *)
Definition example_world_v2 : World Z :=
  mkWorld None
    (mkMountOptions 3 (Some 2) (repeat x01 96) (Some 4096) (Some 12) (Some 0))
    255 [] (mkLogger kLogInfo []).

(** ** Further worked instances *)

(** The header that the constructor draws from [example_tape]. *)
Definition example_header : list byte := map example_tape (seq 0 32).

(** The object that the constructor returns over an empty stream with
    [example_crypto], 32-byte blocks and 12-byte IVs. *)
Definition example_created : AESGCMCryptStream :=
  mkStream 32 example_header 12 false (repeat x00 60) example_header.

(** The file system built from the mount options of [example_world]. *)
Definition example_filesystem : FileSystem :=
  mkFileSystem 3 (repeat x01 32) (repeat x01 32) (repeat x01 32) 4096 12 0.

Definition null_handle : fuse_file_info := mk_info 0 0.

Definition write_null : Callback Z := Write "/f" five_bytes 0 null_handle.





(** [getxattr] at a position other than zero. *)
Definition getxattr_at_one : Callback Z := Getxattr "/f" "user.tag" 16 1.

(** * Properties of the crypt stream *)

Lemma u64_small (z : Z) : 0 <= z < 2 ^ 64 -> u64 z = z.
Proof. intros Hz. unfold u64. now apply Z.mod_small. Qed.

Lemma ubs_range (s : AESGCMCryptStream) :
  stream_ok s -> 60 <= get_underlying_block_size s < 2 ^ 32 + 48.
Proof.
  unfold stream_ok, get_underlying_block_size, get_block_size, get_iv_size, get_mac_size.
  lia.
Qed.

(** C1: the size reported by [size()] is the size correspondence of
    section 3, whatever the size of the underlying file. *)
Theorem size_matches_spec_formula (s : AESGCMCryptStream) :
  stream_ok s ->
  stream_size (m_stream s) < 2 ^ 64 ->
  size s = spec_logical_size (stream_size (m_stream s)) (m_block_size s) (m_iv_size s).
Proof.
  intros (Hb & Hi & _) Hsz.
  unfold size, calculate_real_size, spec_logical_size, get_block_size, get_iv_size,
    get_header_size, get_mac_size.
  set (T := stream_size (m_stream s)) in *.
  set (bs := m_block_size s) in *. set (iv := m_iv_size s) in *.
  assert (HT : 0 <= T) by (unfold T, stream_size; lia).
  destruct (Z.leb_spec T 32) as [Hle | Hgt]; [reflexivity|].
  rewrite (u64_small (bs + iv)) by lia.
  rewrite (u64_small (bs + iv + 16)) by lia.
  rewrite (u64_small (T - 32)) by lia.
  rewrite (u64_small (iv + 16)) by lia.
  set (U := T - 32) in *. set (ubs := bs + iv + 16) in *.
  assert (Hubs : 0 < ubs) by (unfold ubs; lia).
  pose proof (Z.div_mod U ubs ltac:(lia)) as Hdm.
  pose proof (Z.mod_pos_bound U ubs Hubs) as Hr.
  assert (Hn : 0 <= U / ubs) by (apply Z.div_pos; unfold U; lia).
  set (n := U / ubs) in *. set (r := U mod ubs) in *.
  assert (Hnb : 0 <= n * bs <= ubs * n) by (unfold ubs; nia).
  rewrite (u64_small (n * bs)) by (unfold U in *; lia).
  destruct (Z.gtb_spec r (iv + 16)) as [Hbig | Hsmall].
  - rewrite (u64_small (r - iv)) by lia.
    rewrite (u64_small (r - iv - 16)) by lia.
    rewrite Z.max_r by lia.
    apply u64_small. unfold U in *. lia.
  - rewrite Z.max_l by lia.
    apply u64_small. unfold U in *. lia.
Qed.

(** ** Running the monadic code *)

Ltac mrun :=
  unfold OperationLogger, scoped, try_catch, bind;
  cbn [bind ret throw halt get modify scoped try_catch this record lift_env
       set_buffer set_stream OperationLogger throwInvalidArgumentException
       self env m_block_size m_stream m_iv_size m_check m_buffer m_session_key
       rng_tape rng_pos trace env_logger env_record
       global_logger set_global_logger Env_HasLogger Machine_HasLogger
       INFO_LOG WARN_LOG GENERIC_LOG fst snd].

Lemma MAX_BLOCKS_value : MAX_BLOCKS = 2 ^ 31 - 1.
Proof. reflexivity. Qed.

Lemma block_number_accepted (i : Z) : i <= 2 ^ 31 - 1 -> (i >? MAX_BLOCKS) = false.
Proof. rewrite MAX_BLOCKS_value. intros Hi. destruct (Z.gtb_spec i (2 ^ 31 - 1)); lia. Qed.

Lemma block_number_refused (i : Z) : i > 2 ^ 31 - 1 -> (i >? MAX_BLOCKS) = true.
Proof. rewrite MAX_BLOCKS_value. intros Hi. destruct (Z.gtb_spec i (2 ^ 31 - 1)); lia. Qed.

(** The test case "Test endian": [0xABCDEF] is laid out as [EF CD AB 00]. *)
Example to_little_endian_test :
  to_little_endian 11259375 = [xef; xcd; xab; x00].
Proof. reflexivity. Qed.

(** *** Lists as buffers *)

Lemma splice_length (buf src : list byte) (off : nat) :
  (off + List.length src <= List.length buf)%nat ->
  List.length (splice buf off src) = List.length buf.
Proof.
  intros Hfit. unfold splice.
  rewrite !length_app, length_firstn, length_skipn. lia.
Qed.

Lemma splice_read_back (buf src : list byte) (off n : nat) :
  (off <= List.length buf)%nat -> (n <= List.length src)%nat ->
  firstn n (skipn off (splice buf off src)) = firstn n src.
Proof.
  intros Hoff Hn. unfold splice.
  rewrite skipn_app, length_firstn.
  replace (skipn off (firstn off buf)) with (@nil byte)
    by (symmetry; apply skipn_all2; rewrite length_firstn; lia).
  replace (off - Nat.min off (List.length buf))%nat with 0%nat by lia.
  cbn [skipn app]. rewrite firstn_app.
  replace (n - List.length src)%nat with 0%nat by lia.
  cbn [firstn]. now rewrite app_nil_r.
Qed.

Lemma splice_keeps_prefix (buf src : list byte) (off n : nat) :
  (n <= off)%nat -> (off <= List.length buf)%nat ->
  firstn n (splice buf off src) = firstn n buf.
Proof.
  intros Hn Hoff. unfold splice.
  rewrite firstn_app, length_firstn.
  replace (n - Nat.min off (List.length buf))%nat with 0%nat by lia.
  cbn [firstn]. rewrite app_nil_r, firstn_firstn. f_equal. lia.
Qed.

Lemma stream_read_length (data : StreamBase) (offset length : Z) :
  Z.of_nat (List.length (stream_read data offset length)) <= Z.max 0 length.
Proof.
  unfold stream_read. rewrite length_firstn. lia.
Qed.

Lemma stream_read_after_write (data : StreamBase) (offset n : Z) (src : list byte) :
  n <= Z.of_nat (List.length src) ->
  stream_read (stream_write data offset src) offset n = firstn (Z.to_nat n) src.
Proof.
  intros Hn. unfold stream_read, stream_write.
  set (off := Z.to_nat offset).
  rewrite skipn_app.
  assert (Hlen : List.length (firstn off data ++ repeat x00 (off - List.length data)) = off)
    by (rewrite length_app, length_firstn, repeat_length; lia).
  rewrite Hlen, Nat.sub_diag. cbn [skipn].
  rewrite skipn_all2 by lia. cbn [app].
  rewrite firstn_app.
  replace (Z.to_nat n - List.length src)%nat with 0%nat by lia.
  cbn [firstn]. now rewrite app_nil_r.
Qed.


(** *** The buffer primitives *)

Lemma buffer_store_run (m : Machine) (offset : Z) (src : list byte) :
  (Z.to_nat offset + List.length src <= List.length (m_buffer (self m)))%nat ->
  buffer_store offset src m
  = (Ok tt, with_buffer (splice (m_buffer (self m)) (Z.to_nat offset) src) m).
Proof.
  intros Hfit. unfold buffer_store. mrun.
  apply Nat.leb_le in Hfit. rewrite Hfit. reflexivity.
Qed.

Lemma buffer_load_run (m : Machine) (offset length : Z) :
  (Z.to_nat offset + Z.to_nat length <= List.length (m_buffer (self m)))%nat ->
  buffer_load offset length m
  = (Ok (firstn (Z.to_nat length) (skipn (Z.to_nat offset) (m_buffer (self m)))), m).
Proof.
  intros Hfit. unfold buffer_load. mrun.
  apply Nat.leb_le in Hfit. rewrite Hfit. reflexivity.
Qed.

Lemma m_stream_read_run (m : Machine) (offset length : Z) :
  length <= Z.of_nat (List.length (m_buffer (self m))) ->
  let got := stream_read (m_stream (self m)) offset length in
  m_stream_read offset length m
  = (Ok (Z.of_nat (List.length got)),
     with_buffer (splice (m_buffer (self m)) 0 got) (recorded (StreamRead offset length got) m)).
Proof.
  intros Hlen got. unfold m_stream_read. mrun. fold got.
  pose proof (stream_read_length (m_stream (self m)) offset length) as Hgot. fold got in Hgot.
  rewrite buffer_store_run by (mrun; change (Z.to_nat 0) with 0%nat; lia).
  reflexivity.
Qed.

(** The offset of block [i] in the underlying stream, computed on 64 bits,
    is [header_size + i * underlying_block_size]. *)
Lemma read_offset_exact (s : AESGCMCryptStream) (i : Z) :
  stream_ok s -> 0 <= i <= 2 ^ 31 - 1 ->
  u64 (get_header_size + u64 (get_underlying_block_size s * i))
  = get_header_size + i * get_underlying_block_size s.
Proof.
  intros Hs Hi. pose proof (ubs_range s Hs) as Hu. unfold get_header_size.
  rewrite (u64_small (get_underlying_block_size s * i)) by nia.
  rewrite u64_small by nia. lia.
Qed.

Lemma write_offset_exact (s : AESGCMCryptStream) (i : Z) :
  stream_ok s -> 0 <= i <= 2 ^ 31 - 1 ->
  u64 (u64 (i * get_underlying_block_size s) + get_header_size)
  = get_header_size + i * get_underlying_block_size s.
Proof.
  intros Hs Hi. pose proof (ubs_range s Hs) as Hu. unfold get_header_size.
  rewrite (u64_small (i * get_underlying_block_size s)) by nia.
  rewrite u64_small by nia. lia.
Qed.

Lemma firstn_skipn_app_l (src rest : list byte) (k n : nat) :
  (k + n <= List.length src)%nat ->
  firstn n (skipn k (src ++ rest)) = firstn n (skipn k src).
Proof.
  intros Hfit. rewrite skipn_app, firstn_app, length_skipn.
  replace (n - (List.length src - k))%nat with 0%nat by lia.
  cbn [firstn]. now rewrite app_nil_r.
Qed.

Lemma splice_read_inside (buf src : list byte) (k n : nat) :
  (k + n <= List.length src)%nat ->
  firstn n (skipn k (splice buf 0 src)) = firstn n (skipn k src).
Proof.
  intros Hfit. unfold splice. cbn [firstn app]. now apply firstn_skipn_app_l.
Qed.

Section ReadBlock.
Context `{Crypto}.
Variable m : Machine.
Variable i : Z.
Hypothesis Hok : stream_ok (self m).
Hypothesis Hi : 0 <= i <= 2 ^ 31 - 1.

Let s := self m.
Let offset := get_header_size + i * get_underlying_block_size s.
Let got := stream_read (m_stream s) offset (get_underlying_block_size s).
Let r := Z.of_nat (List.length got).
Let out_size := r - get_iv_size s - get_mac_size.
Let iv := firstn (Z.to_nat (get_iv_size s)) got.
Let ciphertext := firstn (Z.to_nat out_size) (skipn (Z.to_nat (get_iv_size s)) got).
Let mac := firstn (Z.to_nat get_mac_size) (skipn (Z.to_nat (r - get_mac_size)) got).
Let auxiliary := to_little_endian (u32 i).

(** Every path of [read_block] for a block number within the limit. *)
Lemma read_block_run :
  read_block i m
  = let m1 := with_buffer (splice (m_buffer s) 0 got)
                (recorded (StreamRead offset (get_underlying_block_size s) got)
                   (set_global_logger
                      (logger_log kLogInfo
                         "Being ++++++++++++++[AESGCMCryptStream::ReadBlock]++++++++++++"
                         (global_logger m)) m)) in
    let finish (m' : Machine) :=
      set_global_logger
        (logger_log kLogInfo
           "End   --------------[AESGCMCryptStream::ReadBlock]------------"
           (global_logger m')) m' in
    if r <=? get_mac_size + get_iv_size s then (Ok (0, []), finish m1)
    else if is_all_zeros got
    then (Ok (out_size, repeat x00 (Z.to_nat (get_block_size s))), finish m1)
    else
      let m2 :=
        set_global_logger
          (logger_log kLogInfo
             "End   --------------[DecryptAndAuthenticate]------------"
             (logger_log kLogInfo
                "Being ++++++++++++++[DecryptAndAuthenticate]++++++++++++"
                (global_logger m1)))
          (recorded (DecryptAndVerify iv auxiliary ciphertext mac) m1) in
      let '(success, message) :=
        GCM_DecryptAndVerify (m_session_key s) iv auxiliary ciphertext mac in
      if m_check s && negb success
      then (Throw LiteMessageVerificationException, finish m2)
      else (Ok (out_size, message), finish m2).
Proof.
  pose proof (ubs_range s Hok) as Hubs.
  assert (Hbuf : Z.of_nat (List.length (m_buffer s)) = get_underlying_block_size s)
    by (destruct Hok as (_ & _ & E); exact E).
  assert (Hiv : 12 <= get_iv_size s <= 32) by (destruct Hok as (_ & E & _); exact E).
  pose proof (stream_read_length (m_stream s) offset (get_underlying_block_size s)) as Hr.
  fold got r in Hr.
  unfold read_block. mrun.
  rewrite block_number_accepted by lia. mrun.
  rewrite read_offset_exact by (mrun; assumption || lia).
  rewrite m_stream_read_run by (mrun; fold s; lia).
  mrun. fold s offset got r.
  destruct (Z.leb_spec r (get_mac_size + get_iv_size s)) as [Hsmall | Hbig];
    [reflexivity|].
  destruct (Z.gtb_spec r (get_underlying_block_size s)) as [Hover | Hfits]; [lia|].
  unfold get_mac_size in *.
  assert (Hsplice : List.length (splice (m_buffer s) 0 got) = List.length (m_buffer s))
    by (apply splice_length; lia).
  rewrite buffer_load_run by (unfold with_buffer; mrun; rewrite Hsplice; lia).
  unfold with_buffer at 1 2. mrun.
  change (Z.to_nat 0) with 0%nat.
  rewrite splice_read_inside by lia. cbn [skipn].
  rewrite firstn_all2 by lia.
  destruct (is_all_zeros got) eqn:Hz.
  - mrun. rewrite (u64_small (r - get_iv_size s)) by lia.
    rewrite u64_small by lia. reflexivity.
  - rewrite (u64_small (r - get_iv_size s)) by lia.
    rewrite (u64_small (r - get_iv_size s - 16)) by lia.
    rewrite buffer_load_run by (unfold with_buffer; mrun; rewrite Hsplice; lia).
    mrun.
    rewrite buffer_load_run by (unfold with_buffer; mrun; rewrite Hsplice; lia).
    mrun.
    rewrite buffer_load_run by (unfold with_buffer; mrun; rewrite Hsplice; lia).
    unfold with_buffer. mrun.
    change (Z.to_nat 0) with 0%nat.
    rewrite !splice_read_inside by lia.
    cbn [skipn]. fold s out_size iv ciphertext auxiliary.
    change (firstn (Z.to_nat 16) (skipn (Z.to_nat (r - 16)) got)) with mac.
    destruct (GCM_DecryptAndVerify (m_session_key s) iv auxiliary ciphertext mac)
      as [success message].
    destruct (m_check s && negb success); reflexivity.
Qed.
End ReadBlock.

(** Case analysis on every test the code makes, for properties that hold on
    all paths. *)
Ltac all_paths :=
  repeat (unfold m_stream_read, m_stream_write, buffer_store, buffer_load; mrun;
          match goal with
          | |- context [if ?c then _ else _] => destruct c
          | |- context [GCM_DecryptAndVerify ?k ?iv ?aad ?ct ?mac] =>
              destruct (GCM_DecryptAndVerify k iv aad ct mac)
          | |- context [GCM_EncryptAndAuthenticate ?k ?iv ?aad ?msg] =>
              destruct (GCM_EncryptAndAuthenticate k iv aad msg)
          end).

Lemma draw_iv_never_throws (fuel : nat) (m : Machine) (e : Exception) :
  fst (draw_iv fuel m) <> Throw e.
Proof.
  revert m. induction fuel as [|fuel IH]; intros m; cbn [draw_iv].
  - unfold halt. cbn. discriminate.
  - unfold generate_random.
    all_paths; cbn [fst]; try discriminate; apply IH.
Qed.

Lemma read_block_within_limit `{Crypto} (m : Machine) (i a b : Z) :
  i <= 2 ^ 31 - 1 -> fst (read_block i m) <> Throw (StreamTooLongException a b).
Proof.
  intros Hi. unfold read_block. mrun.
  rewrite block_number_accepted by lia.
  all_paths; cbn [fst]; discriminate.
Qed.

Lemma write_block_within_limit `{Crypto} (m : Machine) (fuel : nat) (input : list byte)
    (i a b : Z) :
  i <= 2 ^ 31 - 1 -> fst (write_block fuel i input m) <> Throw (StreamTooLongException a b).
Proof.
  intros Hi. unfold write_block. mrun.
  rewrite block_number_accepted by lia.
  destruct (is_all_zeros input).
  - all_paths; cbn [fst]; discriminate.
  - mrun.
    match goal with |- context [draw_iv fuel ?m0] =>
      pose proof (draw_iv_never_throws fuel m0) as Hd;
      destruct (draw_iv fuel m0) as [[[] | e | w] m1]
    end.
    + all_paths; cbn [fst]; discriminate.
    + exfalso. apply (Hd e). reflexivity.
    + cbn [fst]. discriminate.
Qed.

Lemma firstn_exact_app (l l' : list byte) (n : nat) :
  n = List.length l -> firstn n (l ++ l') = l.
Proof.
  intros ->. rewrite firstn_app, Nat.sub_diag, firstn_all. cbn [firstn].
  now rewrite app_nil_r.
Qed.

(** The buffer after the IV, the ciphertext and the tag are stored reads
    [iv | ciphertext | tag]. *)
Lemma block_layout (buf ct mac : list byte) (iv_n : nat) :
  (iv_n + List.length ct + List.length mac <= List.length buf)%nat ->
  firstn (iv_n + List.length ct + List.length mac)
    (splice (splice buf iv_n ct) (iv_n + List.length ct) mac)
  = firstn iv_n buf ++ ct ++ mac.
Proof.
  intros Hfit. unfold splice at 1.
  assert (Hpre : firstn (iv_n + List.length ct) (splice buf iv_n ct) = firstn iv_n buf ++ ct).
  { unfold splice. rewrite app_assoc. apply firstn_exact_app.
    rewrite length_app, length_firstn. lia. }
  rewrite Hpre.
  transitivity ((firstn iv_n buf ++ ct) ++ mac); [|now rewrite <- app_assoc].
  rewrite (app_assoc (firstn iv_n buf ++ ct)).
  apply firstn_exact_app.
  rewrite !length_app, length_firstn. lia.
Qed.

Lemma m_stream_write_run (m : Machine) (offset length : Z) :
  (Z.to_nat length <= List.length (m_buffer (self m)))%nat ->
  let src := firstn (Z.to_nat length) (m_buffer (self m)) in
  m_stream_write offset length m
  = (Ok tt, with_stream (stream_write (m_stream (self m)) offset src)
              (recorded (StreamWrite offset src) m)).
Proof.
  intros Hfit src. unfold m_stream_write. mrun.
  rewrite buffer_load_run by (change (Z.to_nat 0) with 0%nat; lia).
  reflexivity.
Qed.

Lemma draw_length (m : Machine) (k : nat) :
  List.length (draw m k) = Z.to_nat (get_iv_size (self m)).
Proof. unfold draw. now rewrite length_map, length_seq. Qed.

Lemma draw_iv_step (fuel : nat) (m : Machine) :
  stream_ok (self m) ->
  draw_iv (S fuel) m
  = if is_all_zeros (draw m 0) then draw_iv fuel (drawn m) else (Ok tt, drawn m).
Proof.
  intros Hok. pose proof (ubs_range _ Hok) as Hubs.
  destruct Hok as (Hb & Hiv & Hbuf). fold (get_iv_size (self m)) in Hiv.
  pose proof (draw_length m 0) as Hlen.
  cbn [draw_iv]. unfold generate_random. mrun.
  replace (map (rng_tape (env m)) (seq (rng_pos (env m)) (Z.to_nat (get_iv_size (self m)))))
    with (draw m 0)
    by (unfold draw; now rewrite Nat.mul_0_l, Nat.add_0_r).
  assert (Hfit : (0 + List.length (draw m 0) <= List.length (m_buffer (self m)))%nat)
    by (unfold get_underlying_block_size, get_block_size, get_mac_size in *; lia).
  rewrite buffer_store_run by (mrun; exact Hfit).
  mrun.
  rewrite buffer_load_run
    by (unfold with_buffer; mrun; change (Z.to_nat 0) with 0%nat;
        rewrite splice_length by exact Hfit; lia).
  unfold with_buffer at 1 2. mrun. change (Z.to_nat 0) with 0%nat.
  rewrite splice_read_back by lia.
  rewrite firstn_all2 by lia.
  destruct (is_all_zeros (draw m 0)); reflexivity.
Qed.

Lemma drawn_ok (m : Machine) : stream_ok (self m) -> stream_ok (self (drawn m)).
Proof.
  intros Hok. pose proof (ubs_range _ Hok) as Hubs.
  pose proof (draw_length m 0) as Hlen.
  destruct Hok as (Hb & Hiv & Hbuf). fold (get_iv_size (self m)) in Hiv.
  unfold stream_ok, drawn, with_buffer, get_underlying_block_size, get_block_size,
    get_iv_size, get_mac_size in *.
  cbn [self m_buffer m_block_size m_iv_size]. rewrite splice_length by lia. lia.
Qed.

Lemma draw_iv_returns (fuel : nat) (m m' : Machine) :
  stream_ok (self m) -> draw_iv fuel m = (Ok tt, m') -> iv_drawn m m'.
Proof.
  revert m. induction fuel as [|fuel IH]; intros m Hok Hrun.
  - discriminate Hrun.
  - rewrite draw_iv_step in Hrun by exact Hok.
    pose proof (drawn_ok m Hok) as Hok1.
    destruct (is_all_zeros (draw m 0)) eqn:Hz.
    + destruct (IH (drawn m) Hok1 Hrun) as (H1 & H2 & H3 & H4 & H5 & H6 & H7).
      unfold iv_drawn. cbn in H2, H3, H4, H5, H6, H7. tauto.
    + injection Hrun as <-. unfold iv_drawn. split; [exact Hok1|].
      repeat split; try reflexivity.
      unfold drawn, with_buffer. cbn [self m_buffer].
      pose proof (draw_length m 0) as Hlen. unfold get_iv_size in Hlen.
      pose proof (ubs_range _ Hok) as Hubs.
      destruct Hok as (Hb & Hiv & Hbuf).
      unfold splice. cbn [firstn app].
      rewrite firstn_exact_app by (symmetry; exact Hlen). exact Hz.
Qed.

Lemma draw_shift (m : Machine) (k : nat) : draw (drawn m) k = draw m (S k).
Proof.
  unfold draw, drawn, with_buffer. cbn. f_equal. f_equal. unfold get_iv_size. lia.
Qed.

Lemma draw_iv_terminates (fuel k : nat) (m : Machine) :
  stream_ok (self m) -> (k < fuel)%nat -> is_all_zeros (draw m k) = false ->
  exists m', draw_iv fuel m = (Ok tt, m').
Proof.
  revert m k. induction fuel as [|fuel IH]; intros m k Hok Hk Hnz; [lia|].
  rewrite draw_iv_step by exact Hok.
  destruct (is_all_zeros (draw m 0)) eqn:Hz; [|eauto].
  destruct k as [|k]; [congruence|].
  apply (IH (drawn m) k).
  - now apply drawn_ok.
  - lia.
  - now rewrite draw_shift.
Qed.

Section WriteBlock.
Context `{Crypto}.
Variable m : Machine.
Variable fuel : nat.
Variable i : Z.
Variable input : list byte.
Hypothesis Hok : stream_ok (self m).
Hypothesis Hi : 0 <= i <= 2 ^ 31 - 1.
Hypothesis Hsize : Z.of_nat (List.length input) <= get_block_size (self m).

Let s := self m.
Let size := Z.of_nat (List.length input).
Let offset := get_header_size + i * get_underlying_block_size s.
Let auxiliary := to_little_endian (u32 i).
Let m0 := logged "Being ++++++++++++++[AESGCMCryptStream::WriteBlock]++++++++++++" m.

Lemma underlying_size_exact :
  u64 (u64 (size + get_iv_size s) + get_mac_size) = size + get_iv_size s + get_mac_size.
Proof.
  destruct Hok as (Hb & Hiv & _). unfold get_mac_size, get_iv_size, get_block_size in *.
  fold s in Hb, Hiv, Hsize.
  rewrite (u64_small (size + m_iv_size s)) by (unfold size; lia).
  apply u64_small. unfold size. lia.
Qed.

(** The sparse path: one write of zeros, nothing else. *)
Lemma write_block_zero_run :
  is_all_zeros input = true ->
  let zeros := repeat x00 (Z.to_nat (size + get_iv_size s + get_mac_size)) in
  exists m',
    write_block fuel i input m = (Ok tt, m') /\
    trace (env m') = trace (env m) ++ [StreamWrite offset zeros] /\
    m_stream (self m') = stream_write (m_stream s) offset zeros /\
    rng_pos (env m') = rng_pos (env m).
Proof.
  intros Hz zeros.
  pose proof (ubs_range s Hok) as Hubs.
  assert (Hbuf : Z.of_nat (List.length (m_buffer s)) = get_underlying_block_size s)
    by (destruct Hok as (_ & _ & E); exact E).
  assert (Hiv : 12 <= get_iv_size s <= 32) by (destruct Hok as (_ & E & _); exact E).
  assert (Hfit : (0 + List.length zeros <= List.length (m_buffer s))%nat).
  { unfold zeros. rewrite repeat_length.
    unfold get_underlying_block_size, get_mac_size in *. fold s in Hsize.
    unfold size. lia. }
  unfold write_block. mrun.
  rewrite block_number_accepted by lia. rewrite Hz. mrun.
  rewrite write_offset_exact by (mrun; assumption || lia).
  fold s size. rewrite underlying_size_exact. fold offset zeros.
  rewrite buffer_store_run by (mrun; exact Hfit).
  rewrite m_stream_write_run
    by (unfold with_buffer; mrun; rewrite splice_length by exact Hfit;
        unfold zeros in Hfit; rewrite repeat_length in Hfit; fold s; lia).
  unfold with_buffer, with_stream, recorded. mrun. change (Z.to_nat 0) with 0%nat.
  fold s.
  assert (Hsrc : firstn (Z.to_nat (size + get_iv_size s + get_mac_size))
                   (splice (m_buffer s) 0 zeros) = zeros).
  { unfold splice. cbn [firstn app]. apply firstn_exact_app.
    unfold zeros. now rewrite repeat_length. }
  rewrite Hsrc.
  eexists. split; [reflexivity|]. cbn. auto.
Qed.

Lemma write_block_nonzero_run :
  is_all_zeros input = false ->
  match draw_iv fuel m0 with
  | (Ok _, m1) => exists m', write_block fuel i input m = (Ok tt, m') /\ block_written m i input m1 m'
  | (Throw e, _) => fst (write_block fuel i input m) = Throw e
  | (Halt w, _) => fst (write_block fuel i input m) = Halt w
  end.
Proof.
  intros Hnz.
  destruct (draw_iv fuel m0) as [[[] | e | w] m1] eqn:Hdraw;
    unfold write_block; mrun;
    rewrite block_number_accepted by lia; rewrite Hnz; mrun;
    rewrite write_offset_exact by (mrun; assumption || lia);
    fold s size; rewrite underlying_size_exact; fold offset auxiliary;
    match goal with
    | |- context [draw_iv fuel ?x] =>
        change (draw_iv fuel x) with (draw_iv fuel m0); rewrite Hdraw
    end; [|reflexivity|reflexivity].
  assert (Hok0 : stream_ok (self m0)) by exact Hok.
  destruct (draw_iv_returns fuel m0 m1 Hok0 Hdraw)
    as (Hok1 & Ebs & Est & Eiv & Ech & Ekey & Hivnz).
  change (self m0) with s in *.
  pose proof (ubs_range _ Hok1) as Hubs.
  destruct Hok1 as (Hb1 & Hiv1 & Hbuf1).
  unfold get_underlying_block_size, get_block_size, get_iv_size, get_mac_size in *.
  fold s in Hsize. rewrite Ebs, Eiv in *.
  mrun.
  rewrite buffer_load_run by (mrun; change (Z.to_nat 0) with 0%nat; lia).
  mrun. change (Z.to_nat 0) with 0%nat. cbn [skipn].
  set (iv := firstn (Z.to_nat (m_iv_size s)) (m_buffer (self m1))).
  pose proof (GCM_ciphertext_length (m_session_key s) iv auxiliary input) as Hct.
  pose proof (GCM_mac_length (m_session_key s) iv auxiliary input) as Hmac.
  unfold block_written. cbv zeta. fold s auxiliary. unfold get_iv_size. fold iv.
  destruct (GCM_EncryptAndAuthenticate (m_session_key s) iv auxiliary input)
    as [ciphertext mac].
  cbn [fst snd] in Hct, Hmac. unfold get_mac_size in Hmac.
  mrun.
  rewrite buffer_store_run by (mrun; lia).
  mrun.
  rewrite buffer_store_run
    by (unfold with_buffer; mrun; rewrite splice_length by lia; unfold size; lia).
  rewrite m_stream_write_run
    by (unfold with_buffer; mrun; rewrite !splice_length;
        rewrite ?splice_length; unfold size; lia).
  unfold with_buffer, with_stream, recorded. mrun.
  replace (Z.to_nat (m_iv_size s + size))
    with (Z.to_nat (m_iv_size s) + List.length ciphertext)%nat by (unfold size; lia).
  replace (Z.to_nat (size + m_iv_size s + 16))
    with (Z.to_nat (m_iv_size s) + List.length ciphertext + List.length mac)%nat
    by (unfold size; lia).
  rewrite block_layout by lia. fold iv.
  eexists. split; [reflexivity|]. cbn [self env m_stream trace env_record].
  split; [now rewrite Est|].
  now rewrite <- app_assoc.
Qed.
End WriteBlock.

Lemma draw_iv_first (fuel k : nat) (m : Machine) :
  stream_ok (self m) -> (k < fuel)%nat ->
  (forall j, (j < k)%nat -> is_all_zeros (draw m j) = true) ->
  is_all_zeros (draw m k) = false ->
  exists m', draw_iv fuel m = (Ok tt, m') /\
             firstn (Z.to_nat (get_iv_size (self m))) (m_buffer (self m')) = draw m k.
Proof.
  revert m k. induction fuel as [|fuel IH]; intros m k Hok Hk Hbefore Hnz; [lia|].
  rewrite draw_iv_step by exact Hok.
  destruct k as [|k].
  - rewrite Hnz. eexists. split; [reflexivity|].
    unfold drawn, with_buffer, splice. cbn [self m_buffer firstn app].
    apply firstn_exact_app. now rewrite draw_length.
  - rewrite (Hbefore 0%nat) by lia.
    destruct (IH (drawn m) k) as (m' & Hrun & Hiv).
    + now apply drawn_ok.
    + lia.
    + intros j Hj. rewrite draw_shift. apply Hbefore. lia.
    + now rewrite draw_shift.
    + exists m'. split; [exact Hrun|]. now rewrite <- draw_shift.
Qed.

Lemma read_block_too_long `{Crypto} (m : Machine) (i : Z) :
  i > 2 ^ 31 - 1 ->
  (exists a b, fst (read_block i m) = Throw (StreamTooLongException a b)) /\
  untouched m (snd (read_block i m)).
Proof.
  intros Hi. unfold read_block. mrun.
  rewrite block_number_refused by exact Hi. mrun.
  split; [eauto|]. unfold untouched. cbn. auto.
Qed.

Lemma write_block_too_long `{Crypto} (m : Machine) (fuel : nat) (input : list byte) (i : Z) :
  i > 2 ^ 31 - 1 ->
  (exists a b, fst (write_block fuel i input m) = Throw (StreamTooLongException a b)) /\
  untouched m (snd (write_block fuel i input m)).
Proof.
  intros Hi. unfold write_block. mrun.
  rewrite block_number_refused by exact Hi. mrun.
  split; [eauto|]. unfold untouched. cbn. auto.
Qed.

Ltac erun :=
  unfold warn_if_key_not_random, generate_random, throwInvalidArgumentException, bind;
  cbn [bind ret throw halt get modify negb
       rng_tape rng_pos trace env_logger env_record
       global_logger set_global_logger Env_HasLogger
       WARN_LOG GENERIC_LOG fst snd
       m_block_size m_stream m_iv_size m_check m_buffer m_session_key].

Lemma constructor_arguments_accepted (block_size iv_size : Z) :
  12 <= iv_size <= 32 -> 32 <= block_size ->
  (iv_size <? 12) || (iv_size >? 32) = false /\ (block_size <? 32) = false.
Proof.
  intros Hiv Hbs.
  destruct (Z.ltb_spec iv_size 12), (Z.gtb_spec iv_size 32), (Z.ltb_spec block_size 32);
    cbn; split; reflexivity || lia.
Qed.

Lemma warned_same `{KeyAudit} (key : list byte) (e : Env) :
  rng_tape (warned key e) = rng_tape e /\
  rng_pos (warned key e) = rng_pos e /\
  trace (warned key e) = trace e.
Proof. unfold warned. destruct (key_not_random key); cbn; auto. Qed.

(** Every path of the constructor once its arguments are accepted. *)
Lemma constructor_run `{Crypto} `{KeyAudit} (e : Env) (inner : StreamBase) (master_key : list byte)
    (block_size iv_size : Z) (check : bool) :
  12 <= iv_size <= 32 -> 32 <= block_size ->
  let got := stream_read inner 0 get_header_size in
  let rc := Z.of_nat (List.length got) in
  let e1 := env_record (StreamRead 0 get_header_size got) (warned master_key e) in
  let fresh := map (rng_tape e) (seq (rng_pos e) (Z.to_nat get_header_size)) in
  let object header stream :=
    mkStream block_size stream iv_size check
      (repeat x00 (Z.to_nat (block_size + iv_size + get_mac_size)))
      (ECB_ProcessData master_key header) in
  let keyed header (e' : Env) :=
    warned (ECB_ProcessData master_key header)
      (warned header (env_record (ProcessData header) e')) in
  AESGCMCryptStream_new (Some inner) master_key block_size iv_size check e
  = if rc =? 0
    then (Ok (object fresh (stream_write inner 0 fresh)),
          keyed fresh
            (env_record (StreamWrite 0 fresh)
               (env_record (GenerateRandom fresh)
                  (mkEnv (rng_tape e1) (rng_pos e1 + Z.to_nat get_header_size)%nat
                     (trace e1) (env_logger e1)))))
    else if rc =? get_header_size
    then (Ok (object got inner), keyed got e1)
    else (Throw (InvalidArgumentException "Underlying stream has invalid header size"), e1).
Proof.
  intros Hiv Hbs got rc e1 fresh object keyed.
  destruct (constructor_arguments_accepted block_size iv_size Hiv Hbs) as (E1 & E2).
  unfold AESGCMCryptStream_new. rewrite E1, E2. fold got rc.
  subst e1 fresh object keyed. unfold warned. erun.
  destruct (key_not_random master_key); erun;
    (destruct (rc =? 0); [|destruct (rc =? get_header_size)]); erun;
    repeat match goal with
           | |- context [key_not_random ?k] => destruct (key_not_random k); erun
           end;
    reflexivity.
Qed.

(** The object the constructor returns satisfies [stream_ok] and carries the
    [check] flag it was given. *)
Lemma constructor_establishes_stream_ok `{Crypto} `{KeyAudit} (e : Env)
    (stream : option StreamBase) (master_key : list byte) (block_size iv_size : Z)
    (check : bool) (s : AESGCMCryptStream) :
  0 <= block_size < 2 ^ 32 ->
  fst (AESGCMCryptStream_new stream master_key block_size iv_size check e) = Ok s ->
  stream_ok s /\ m_check s = check.
Proof.
  intros Hty Hs.
  assert (Hargs : 12 <= iv_size <= 32 /\ 32 <= block_size /\ exists inner, stream = Some inner).
  { unfold AESGCMCryptStream_new in Hs.
    destruct (Z.ltb_spec iv_size 12); [discriminate Hs|].
    destruct (Z.gtb_spec iv_size 32); [discriminate Hs|].
    cbn [orb] in Hs.
    destruct stream as [inner|]; [|discriminate Hs].
    destruct (Z.ltb_spec block_size 32); [discriminate Hs|].
    repeat split; try lia. now exists inner. }
  destruct Hargs as (Hiv & Hbs & inner & ->).
  pose proof (constructor_run e inner master_key block_size iv_size check Hiv Hbs) as Hrun.
  cbv zeta in Hrun. rewrite Hrun in Hs.
  destruct (Z.of_nat (List.length (stream_read inner 0 get_header_size)) =? 0);
    [|destruct (Z.of_nat (List.length (stream_read inner 0 get_header_size))
                =? get_header_size); [|discriminate Hs]];
    injection Hs as <-;
    (split; [|reflexivity]);
    unfold stream_ok, get_underlying_block_size, get_block_size, get_iv_size, get_mac_size;
    cbn [m_block_size m_iv_size m_buffer]; rewrite repeat_length; lia.
Qed.

(** * Properties of the callbacks *)

(** Unfolding the monadic glue of the callbacks. *)
Ltac wrun :=
  unfold returned, keep, delegate, locked, OPT_CATCH, OPT_TRACE, invoke, invoke_on, delete_on, leave_on,
    enter, value, warn_if_key_not_random, throwInvalidArgumentException,
    OperationLogger, scoped, try_catch, bind;
  cbn [bind ret throw halt get modify fst snd negb
       opt_fs mount host calls world_logger
       global_logger set_global_logger World_HasLogger
       INFO_LOG TRACE_LOG WARN_LOG ERROR_LOG GENERIC_LOG].

Ltac wrun_in H :=
  unfold returned, keep, delegate, locked, OPT_CATCH, OPT_TRACE, invoke, invoke_on, delete_on, leave_on,
    enter, value, warn_if_key_not_random, throwInvalidArgumentException,
    OperationLogger, scoped, try_catch, bind in H;
  cbn [bind ret throw halt get modify fst snd negb
       opt_fs mount host calls world_logger
       global_logger set_global_logger World_HasLogger
       INFO_LOG TRACE_LOG WARN_LOG ERROR_LOG GENERIC_LOG] in H.

(** A scrutinee that is a call, not a compound computation. *)
Ltac is_leaf x :=
  lazymatch x with
  | context [let '(_, _) := _ in _] => fail
  | context [if _ then _ else _] => fail
  | context [match _ with Ok _ => _ | Throw _ => _ | Halt _ => _ end] => fail
  | context [match _ with Some _ => _ | None => _ end] => fail
  | _ => idtac
  end.

(** One test of the code under analysis in [H]: the outcome of a backend
    call, a condition, an optional value. *)
Ltac step_in H :=
  wrun_in H;
  match type of H with
  | context [let '(_, _) := ?x in _] =>
      is_leaf x; let E := fresh "E" in destruct x as [[?|?|?] ?] eqn:E
  | context [let '(_, _) := ?x in _] => is_var x; destruct x as [? ?]
  | context [if ?c then _ else _] =>
      is_leaf c; let E := fresh "E" in destruct c eqn:E
  | context [match ?o with Some _ => _ | None => _ end] =>
      is_leaf o; let E := fresh "E" in destruct o eqn:E
  end.

Section Prologue.
Context {Host : Type} `{Backend Host} `{KeyAudit}.

Lemma get_local_filesystem_run (w w1 : World Host) (fs : FileSystem) :
  get_local_filesystem w = (Ok fs, w1) ->
  exists pre, calls w1 = calls w ++ pre /\
              (pre = [] \/ pre = [("FileSystem::FileSystem"%string, None, Returned 0)]).
Proof.
  intros Hrun. unfold get_local_filesystem in Hrun.
  repeat step_in Hrun; wrun_in Hrun; try discriminate Hrun;
    injection Hrun as <- <-; cbn [calls].
  all: try (exists []; rewrite app_nil_r; auto; fail).
  all: eexists; split; [reflexivity|right; reflexivity].
Qed.
End Prologue.

(** The prologue of a callback: [get_local_filesystem] returned, raised or
    stopped. *)
Ltac prologue Hrun :=
  wrun_in Hrun;
  match type of Hrun with
  | context [get_local_filesystem ?w0] =>
      let Hg := fresh "Hg" in
      destruct (get_local_filesystem w0) as [[?fs|?e|?s] ?w1] eqn:Hg;
      [ let pre := fresh "pre" in
        let Hpre := fresh "Hpre" in
        let Hcases := fresh "Hcases" in
        destruct (get_local_filesystem_run _ _ _ Hg) as (pre & Hpre & Hcases);
        cbn [calls] in Hpre
      | | ]
  end.

(** The calls made are read off the final state and the tests on them
    evaluated. *)
Ltac conclude :=
  unfold conforms, fails, failure_value, codes_positive;
  cbn [calls];
  repeat match goal with Hpre : calls _ = _ |- _ => rewrite Hpre; clear Hpre end;
  rewrite <- ?app_assoc;
  try exact I;
  eexists; (split; [first [reflexivity | symmetry; apply app_nil_r]|]);
  repeat match goal with
         | Hc : _ = [] \/ _ = [_] |- _ => destruct Hc; subst
         end;
  cbn [app refusal first_failure entry_failure success_value returned_by
       String.eqb Ascii.eqb Bool.eqb andb orb negb fh Z.eqb fst snd same void] in *;
  repeat match goal with
         | E : negb ?a = _ |- context [negb ?a] => rewrite E
         | E : (?a =? ?b) = _ |- context [?a =? ?b] => rewrite E
         | E : (?a <? ?b) = _ |- context [?a <? ?b] => rewrite E
         | E : String.eqb ?a ?b = _ |- context [String.eqb ?a ?b] => rewrite E
         end;
  cbn [app refusal first_failure entry_failure success_value returned_by
       String.eqb Ascii.eqb Bool.eqb andb orb negb fh Z.eqb fst snd same void] in *.

(** The arithmetic left: a negated positive error number is negative. *)
Ltac settle :=
  split; intros Hf; try discriminate Hf; try reflexivity;
  (split; [reflexivity|]); intros Hcodes;
  unfold EFAULT, EINVAL, ENOENT, ENOATTR, EACCES in *; try lia;
  match goal with
  | Hcodes : forall callee on e, In _ _ -> _ |- - exception_code ?e < 0 =>
      assert (0 < exception_code e) by (eapply Hcodes; cbn [In app]; eauto 10); lia
  end.

(** Every path of a callback without a loop. *)
Ltac callback Hrun :=
  repeat first [prologue Hrun | step_in Hrun];
  wrun_in Hrun;
  try match goal with
      | E : false = true |- _ => discriminate E
      | E : true = false |- _ => discriminate E
      end;
  injection Hrun as <- <-; conclude;
  try match goal with
      | E : false = true |- _ => discriminate E
      | E : true = false |- _ => discriminate E
      end;
  try settle.

Section CallbackFacts.
Context {Host : Type} `{Backend Host} `{KeyAudit} {build : Build}.

Lemma simple_callbacks_conform (cb : Callback Host) (w w' : World Host) (r : Result Z) :
  (forall fuel path filler info, cb <> Readdir fuel path filler info) ->
  call cb w = (r, w') -> conforms cb w r w'.
Proof.
  intros Hnot Hrun.
  destruct cb; try (exfalso; eapply Hnot; reflexivity);
    unfold call, statfs, getattr, opendir, releasedir, create, open, release, read, write,
      flush, ftruncate, unlink, mkdir, rmdir, chmod, chown, symlink, link, readlink,
      rename, fsync, truncate, utimens, listxattr, getxattr, setxattr, removexattr in Hrun;
    callback Hrun.
Qed.

(** The loop of [readdir]: it returns zero when every entry went through,
    the negated answer of [filler] when it asked to stop, and an exception
    it lets out was raised by one of its calls, the first that failed. *)
Lemma readdir_loop_conforms (traverser : Z) (filler : string -> fuse_stat -> M Host Z)
    (fuel : nat) (w w' : World Host) (r : Result Z) :
  readdir_loop fuel traverser filler w = (r, w') ->
  exists made,
    calls w' = calls w ++ made /\
    match r with
    | Ok v =>
        match first_failure made with
        | None => v = 0
        | Some code => v = code /\ v < 0
        end
    | Throw e =>
        first_failure made = Some (- exception_code e) /\
        exists callee on, In (callee, on, Raised e) made
    | Halt _ => True
    end.
Proof.
  revert w. induction fuel as [|fuel IH]; intros w Hrun; cbn [readdir_loop] in Hrun.
  - injection Hrun as <- <-. exists []. now rewrite app_nil_r.
  - wrun_in Hrun.
    destruct (Traverser_next traverser (host w)) as [[[[name stbuf]|]|e|why] h] eqn:Enext;
      wrun_in Hrun.
    + destruct (negb _WIN32 && (String.eqb name "." || String.eqb name "..")).
      * destruct (IH _ Hrun) as (made & Hcalls & Hr). cbn [calls] in Hcalls.
        exists (("DirectoryTraverser::next"%string, Some traverser, Returned 1) :: made).
        split; [rewrite Hcalls, <- app_assoc; reflexivity|].
        cbn [first_failure entry_failure String.eqb Ascii.eqb Bool.eqb andb orb].
        destruct r; [exact Hr| |exact I].
        destruct Hr as (Hfirst & callee & on & Hin). split; [exact Hfirst|].
        exists callee, on. now right.
      * wrun_in Hrun.
        destruct (filler name stbuf h) as [[rc|e|why] h'] eqn:Efill; wrun_in Hrun.
        -- destruct (rc =? 0) eqn:Erc; cbn [negb] in Hrun.
           ++ destruct (IH _ Hrun) as (made & Hcalls & Hr). cbn [calls] in Hcalls.
              exists (("DirectoryTraverser::next"%string, Some traverser, Returned 1)
                        :: ("filler"%string, None, Returned (same rc)) :: made).
              split; [rewrite Hcalls, <- !app_assoc; reflexivity|].
              unfold same.
              cbn [first_failure entry_failure String.eqb Ascii.eqb Bool.eqb andb orb].
              rewrite Erc. cbn [negb].
              destruct r; [exact Hr| |exact I].
              destruct Hr as (Hfirst & callee & on & Hin). split; [exact Hfirst|].
              exists callee, on. right. now right.
           ++ injection Hrun as <- <-. cbn [calls].
              exists [("DirectoryTraverser::next"%string, Some traverser, Returned 1);
                      ("filler"%string, None, Returned (same rc))].
              split; [now rewrite <- app_assoc|].
              unfold same.
              cbn [first_failure entry_failure String.eqb Ascii.eqb Bool.eqb andb orb].
              rewrite Erc. cbn [negb].
              apply Z.eqb_neq in Erc. split; [reflexivity|lia].
        -- injection Hrun as <- <-. cbn [calls].
           eexists. split; [rewrite <- app_assoc; reflexivity|].
           cbn [app first_failure entry_failure String.eqb Ascii.eqb Bool.eqb andb orb].
           split; [reflexivity|].
           exists "filler"%string, None. cbn [app In]. auto.
        -- injection Hrun as <- <-. cbn [calls].
           eexists. split; [rewrite <- app_assoc; reflexivity|exact I].
    + injection Hrun as <- <-. cbn [calls].
      eexists. split; [reflexivity|].
      cbn [first_failure entry_failure String.eqb Ascii.eqb Bool.eqb andb orb].
      reflexivity.
    + injection Hrun as <- <-. cbn [calls].
      eexists. split; [reflexivity|].
      cbn [first_failure entry_failure]. split; [reflexivity|].
      exists "DirectoryTraverser::next"%string, (Some traverser). cbn [In]. auto.
    + injection Hrun as <- <-. cbn [calls].
      eexists. split; [reflexivity|exact I].
Qed.

Lemma readdir_conforms (fuel : nat) (path : string)
    (filler : string -> fuse_stat -> M Host Z) (info : fuse_file_info)
    (w w' : World Host) (r : Result Z) :
  call (Readdir fuel path filler info) w = (r, w') ->
  conforms (Readdir fuel path filler info) w r w'.
Proof.
  intros Hrun. unfold call, readdir in Hrun. wrun_in Hrun.
  destruct (fh info =? 0) eqn:Efh; wrun_in Hrun.
  - injection Hrun as <- <-. unfold conforms, fails, failure_value. cbn [calls refusal].
    exists []. split; [now rewrite app_nil_r|]. rewrite Efh.
    unfold EFAULT. split; [discriminate|]. intros _. split; [reflexivity|lia].
  - destruct (Traverser_rewind (fh info) (host w)) as [[[]|e|why] h] eqn:Erew;
      wrun_in Hrun.
    + match type of Hrun with
      | context [readdir_loop fuel ?t ?f ?w0] =>
          destruct (readdir_loop fuel t f w0) as [r0 w0'] eqn:Eloop;
          destruct (readdir_loop_conforms _ _ _ _ _ _ Eloop) as (made & Hcalls & Hr)
      end.
      cbn [calls] in Hcalls.
      destruct r0 as [v|e|why]; wrun_in Hrun; injection Hrun as <- <-;
        unfold conforms, fails, failure_value; cbn [calls refusal]; rewrite ?Efh;
        try exact I.
      * exists (("DirectoryTraverser::rewind"%string, Some (fh info), Returned 0) :: made).
        split; [rewrite Hcalls, <- app_assoc; reflexivity|].
        cbn [first_failure entry_failure String.eqb Ascii.eqb Bool.eqb andb orb
             success_value].
        destruct (first_failure made) as [code|].
        -- destruct Hr as (-> & Hneg). split; [discriminate|]. intros _. split; auto.
        -- split; [intros _; exact Hr | discriminate].
      * exists (("DirectoryTraverser::rewind"%string, Some (fh info), Returned 0) :: made).
        split; [rewrite Hcalls, <- app_assoc; reflexivity|].
        destruct Hr as (Hfirst & callee & on & Hin).
        cbn [first_failure entry_failure String.eqb Ascii.eqb Bool.eqb andb orb
             success_value].
        rewrite Hfirst. split; [discriminate|]. intros _. split; [reflexivity|].
        intros Hcodes.
        assert (0 < exception_code e) by (eapply Hcodes; right; exact Hin). lia.
    + injection Hrun as <- <-. unfold conforms, fails, failure_value.
      cbn [calls refusal]. rewrite Efh.
      eexists. split; [reflexivity|].
      cbn [first_failure entry_failure]. split; [discriminate|]. intros _.
      split; [reflexivity|]. intros Hcodes.
      assert (0 < exception_code e) by (eapply Hcodes; left; reflexivity). lia.
    + injection Hrun as <- <-. exact I.
Qed.
End CallbackFacts.

(** * The claims *)

(** C2: for a block number within the limit and an all-zero plaintext of
    [n] bytes, [write_block] makes exactly one call to the inner stream, a
    write of [n + iv_size + mac_size] zero bytes at
    [header_size + i * underlying_block_size]; nothing is encrypted and the
    generator is not advanced. *)
Theorem write_block_all_zero_is_sparse `{Crypto} (m : Machine) (fuel : nat) (i : Z)
    (input : list byte) :
  stream_ok (self m) ->
  0 <= i <= 2 ^ 31 - 1 ->
  Z.of_nat (List.length input) <= get_block_size (self m) ->
  is_all_zeros input = true ->
  let s := self m in
  let n := Z.of_nat (List.length input) in
  let zeros := repeat x00 (Z.to_nat (n + get_iv_size s + get_mac_size)) in
  let offset := get_header_size + i * get_underlying_block_size s in
  exists m',
    write_block fuel i input m = (Ok tt, m') /\
    trace (env m') = trace (env m) ++ [StreamWrite offset zeros] /\
    m_stream (self m') = stream_write (m_stream s) offset zeros /\
    rng_pos (env m') = rng_pos (env m).
Proof.
  intros Hok Hi Hsize Hz. exact (write_block_zero_run m fuel i input Hok Hi Hsize Hz).
Qed.

(** C3: for a block number within the limit, when the inner read returns
    [r > iv_size + mac_size] bytes that are all zero, [read_block] stores
    [block_size] zero bytes, returns [r - iv_size - mac_size] and its only
    call is the read (no decryption); when [r <= iv_size + mac_size] it
    returns 0. *)
Theorem read_block_sparse_and_past_eof `{Crypto} (m : Machine) (i : Z) :
  stream_ok (self m) ->
  0 <= i <= 2 ^ 31 - 1 ->
  let s := self m in
  let offset := get_header_size + i * get_underlying_block_size s in
  let got := stream_read (m_stream s) offset (get_underlying_block_size s) in
  let r := Z.of_nat (List.length got) in
  (r > get_iv_size s + get_mac_size -> is_all_zeros got = true ->
   fst (read_block i m)
   = Ok (r - get_iv_size s - get_mac_size, repeat x00 (Z.to_nat (get_block_size s))) /\
   trace (env (snd (read_block i m)))
   = trace (env m) ++ [StreamRead offset (get_underlying_block_size s) got]) /\
  (r <= get_iv_size s + get_mac_size -> fst (read_block i m) = Ok (0, [])).
Proof.
  intros Hok Hi s offset got r.
  pose proof (read_block_run m i Hok Hi) as Hrun. cbv zeta in Hrun.
  fold s offset got r in Hrun.
  split.
  - intros Hr Hz. rewrite Hrun.
    destruct (Z.leb_spec r (get_mac_size + get_iv_size s)); [lia|].
    rewrite Hz. split; reflexivity.
  - intros Hr. rewrite Hrun.
    destruct (Z.leb_spec r (get_mac_size + get_iv_size s)); [reflexivity|lia].
Qed.

(** C4: for a plaintext that is not all zero, whenever [write_block]
    returns, the [iv_size] bytes at the block's offset in the underlying
    stream are not all zero; it does return when one of the draws the loop
    may make is not all zero, and the IV laid down is the first such
    draw. *)
Theorem write_block_iv_never_all_zero `{Crypto} (m : Machine) (fuel : nat) (i : Z)
    (input : list byte) :
  stream_ok (self m) ->
  0 <= i <= 2 ^ 31 - 1 ->
  Z.of_nat (List.length input) <= get_block_size (self m) ->
  is_all_zeros input = false ->
  let s := self m in
  let offset := get_header_size + i * get_underlying_block_size s in
  (forall m', write_block fuel i input m = (Ok tt, m') ->
     is_all_zeros (stream_read (m_stream (self m')) offset (get_iv_size s)) = false) /\
  (forall k, (k < fuel)%nat -> is_all_zeros (draw m k) = false ->
     exists m', write_block fuel i input m = (Ok tt, m')) /\
  (forall k, (k < fuel)%nat ->
     (forall j, (j < k)%nat -> is_all_zeros (draw m j) = true) ->
     is_all_zeros (draw m k) = false ->
     exists m', write_block fuel i input m = (Ok tt, m') /\
                stream_read (m_stream (self m')) offset (get_iv_size s) = draw m k).
Proof.
  intros Hok Hi Hsize Hnz s offset.
  pose proof (write_block_nonzero_run m fuel i input Hok Hi Hsize Hnz) as Hrun.
  cbv zeta in Hrun.
  set (m0 := logged "Being ++++++++++++++[AESGCMCryptStream::WriteBlock]++++++++++++" m)
    in *.
  assert (Hok0 : stream_ok (self m0)) by exact Hok.
  assert (Hread : forall m1 m', iv_drawn m0 m1 -> block_written m i input m1 m' ->
            stream_read (m_stream (self m')) offset (get_iv_size s)
            = firstn (Z.to_nat (get_iv_size s)) (m_buffer (self m1))).
  { intros m1 m' (Hok1 & _ & _ & Eiv & _) Hw. unfold block_written in Hw. fold s in Hw.
    destruct (GCM_EncryptAndAuthenticate (m_session_key s)
                (firstn (Z.to_nat (get_iv_size s)) (m_buffer (self m1)))
                (to_little_endian (u32 i)) input) as [ciphertext mac].
    destruct Hw as (Hstream & _). fold offset in Hstream. rewrite Hstream.
    pose proof (ubs_range _ Hok1) as Hubs.
    destruct Hok1 as (_ & Hiv1 & Hbuf1). change (self m0) with s in Eiv.
    unfold get_underlying_block_size, get_block_size, get_iv_size, get_mac_size in *.
    rewrite stream_read_after_write
      by (rewrite length_app, length_firstn; lia).
    apply firstn_exact_app. rewrite length_firstn. lia. }
  split; [|split].
  - intros m' Hw. rewrite Hw in Hrun.
    destruct (draw_iv fuel m0) as [[[] | e | why] m1] eqn:Hdraw; try discriminate Hrun.
    destruct Hrun as (m'' & Hm'' & Hwritten). injection Hm'' as <-.
    pose proof (draw_iv_returns fuel m0 m1 Hok0 Hdraw) as Hdrawn.
    rewrite (Hread m1 m' Hdrawn Hwritten).
    destruct Hdrawn as (_ & _ & _ & _ & _ & _ & Hivnz). exact Hivnz.
  - intros k Hk Hdrawk.
    destruct (draw_iv_terminates fuel k m0 Hok0 Hk Hdrawk) as (m1 & Hdraw).
    rewrite Hdraw in Hrun. destruct Hrun as (m' & Hm' & _).
    now exists m'.
  - intros k Hk Hbefore Hdrawk.
    destruct (draw_iv_first fuel k m0 Hok0 Hk Hbefore Hdrawk) as (m1 & Hdraw & Hiv).
    rewrite Hdraw in Hrun. destruct Hrun as (m' & Hm' & Hwritten).
    exists m'. split; [exact Hm'|].
    rewrite (Hread m1 m' (draw_iv_returns fuel m0 m1 Hok0 Hdraw) Hwritten).
    exact Hiv.
Qed.

(** C5: for a block that is neither past the end nor all zero, [read_block]
    raises [LiteMessageVerificationException] exactly when the tag does not
    verify and [m_check] is set; when the tag does not verify and [m_check]
    is clear it returns the decrypted bytes and [r - iv_size - mac_size]. *)
Theorem read_block_verification_honours_check `{Crypto} (m : Machine) (i : Z)
    (success : bool) (message : list byte) :
  stream_ok (self m) ->
  0 <= i <= 2 ^ 31 - 1 ->
  let s := self m in
  let offset := get_header_size + i * get_underlying_block_size s in
  let got := stream_read (m_stream s) offset (get_underlying_block_size s) in
  let r := Z.of_nat (List.length got) in
  let out_size := r - get_iv_size s - get_mac_size in
  let iv := firstn (Z.to_nat (get_iv_size s)) got in
  let ciphertext := firstn (Z.to_nat out_size) (skipn (Z.to_nat (get_iv_size s)) got) in
  let mac := firstn (Z.to_nat get_mac_size) (skipn (Z.to_nat (r - get_mac_size)) got) in
  r > get_iv_size s + get_mac_size ->
  is_all_zeros got = false ->
  GCM_DecryptAndVerify (m_session_key s) iv (to_little_endian (u32 i)) ciphertext mac
  = (success, message) ->
  (fst (read_block i m) = Throw LiteMessageVerificationException
   <-> success = false /\ m_check s = true) /\
  (success = false -> m_check s = false -> fst (read_block i m) = Ok (out_size, message)).
Proof.
  intros Hok Hi s offset got r out_size iv ciphertext mac Hr Hnz Hdec.
  pose proof (read_block_run m i Hok Hi) as Hrun. cbv zeta in Hrun.
  fold s offset got r out_size iv ciphertext mac in Hrun.
  rewrite Hrun.
  destruct (Z.leb_spec r (get_mac_size + get_iv_size s)); [lia|].
  rewrite Hnz, Hdec.
  destruct (m_check s), success; cbn [andb negb fst]; split;
    try (intros; reflexivity);
    try (split; [intros Hx; discriminate Hx | intros (Hx & Hy); discriminate]);
    try (intros Hx; discriminate Hx);
    try (intros _ Hx; discriminate Hx).
  split; [intros _; split; reflexivity | reflexivity].
Qed.

(** C6: a block number above [2^31 - 1] makes [read_block] and
    [write_block] raise [StreamTooLongException] with the inner stream, the
    buffer and the generator untouched; a block number up to [2^31 - 1]
    never makes them raise it. *)
Theorem block_number_limit `{Crypto} (m : Machine) (fuel : nat) (input : list byte) (i : Z) :
  (i > 2 ^ 31 - 1 ->
   (exists a b, fst (read_block i m) = Throw (StreamTooLongException a b)) /\
   untouched m (snd (read_block i m)) /\
   (exists a b, fst (write_block fuel i input m) = Throw (StreamTooLongException a b)) /\
   untouched m (snd (write_block fuel i input m))) /\
  (i <= 2 ^ 31 - 1 ->
   forall a b,
     fst (read_block i m) <> Throw (StreamTooLongException a b) /\
     fst (write_block fuel i input m) <> Throw (StreamTooLongException a b)).
Proof.
  split.
  - intros Hi.
    destruct (read_block_too_long m i Hi) as (Hr & Hru).
    destruct (write_block_too_long m fuel input i Hi) as (Hw & Hwu).
    auto.
  - intros Hi a b. split.
    + now apply read_block_within_limit.
    + now apply write_block_within_limit.
Qed.

(** C7: once its arguments are accepted, the constructor reads 32 bytes at
    offset 0 of the inner stream.  If none came back it draws a 32-byte
    header from the generator and writes it at offset 0; if some but not 32
    came back it raises [InvalidArgumentException]; in the cases it
    returns, the session key is the header processed by AES-ECB under the
    master key. *)
Theorem constructor_header_rule `{Crypto} `{KeyAudit} (e : Env) (inner : StreamBase)
    (master_key : list byte) (block_size iv_size : Z) (check : bool) :
  12 <= iv_size <= 32 ->
  32 <= block_size ->
  let got := stream_read inner 0 32 in
  let rc := Z.of_nat (List.length got) in
  let fresh := map (rng_tape e) (seq (rng_pos e) 32) in
  let run := AESGCMCryptStream_new (Some inner) master_key block_size iv_size check e in
  (rc = 0 ->
   exists s, fst run = Ok s /\
     List.length fresh = 32%nat /\
     m_stream s = stream_write inner 0 fresh /\
     m_session_key s = ECB_ProcessData master_key fresh /\
     trace (snd run)
     = trace e ++ [StreamRead 0 32 got; GenerateRandom fresh; StreamWrite 0 fresh;
                   ProcessData fresh]) /\
  (rc <> 0 -> rc <> 32 ->
   exists msg, fst run = Throw (InvalidArgumentException msg) /\
     trace (snd run) = trace e ++ [StreamRead 0 32 got]) /\
  (rc = 32 ->
   exists s, fst run = Ok s /\
     m_stream s = inner /\
     m_session_key s = ECB_ProcessData master_key got /\
     trace (snd run) = trace e ++ [StreamRead 0 32 got; ProcessData got]).
Proof.
  intros Hiv Hbs got rc fresh run.
  pose proof (constructor_run e inner master_key block_size iv_size check Hiv Hbs) as Hrun.
  cbv zeta in Hrun. change get_header_size with 32 in Hrun.
  change (Z.to_nat 32) with 32%nat in Hrun.
  fold got rc fresh in Hrun. fold run in Hrun.
  repeat split.
  - intros Hrc. rewrite Hrun, Hrc. cbn [Z.eqb fst snd].
    eexists. split; [reflexivity|]. cbn [m_stream m_session_key].
    split; [unfold fresh; now rewrite length_map, length_seq|].
    repeat split.
    repeat match goal with
           | |- context [trace (warned ?k ?x)] =>
               replace (trace (warned k x)) with (trace x)
                 by (symmetry; apply warned_same)
           | |- context [rng_tape (warned ?k ?x)] =>
               replace (rng_tape (warned k x)) with (rng_tape x)
                 by (symmetry; apply warned_same)
           end.
    cbn [trace env_record]. 
    replace (trace (warned master_key e)) with (trace e) by (symmetry; apply warned_same).
    now rewrite <- !app_assoc.
  - intros Hz H32. rewrite Hrun.
    destruct (Z.eqb_spec rc 0); [contradiction|].
    destruct (Z.eqb_spec rc 32); [contradiction|].
    cbn [fst snd]. eexists. split; [reflexivity|].
    cbn [trace env_record].
    now replace (trace (warned master_key e)) with (trace e) by (symmetry; apply warned_same).
  - intros Hrc. rewrite Hrun, Hrc. cbn [Z.eqb Pos.eqb fst snd].
    eexists. split; [reflexivity|]. cbn [m_stream m_session_key].
    repeat split.
    repeat match goal with
           | |- context [trace (warned ?k ?x)] =>
               replace (trace (warned k x)) with (trace x)
                 by (symmetry; apply warned_same)
           end.
    cbn [trace env_record].
    replace (trace (warned master_key e)) with (trace e) by (symmetry; apply warned_same).
    now rewrite <- !app_assoc.
Qed.

(** C8, amended: a callback of the table that returns to FUSE returns, when
    it succeeds, zero, except [read], which returns the number of bytes
    read, [write], which returns the number of bytes it was given (both
    cast to [int]), and the four xattr callbacks of Apple hosts, which
    return what the function of the file system returned ([listxattr] and
    [getxattr] cast to [int]).  When it fails it returns the negated error
    code of the failure: [EFAULT] for a null handle or buffer, [EINVAL] for a
    negative length or an xattr position other than zero, [ENOATTR] or
    [EACCES] for the attributes that [getxattr] and [setxattr] do not serve,
    [ENOENT] for a path [stat] does not find, the absolute value of what
    [filler] answered when it asked to stop, and the error number of the
    exception that the callback caught ([EPERM] when it has none).  This is
    a negative value whenever the error numbers of the exceptions raised are
    positive. *)
Theorem callbacks_return_convention {Host : Type} `{Backend Host} `{KeyAudit} {build : Build}
    (cb : Callback Host) (w w' : World Host) (v : Z) (made : list Entry) :
  call cb w = (Ok v, w') ->
  calls w' = calls w ++ made ->
  (fails cb made = false -> v = success_value cb made) /\
  (fails cb made = true ->
   v = failure_value cb made /\ (codes_positive made -> v < 0)).
Proof.
  intros Hrun Hcalls.
  assert (Hc : conforms cb w (Ok v) w').
  { destruct cb;
      first [ apply readdir_conforms; exact Hrun
            | apply simple_callbacks_conform; [intros; discriminate | exact Hrun] ]. }
  destruct Hc as (made' & Hcalls' & Hconv).
  rewrite Hcalls in Hcalls'. apply app_inv_head in Hcalls'. subst made'.
  exact Hconv.
Qed.

(** C9, amended: when [statfs] succeeds on a host whose [f_namemax] is at
    least 26 (and whose product by five fits the field), the [f_namemax] it
    reports is the host's times five, divided by eight, minus 16. *)
Theorem statfs_reports_shortened_namemax {Host : Type} `{Backend Host} `{KeyAudit}
    (path : string) (buf : fuse_statvfs) (w w' : World Host) (v : Z)
    (buf' : option fuse_statvfs) (made : list Entry) (host_namemax : Z) :
  statfs path (Some buf) w = (Ok (v, buf'), w') ->
  calls w' = calls w ++ made ->
  In ("FileSystem::statvfs"%string, None, Returned host_namemax) made ->
  26 <= host_namemax ->
  host_namemax * 5 < 2 ^ 64 ->
  v = 0 /\
  exists st, buf' = Some st /\ f_namemax st = host_namemax * 5 / 8 - 16.
Proof.
  intros Hrun Hcalls Hin Hlow Hhigh.
  unfold statfs in Hrun.
  repeat first [prologue Hrun | step_in Hrun]; wrun_in Hrun;
    inversion Hrun; subst; clear Hrun; cbn [calls] in Hcalls;
    rewrite Hpre, <- ?app_assoc in Hcalls; apply app_inv_head in Hcalls; subst made;
    apply in_app_or in Hin;
    (destruct Hin as [Hin | [Hin | []]];
     [destruct Hcases; subst pre; cbn [In] in Hin;
      repeat match goal with Hx : _ \/ _ |- _ => destruct Hx end;
      try contradiction; discriminate
     | try discriminate Hin]).
  injection Hin as Hn.
  split; [reflexivity|]. eexists. split; [reflexivity|].
  cbn [f_namemax set_f_namemax]. rewrite Hn.
  rewrite (u64_small (host_namemax * 5)) by lia.
  assert (16 <= host_namemax * 5 / 8) by (apply Z.div_le_lower_bound; lia).
  assert (host_namemax * 5 / 8 <= host_namemax * 5)
    by (apply Z.div_le_upper_bound; lia).
  apply u64_small. lia.
Qed.

(** C10: with a negative length, [truncate] returns [-EINVAL]; the
    thread-local file system, the host and the list of backend calls are as
    they were: only the two lines of its [OperationLogger] are added to the
    log. *)
Theorem truncate_negative_length {Host : Type} `{Backend Host} `{KeyAudit}
    (path : string) (len : Z) (w : World Host) :
  len < 0 ->
  truncate path len w
  = (Ok (- EINVAL),
     mkWorld (opt_fs w) (mount w) (host w) (calls w)
       (logger_log kLogInfo "End   --------------[operations-truncate]------------"
          (logger_log kLogInfo "Being ++++++++++++++[operations-truncate]++++++++++++"
             (world_logger w)))).
Proof.
  intros Hlen. unfold truncate. wrun.
  destruct (Z.ltb_spec len 0) as [_ | Hge]; [reflexivity | lia].
Qed.

(** * The claims on the worked instances *)

Ltac by_computation :=
  vm_compute; first [reflexivity | discriminate | intros Hx; discriminate Hx].

Ltac check_stream_ok :=
  unfold stream_ok, get_underlying_block_size, get_block_size, get_iv_size, get_mac_size;
  cbn [self m_block_size m_iv_size m_buffer example_machine example_stream];
  rewrite ?repeat_length; lia.

(** An underlying file of 100 bytes with 32-byte blocks and 12-byte IVs
    holds one whole block and a residue too short to carry data. *)
Lemma size_matches_spec_formula_witness :
  stream_ok (example_stream (repeat x00 100)) /\
  size (example_stream (repeat x00 100)) = 32 /\
  spec_logical_size 100 32 12 = 32.
Proof.
  split; [check_stream_ok|].
  split; [|reflexivity].
  rewrite (size_matches_spec_formula (example_stream (repeat x00 100)));
    [reflexivity | check_stream_ok | reflexivity].
Defined.

(** Writing 32 zero bytes as block 5 of an empty stream. *)
Lemma write_block_all_zero_is_sparse_witness :
  exists m',
    write_block (H := example_crypto) 0 5 (repeat x00 32) (example_machine [])
    = (Ok tt, m') /\
    trace (env m') = [StreamWrite 332 (repeat x00 60)] /\
    m_stream (self m') = repeat x00 392 /\
    rng_pos (env m') = 0%nat.
Proof.
  apply (write_block_all_zero_is_sparse (H := example_crypto)
           (example_machine []) 0 5 (repeat x00 32)).
  - check_stream_ok.
  - lia.
  - by_computation.
  - reflexivity.
Defined.

(** Reading block 0 of a stream made of a header and 60 zero bytes, and
    block 1, which is past the end. *)
Lemma read_block_sparse_and_past_eof_witness :
  fst (read_block (H := example_crypto) 0 (example_machine (repeat x00 92)))
  = Ok (32, repeat x00 32) /\
  fst (read_block (H := example_crypto) 1 (example_machine (repeat x00 92)))
  = Ok (0, []).
Proof.
  split.
  - apply (read_block_sparse_and_past_eof (H := example_crypto)
             (example_machine (repeat x00 92)) 0); [check_stream_ok | lia | | ].
    + by_computation.
    + reflexivity.
  - apply (read_block_sparse_and_past_eof (H := example_crypto)
             (example_machine (repeat x00 92)) 1); [check_stream_ok | lia | ].
    by_computation.
Defined.

(** The generator hands out twelve zero bytes and then ones: the first draw
    is turned down and the second is the IV. *)
Lemma write_block_iv_never_all_zero_witness :
  exists m',
    write_block (H := example_crypto) 2 0 [x01] (example_machine []) = (Ok tt, m') /\
    stream_read (m_stream (self m')) 32 12 = repeat x01 12.
Proof.
  apply (fun Hok Hi Hsize Hnz =>
           proj2 (proj2 (write_block_iv_never_all_zero (H := example_crypto)
                           (example_machine []) 2 0 [x01] Hok Hi Hsize Hnz)))
    with (k := 1%nat).
  - check_stream_ok.
  - lia.
  - by_computation.
  - reflexivity.
  - lia.
  - intros j Hj. assert (j = 0%nat) as -> by lia. reflexivity.
  - reflexivity.
Defined.

(** A block of ones does not verify under the example cipher; the stream is
    built with [check = false] and hands the bytes back. *)
Lemma read_block_verification_honours_check_witness :
  fst (read_block (H := example_crypto) 0
         (example_machine (repeat x00 32 ++ repeat x01 60)))
  = Ok (32, repeat x01 32).
Proof.
  apply (read_block_verification_honours_check (H := example_crypto)
           (example_machine (repeat x00 32 ++ repeat x01 60)) 0 false (repeat x01 32)).
  - check_stream_ok.
  - lia.
  - by_computation.
  - reflexivity.
  - reflexivity.
  - reflexivity.
  - reflexivity.
Defined.

(** Block number [2^31] is refused. *)
Lemma block_number_limit_witness :
  (exists a b, fst (read_block (H := example_crypto) (2 ^ 31) (example_machine []))
               = Throw (StreamTooLongException a b)) /\
  untouched (example_machine [])
    (snd (read_block (H := example_crypto) (2 ^ 31) (example_machine []))).
Proof.
  destruct (block_number_limit (H := example_crypto) (example_machine []) 0 [] (2 ^ 31))
    as (Hover & _).
  destruct Hover as (Hr & Hu & _); [lia|].
  split; [exact Hr | exact Hu].
Defined.

(** Building a stream over an empty file. *)
Lemma constructor_header_rule_witness :
  exists s,
    fst (AESGCMCryptStream_new (H := example_crypto) (H0 := example_audit)
           (Some []) (repeat x07 32) 4096 12 true example_env) = Ok s /\
    m_stream s = repeat x00 12 ++ repeat x01 20.
Proof.
  destruct (constructor_header_rule (H := example_crypto) (H0 := example_audit)
              example_env [] (repeat x07 32) 4096 12 true) as (Hfresh & _); [lia | lia |].
  destruct Hfresh as (s & Hs & _ & Hstream & _); [reflexivity|].
  exists s. split; [exact Hs|]. rewrite Hstream. reflexivity.
Defined.

(** [unlink] on a host where every call succeeds returns zero. *)
Lemma callbacks_return_convention_witness :
  exists w' made,
    call (H := example_backend) (H0 := example_audit) (build := example_build)
      unlink_f (example_world 255)
    = (Ok 0, w') /\
    calls w' = calls (example_world 255) ++ made /\
    fails unlink_f made = false /\
    0 = success_value unlink_f made.
Proof.
  eexists. eexists.
  assert (Hrun : call (H := example_backend) (H0 := example_audit) (build := example_build)
                   unlink_f (example_world 255)
                 = (Ok 0, snd (call (H := example_backend) (H0 := example_audit)
                                 (build := example_build) unlink_f (example_world 255))))
    by (vm_compute; reflexivity).
  assert (Hcalls : calls (snd (call (H := example_backend) (H0 := example_audit)
                                 (build := example_build) unlink_f (example_world 255)))
                   = calls (example_world 255)
                       ++ [("FileSystem::FileSystem"%string, None, Returned 0);
                           ("FileSystem::unlink"%string, None, Returned 0)])
    by (vm_compute; reflexivity).
  split; [exact Hrun|]. split; [exact Hcalls|].
  split; [reflexivity|].
  apply (proj1 (callbacks_return_convention (H := example_backend) (H0 := example_audit)
                  (build := example_build) unlink_f (example_world 255) _ 0 _ Hrun Hcalls)).
  reflexivity.
Defined.

(** C8 as stated fails: a [write] of five bytes that succeeds returns 5. *)
Lemma successful_write_returns_its_size :
  exists w' made,
    call (H := example_backend) (H0 := example_audit) (build := example_build)
      write_five (example_world 255) = (Ok 5, w') /\
    calls w' = calls (example_world 255) ++ made /\
    fails write_five made = false /\
    5 <> 0.
Proof.
  eexists. exists [("File::lock"%string, Some 1, Returned 0);
                   ("File::write"%string, Some 1, Returned 0);
                   ("File::unlock"%string, Some 1, Returned 0)].
  split; [vm_compute; reflexivity|].
  split; [reflexivity|]. split; [reflexivity|]. discriminate.
Qed.

(** [statfs] on a host whose names may be 255 bytes long reports 143. *)
Lemma statfs_reports_shortened_namemax_witness :
  exists w' st,
    statfs (H := example_backend) (H0 := example_audit) "/" (Some empty_statvfs)
      (example_world 255) = (Ok (0, Some st), w') /\
    f_namemax st = 143.
Proof.
  eexists. eexists.
  assert (Hrun : statfs (H := example_backend) (H0 := example_audit) "/"
                   (Some empty_statvfs) (example_world 255)
                 = (Ok (0, Some (mk_statvfs 4096 4096 0 0 0 0 0 0 0 0 143)),
                    snd (statfs (H := example_backend) (H0 := example_audit) "/"
                           (Some empty_statvfs) (example_world 255))))
    by (vm_compute; reflexivity).
  split; [exact Hrun|].
  destruct (statfs_reports_shortened_namemax (H := example_backend) (H0 := example_audit)
              "/" empty_statvfs (example_world 255) _ 0 _
              [("FileSystem::FileSystem"%string, None, Returned 0);
               ("FileSystem::statvfs"%string, None, Returned 255)] 255 Hrun)
    as (_ & st & Hst & Hmax).
  - vm_compute. reflexivity.
  - right. left. reflexivity.
  - lia.
  - lia.
  - injection Hst as <-. exact Hmax.
Defined.

(** C9 as stated fails: on a host whose names may be 20 bytes long the
    unsigned subtraction wraps, and the value reported is not
    [20 * 5 / 8 - 16]. *)
Lemma statfs_wraps_for_short_names :
  exists w' st,
    statfs (H := example_backend) (H0 := example_audit) "/" (Some empty_statvfs)
      (example_world 20) = (Ok (0, Some st), w') /\
    f_namemax st = 2 ^ 64 - 4 /\
    f_namemax st <> 20 * 5 / 8 - 16.
Proof.
  eexists. eexists. split; [vm_compute; reflexivity|].
  split; [reflexivity|]. vm_compute. discriminate.
Qed.

(** [truncate] to length -1 touches nothing but the log. *)
Lemma truncate_negative_length_witness :
  fst (truncate (H := example_backend) (H0 := example_audit) "/f" (-1) (example_world 255))
  = Ok (-22) /\
  calls (snd (truncate (H := example_backend) (H0 := example_audit) "/f" (-1)
                (example_world 255))) = [] /\
  opt_fs (snd (truncate (H := example_backend) (H0 := example_audit) "/f" (-1)
                 (example_world 255))) = None.
Proof.
  rewrite (truncate_negative_length (H := example_backend) (H0 := example_audit)
             "/f" (-1) (example_world 255)) by lia.
  repeat split.
Defined.

(** * Further properties of the crypt stream *)

(** ** What every path of a computation keeps *)

Section Preservation.
Context {S : Type} (R : S -> S -> Prop).
Hypothesis R_refl : forall s, R s s.
Hypothesis R_trans : forall s1 s2 s3, R s1 s2 -> R s2 s3 -> R s1 s3.

Lemma preserves_ret {A} (a : A) : preserves R (ret a).
Proof. intros s r s' [= _ <-]. apply R_refl. Qed.

Lemma preserves_throw {A} (e : Exception) : preserves R (throw (A := A) e).
Proof. intros s r s' [= _ <-]. apply R_refl. Qed.

Lemma preserves_halt {A} (w : Stop) : preserves R (halt (A := A) w).
Proof. intros s r s' [= _ <-]. apply R_refl. Qed.

Lemma preserves_modify (f : S -> S) : (forall s, R s (f s)) -> preserves R (modify f).
Proof. intros Hf s r s' [= _ <-]. apply Hf. Qed.

Lemma preserves_bind {A B} (c : M S A) (k : A -> M S B) :
  preserves R c -> (forall a, preserves R (k a)) -> preserves R (bind c k).
Proof.
  intros Hc Hk s r s' Hrun. unfold bind in Hrun.
  destruct (c s) as [[a | e | w] s1] eqn:Ec.
  - apply (R_trans _ s1); [exact (Hc _ _ _ Ec) | exact (Hk a _ _ _ Hrun)].
  - injection Hrun as _ <-. exact (Hc _ _ _ Ec).
  - injection Hrun as _ <-. exact (Hc _ _ _ Ec).
Qed.

Lemma preserves_scoped {A} (body : M S A) (cleanup : S -> S) :
  preserves R body -> (forall s, R s (cleanup s)) -> preserves R (scoped body cleanup).
Proof.
  intros Hb Hc s r s' Hrun. unfold scoped in Hrun.
  destruct (body s) as [r1 s1] eqn:Eb. injection Hrun as _ <-.
  apply (R_trans _ s1); [exact (Hb _ _ _ Eb) | apply Hc].
Qed.

Lemma preserves_try_catch {A} (body : M S A) (handler : Exception -> M S A) :
  preserves R body -> (forall e, preserves R (handler e)) ->
  preserves R (try_catch body handler).
Proof.
  intros Hb Hh s r s' Hrun. unfold try_catch in Hrun.
  destruct (body s) as [[a | e | w] s1] eqn:Eb.
  - injection Hrun as _ <-. exact (Hb _ _ _ Eb).
  - apply (R_trans _ s1); [exact (Hb _ _ _ Eb) | exact (Hh e _ _ _ Hrun)].
  - injection Hrun as _ <-. exact (Hb _ _ _ Eb).
Qed.

Lemma preserves_OperationLogger {A} `{HasLogger S} (text : string) (body : M S A) :
  (forall g s, R s (set_global_logger g s)) ->
  preserves R body -> preserves R (OperationLogger text body).
Proof.
  intros Hlog Hb. unfold OperationLogger.
  apply preserves_bind; [apply preserves_modify; intros s; apply Hlog|].
  intros _. apply preserves_scoped; [exact Hb | intros s; apply Hlog].
Qed.
End Preservation.

(** ** What the operations of the stream keep *)

Ltac mrun_in H :=
  unfold OperationLogger, scoped, try_catch, bind in H;
  cbn [bind ret throw halt get modify scoped try_catch this record lift_env
       set_buffer set_stream OperationLogger throwInvalidArgumentException
       self env m_block_size m_stream m_iv_size m_check m_buffer m_session_key
       rng_tape rng_pos trace env_logger env_record
       global_logger set_global_logger Env_HasLogger Machine_HasLogger
       INFO_LOG WARN_LOG GENERIC_LOG fst snd] in H.

Section ReadPreservation.
Context `{Crypto}.
Variable R : Machine -> Machine -> Prop.
Hypothesis R_refl : forall m, R m m.
Hypothesis R_trans : forall m1 m2 m3, R m1 m2 -> R m2 m3 -> R m1 m3.
Hypothesis R_env : forall m e, rng_pos e = rng_pos (env m) -> R m (mkMachine (self m) e).
Hypothesis R_buffer : forall m b,
  List.length b = List.length (m_buffer (self m)) -> R m (with_buffer b m).

Lemma R_logger (g : Logger) (m : Machine) : R m (set_global_logger g m).
Proof. apply R_env. reflexivity. Qed.

Lemma preserves_this : preserves R this.
Proof. intros m r m' [= _ <-]. apply R_refl. Qed.

Lemma preserves_record (ev : Event) : preserves R (record ev).
Proof. apply preserves_modify. intros m. apply R_env. reflexivity. Qed.

Lemma preserves_buffer_store (offset : Z) (src : list byte) :
  preserves R (buffer_store offset src).
Proof.
  intros m r m' Hrun. unfold buffer_store in Hrun. mrun_in Hrun.
  destruct (Z.to_nat offset + List.length src <=? List.length (m_buffer (self m)))%nat
    eqn:Hfit; mrun_in Hrun; injection Hrun as _ <-; [|apply R_refl].
  apply (R_buffer m). apply splice_length. now apply Nat.leb_le.
Qed.

Lemma preserves_buffer_load (offset length : Z) : preserves R (buffer_load offset length).
Proof.
  intros m r m' Hrun. unfold buffer_load in Hrun. mrun_in Hrun.
  destruct (Z.to_nat offset + Z.to_nat length <=? List.length (m_buffer (self m)))%nat;
    mrun_in Hrun; injection Hrun as _ <-; apply R_refl.
Qed.

Lemma preserves_m_stream_read (offset length : Z) :
  preserves R (m_stream_read offset length).
Proof.
  unfold m_stream_read.
  apply preserves_bind; auto using preserves_this. intros s.
  apply preserves_bind; auto using preserves_record. intros _.
  apply preserves_bind; auto using preserves_buffer_store. intros _.
  now apply preserves_ret.
Qed.

(** Structural steps of a preservation proof. *)
Ltac keep_step :=
  first
    [ apply preserves_this
    | apply preserves_record
    | apply preserves_buffer_store
    | apply preserves_buffer_load
    | apply preserves_m_stream_read
    | apply preserves_ret; assumption
    | apply preserves_throw; assumption
    | apply preserves_halt; assumption
    | apply preserves_OperationLogger; [assumption | apply R_logger | ]
    | apply preserves_bind; [assumption | | intros ? ]
    | match goal with
      | |- preserves _ (if ?c then _ else _) => destruct c
      | |- preserves _ (let '(_, _) := ?x in _) => destruct x
      end ].

Lemma preserves_read_block (i : Z) : preserves R (read_block i).
Proof.
  unfold read_block, throwInvalidArgumentException. repeat keep_step.
Qed.

(** The operations that write need more of [R]: it must allow any change
    of the environment and of the inner stream. *)
Hypothesis R_any_env : forall m e, R m (mkMachine (self m) e).
Hypothesis R_stream : forall m d, R m (with_stream d m).

Lemma preserves_set_stream (d : StreamBase) : preserves R (set_stream d).
Proof. apply preserves_modify. intros m. apply R_stream. Qed.

Lemma preserves_lift_env {A} (c : M Env A) : preserves R (lift_env c).
Proof.
  intros m r m' Hrun. unfold lift_env in Hrun.
  destruct (c (env m)) as [r1 e1]. injection Hrun as _ <-. apply R_any_env.
Qed.

Lemma preserves_m_stream_write (offset length : Z) :
  preserves R (m_stream_write offset length).
Proof.
  unfold m_stream_write.
  apply preserves_bind; auto using preserves_buffer_load. intros src.
  apply preserves_bind; auto using preserves_this. intros s.
  apply preserves_bind; auto using preserves_record. intros _.
  apply preserves_set_stream.
Qed.

Lemma preserves_draw_iv (fuel : nat) : preserves R (draw_iv fuel).
Proof.
  induction fuel as [|fuel IH]; cbn [draw_iv].
  - now apply preserves_halt.
  - apply preserves_bind; auto using preserves_this. intros s.
    apply preserves_bind; auto using preserves_lift_env. intros got.
    apply preserves_bind; auto using preserves_buffer_store. intros _.
    apply preserves_bind; auto using preserves_buffer_load. intros iv.
    destruct (is_all_zeros iv); [exact IH | now apply preserves_ret].
Qed.

Ltac keep_write_step :=
  first
    [ apply preserves_m_stream_write
    | apply preserves_draw_iv
    | apply preserves_set_stream
    | keep_step ].

Lemma preserves_write_block (fuel : nat) (i : Z) (input : list byte) :
  preserves R (write_block fuel i input).
Proof.
  unfold write_block. cbv zeta. repeat keep_write_step.
Qed.

Lemma preserves_adjust_logical_size (length : Z) :
  preserves R (adjust_logical_size length).
Proof.
  unfold adjust_logical_size. cbv zeta. repeat keep_write_step.
Qed.
End ReadPreservation.

(** *** The two relations kept *)

Lemma same_shape_refl (m : Machine) : same_shape m m.
Proof. unfold same_shape. auto. Qed.

Lemma same_shape_trans (m1 m2 m3 : Machine) :
  same_shape m1 m2 -> same_shape m2 m3 -> same_shape m1 m3.
Proof. unfold same_shape. intuition congruence. Qed.

Lemma same_stream_refl (m : Machine) : same_stream m m.
Proof. unfold same_stream. auto. Qed.

Lemma same_stream_trans (m1 m2 m3 : Machine) :
  same_stream m1 m2 -> same_stream m2 m3 -> same_stream m1 m3.
Proof. unfold same_stream. intuition congruence. Qed.

Lemma same_shape_stream_ok (m m' : Machine) :
  same_shape m m' -> stream_ok (self m) -> stream_ok (self m').
Proof.
  unfold same_shape, stream_ok, get_underlying_block_size, get_block_size, get_iv_size.
  intros (-> & -> & _ & _ & ->) Hok. exact Hok.
Qed.

(** ** Invariants of the stream operations *)

(** X1: [read_block], [write_block] and [adjust_logical_size] keep the
    parameters of the object (block size, IV size, [m_check], session key)
    and the capacity of its buffer on every path, so an object that
    satisfies the constructor's invariant satisfies it afterwards. *)
Theorem operations_keep_object_invariant `{Crypto} (m : Machine) (fuel : nat) (i new_length : Z)
    (input : list byte) :
  stream_ok (self m) ->
  (same_shape m (snd (read_block i m)) /\ stream_ok (self (snd (read_block i m)))) /\
  (same_shape m (snd (write_block fuel i input m)) /\
   stream_ok (self (snd (write_block fuel i input m)))) /\
  (same_shape m (snd (adjust_logical_size new_length m)) /\
   stream_ok (self (snd (adjust_logical_size new_length m)))).
Proof.
  intros Hok.
  assert (Hshape : forall A (c : M Machine A), preserves same_shape c ->
            same_shape m (snd (c m)) /\ stream_ok (self (snd (c m)))).
  { intros A c Hc. assert (Hs : same_shape m (snd (c m))).
    { apply (Hc m (fst (c m))). now destruct (c m). }
    split; [exact Hs | exact (same_shape_stream_ok _ _ Hs Hok)]. }
  assert (Henv : forall m0 e, same_shape m0 (mkMachine (self m0) e))
    by (intros; unfold same_shape; cbn; auto).
  assert (Hbuf : forall m0 b, List.length b = List.length (m_buffer (self m0)) ->
            same_shape m0 (with_buffer b m0))
    by (intros m0 b Hb; unfold same_shape, with_buffer; cbn; auto).
  assert (Hstr : forall m0 d, same_shape m0 (with_stream d m0))
    by (intros; unfold same_shape, with_stream; cbn; auto).
  split; [|split]; apply Hshape;
    [ apply preserves_read_block
    | apply preserves_write_block
    | apply preserves_adjust_logical_size ];
    first [ exact same_shape_refl | exact same_shape_trans | exact Hbuf | exact Hstr
          | exact Henv | intros m0 e _; apply Henv ].
Qed.

(** X2: [read_block] never writes to the inner stream and never draws from
    the generator, whatever the block number and however it ends. *)
Theorem read_block_is_read_only `{Crypto} (m : Machine) (i : Z) :
  m_stream (self (snd (read_block i m))) = m_stream (self m) /\
  rng_pos (env (snd (read_block i m))) = rng_pos (env m).
Proof.
  assert (Hp : preserves same_stream (read_block i)).
  { apply preserves_read_block.
    - apply same_stream_refl.
    - apply same_stream_trans.
    - intros m0 e He. unfold same_stream. cbn. auto.
    - intros m0 b _. unfold same_stream, with_buffer. cbn. auto. }
  apply (Hp m (fst (read_block i m))). now destruct (read_block i m).
Qed.

(** ** Sizes *)

(** [calculate_real_size] on arguments in the ranges the constructor allows
    is the formula over the integers. *)
Lemma calculate_real_size_exact (underlying bs iv : Z) :
  32 <= bs < 2 ^ 32 -> 12 <= iv <= 32 -> 0 <= underlying < 2 ^ 64 ->
  calculate_real_size underlying bs iv
  = if underlying <=? 32 then 0
    else (underlying - 32) / (bs + iv + 16) * bs
         + Z.max 0 ((underlying - 32) mod (bs + iv + 16) - iv - 16).
Proof.
  intros Hb Hi HT.
  unfold calculate_real_size, get_header_size, get_mac_size.
  destruct (Z.leb_spec underlying 32) as [Hle | Hgt]; [reflexivity|].
  rewrite (u64_small (bs + iv)) by lia.
  rewrite (u64_small (bs + iv + 16)) by lia.
  rewrite (u64_small (underlying - 32)) by lia.
  rewrite (u64_small (iv + 16)) by lia.
  set (U := underlying - 32) in *. set (ubs := bs + iv + 16) in *.
  assert (Hubs : 0 < ubs) by (unfold ubs; lia).
  pose proof (Z.div_mod U ubs ltac:(lia)) as Hdm.
  pose proof (Z.mod_pos_bound U ubs Hubs) as Hr.
  assert (Hn : 0 <= U / ubs) by (apply Z.div_pos; unfold U; lia).
  set (n := U / ubs) in *. set (r := U mod ubs) in *.
  assert (Hnb : 0 <= n * bs <= ubs * n) by (unfold ubs; nia).
  rewrite (u64_small (n * bs)) by (unfold U in *; lia).
  destruct (Z.gtb_spec r (iv + 16)) as [Hbig | Hsmall].
  - rewrite (u64_small (r - iv)) by lia.
    rewrite (u64_small (r - iv - 16)) by lia.
    rewrite Z.max_r by lia.
    apply u64_small. unfold U in *. lia.
  - rewrite Z.max_l by lia.
    apply u64_small. unfold U in *. lia.
Qed.

(** X3: the logical size is never negative and never more than what the
    underlying stream holds after its header. *)
Theorem size_within_underlying (s : AESGCMCryptStream) :
  stream_ok s ->
  stream_size (m_stream s) < 2 ^ 64 ->
  0 <= size s <= Z.max 0 (stream_size (m_stream s) - get_header_size).
Proof.
  intros (Hb & Hi & _) Hsz. unfold size, get_block_size, get_iv_size, get_header_size.
  assert (HT : 0 <= stream_size (m_stream s)) by (unfold stream_size; lia).
  rewrite calculate_real_size_exact by lia.
  set (T := stream_size (m_stream s)) in *.
  set (bs := m_block_size s) in *. set (iv := m_iv_size s) in *.
  destruct (Z.leb_spec T 32) as [Hle | Hgt]; [lia|].
  set (U := T - 32) in *. set (ubs := bs + iv + 16) in *.
  assert (Hubs : 0 < ubs) by (unfold ubs; lia).
  pose proof (Z.div_mod U ubs ltac:(lia)) as Hdm.
  pose proof (Z.mod_pos_bound U ubs Hubs) as Hr.
  assert (Hn : 0 <= U / ubs) by (apply Z.div_pos; unfold U; lia).
  set (n := U / ubs) in *. set (r := U mod ubs) in *.
  assert (Hnb : 0 <= n * bs <= ubs * n) by (unfold ubs; nia).
  lia.
Qed.

(** X4: a longer underlying stream never has a smaller logical size. *)
Theorem calculate_real_size_monotone (u1 u2 bs iv : Z) :
  32 <= bs < 2 ^ 32 -> 12 <= iv <= 32 ->
  0 <= u1 -> u1 <= u2 -> u2 < 2 ^ 64 ->
  calculate_real_size u1 bs iv <= calculate_real_size u2 bs iv.
Proof.
  intros Hb Hi H1 H12 H2.
  rewrite !calculate_real_size_exact by lia.
  set (ubs := bs + iv + 16) in *.
  assert (Hubs : 0 < ubs) by (unfold ubs; lia).
  destruct (Z.leb_spec u2 32) as [Hle2 | Hgt2].
  - destruct (Z.leb_spec u1 32); lia.
  - pose proof (Z.div_mod (u2 - 32) ubs ltac:(lia)) as Hdm2.
    pose proof (Z.mod_pos_bound (u2 - 32) ubs Hubs) as Hr2.
    assert (Hn2 : 0 <= (u2 - 32) / ubs) by (apply Z.div_pos; lia).
    set (n2 := (u2 - 32) / ubs) in *. set (r2 := (u2 - 32) mod ubs) in *.
    assert (0 <= n2 * bs) by nia.
    destruct (Z.leb_spec u1 32) as [Hle1 | Hgt1]; [lia|].
    pose proof (Z.div_mod (u1 - 32) ubs ltac:(lia)) as Hdm1.
    pose proof (Z.mod_pos_bound (u1 - 32) ubs Hubs) as Hr1.
    assert (Hn1 : 0 <= (u1 - 32) / ubs) by (apply Z.div_pos; lia).
    assert (Hn12 : (u1 - 32) / ubs <= n2) by (apply Z.div_le_mono; lia).
    set (n1 := (u1 - 32) / ubs) in *. set (r1 := (u1 - 32) mod ubs) in *.
    destruct (Z.eq_dec n1 n2) as [-> | Hne].
    + assert (r1 <= r2) by lia. lia.
    + assert (n1 + 1 <= n2) by lia.
      assert ((n1 + 1) * bs <= n2 * bs) by nia.
      unfold ubs in *. lia.
Qed.

Lemma stream_resize_size (data : StreamBase) (n : Z) :
  0 <= n -> stream_size (stream_resize data n) = n.
Proof.
  intros Hn. unfold stream_size, stream_resize.
  rewrite length_app, length_firstn, repeat_length. lia.
Qed.

(** X5: after [adjust_logical_size L], for [L] up to the largest logical
    size, [size()] is [L]. *)
Theorem adjust_logical_size_then_size (m : Machine) (L : Z) :
  stream_ok (self m) ->
  0 <= L <= (2 ^ 31 - 1) * get_block_size (self m) ->
  fst (adjust_logical_size L m) = Ok tt /\
  size (self (snd (adjust_logical_size L m))) = L.
Proof.
  intros Hok HL. pose proof (ubs_range _ Hok) as Hubs.
  destruct Hok as (Hb & Hi & Hbuf).
  unfold adjust_logical_size. mrun. split; [reflexivity|].
  unfold size, get_underlying_block_size, get_block_size, get_iv_size, get_header_size,
    get_mac_size in *.
  cbn [m_stream m_block_size m_iv_size].
  set (bs := m_block_size (self m)) in *. set (iv := m_iv_size (self m)) in *.
  set (ubs := bs + iv + 16) in *.
  assert (Hbs : 0 < bs) by lia.
  pose proof (Z.div_mod L bs ltac:(lia)) as Hdm.
  pose proof (Z.mod_pos_bound L bs Hbs) as Hr.
  assert (Hq : 0 <= L / bs) by (apply Z.div_pos; lia).
  assert (Hq2 : L / bs <= 2 ^ 31 - 1) by (apply Z.div_le_upper_bound; lia).
  set (q := L / bs) in *. set (r := L mod bs) in *.
  assert (Hqu : 0 <= q * ubs <= (2 ^ 31 - 1) * (2 ^ 32 + 48)) by nia.
  rewrite (u64_small (q * ubs)) by lia.
  rewrite (u64_small (32 + q * ubs)) by lia.
  set (x := if r >? 0 then u64 (u64 (r + iv) + 16) else 0).
  assert (Hx : x = if r >? 0 then r + iv + 16 else 0).
  { unfold x. destruct (r >? 0); [|reflexivity].
    rewrite (u64_small (r + iv)) by lia. apply u64_small. lia. }
  assert (Hx2 : 0 <= x < ubs).
  { rewrite Hx. destruct (Z.gtb_spec r 0); unfold ubs; lia. }
  rewrite (u64_small (32 + q * ubs + x)) by lia.
  rewrite stream_resize_size by lia.
  rewrite calculate_real_size_exact by lia.
  fold ubs.
  destruct (Z.leb_spec (32 + q * ubs + x) 32) as [Hle | Hgt].
  - assert (q * ubs = 0 /\ x = 0) as (Hq0 & Hx0) by lia.
    assert (q = 0) by nia.
    rewrite Hx in Hx0. destruct (Z.gtb_spec r 0); lia.
  - replace (32 + q * ubs + x - 32) with (x + q * ubs) by lia.
    rewrite Z.div_add by lia. rewrite Z.mod_add by lia.
    rewrite Z.div_small, Z.mod_small by lia.
    rewrite Hx. destruct (Z.gtb_spec r 0); lia.
Qed.

(** ** Blocks written and read back *)

Lemma read_block_result `{Crypto} (m : Machine) (i : Z) :
  stream_ok (self m) -> 0 <= i <= 2 ^ 31 - 1 ->
  fst (read_block i m)
  = block_result (self m) i
      (stream_read (m_stream (self m))
         (get_header_size + i * get_underlying_block_size (self m))
         (get_underlying_block_size (self m))).
Proof.
  intros Hok Hi. rewrite (read_block_run m i Hok Hi). cbv zeta. unfold block_result.
  destruct (_ <=? _); [reflexivity|].
  destruct (is_all_zeros _); [reflexivity|].
  destruct (GCM_DecryptAndVerify _ _ _ _ _) as [success message].
  destruct (m_check (self m) && negb success); reflexivity.
Qed.

Lemma stream_write_prefix_length (data : StreamBase) (off : nat) :
  List.length (firstn off data ++ repeat x00 (off - List.length data)) = off.
Proof. rewrite length_app, length_firstn, repeat_length. lia. Qed.


Lemma stream_read_write_before (data : StreamBase) (offset o len : Z) (src : list byte) :
  0 <= o -> 0 <= len -> o + len <= offset -> o + len <= stream_size data ->
  stream_read (stream_write data offset src) o len = stream_read data o len.
Proof.
  intros Ho Hl Hoff Hdata. unfold stream_read, stream_write, stream_size in *.
  rewrite !firstn_skipn_comm. f_equal.
  rewrite <- !app_assoc.
  rewrite firstn_app, length_firstn.
  replace (Z.to_nat o + Z.to_nat len
           - Nat.min (Z.to_nat offset) (List.length data))%nat with 0%nat by lia.
  cbn [firstn]. rewrite app_nil_r, firstn_firstn. f_equal. lia.
Qed.

Lemma stream_read_write_after (data : StreamBase) (offset o len : Z) (src : list byte) :
  0 <= offset -> offset + Z.of_nat (List.length src) <= o ->
  stream_read (stream_write data offset src) o len = stream_read data o len.
Proof.
  intros Hoff Ho. unfold stream_read, stream_write. f_equal.
  rewrite app_assoc, skipn_app.
  rewrite skipn_all2 by (rewrite length_app, stream_write_prefix_length; lia).
  rewrite length_app, stream_write_prefix_length. cbn [app].
  rewrite skipn_skipn. f_equal. lia.
Qed.


Lemma write_block_keeps_shape `{Crypto} (m : Machine) (fuel : nat) (i : Z)
    (input : list byte) :
  same_shape m (snd (write_block fuel i input m)).
Proof.
  assert (Hp : preserves same_shape (write_block fuel i input)).
  { apply preserves_write_block;
      first [ exact same_shape_refl | exact same_shape_trans
            | intros; unfold same_shape, with_buffer, with_stream; cbn; auto ]. }
  apply (Hp m (fst (write_block fuel i input m))). now destruct (write_block fuel i input m).
Qed.

(** What [write_block] lays down at the block's offset when it returns. *)
Lemma write_block_stream `{Crypto} (m m' : Machine) (fuel : nat) (i : Z) (input : list byte) :
  stream_ok (self m) -> 0 <= i <= 2 ^ 31 - 1 ->
  Z.of_nat (List.length input) <= get_block_size (self m) ->
  write_block fuel i input m = (Ok tt, m') ->
  let s := self m in
  exists src,
    m_stream (self m')
    = stream_write (m_stream s) (get_header_size + i * get_underlying_block_size s) src /\
    if is_all_zeros input
    then src = repeat x00 (Z.to_nat (Z.of_nat (List.length input) + get_iv_size s
                                     + get_mac_size))
    else exists iv,
        Z.of_nat (List.length iv) = get_iv_size s /\
        is_all_zeros iv = false /\
        src = iv ++ fst (GCM_EncryptAndAuthenticate (m_session_key s) iv
                           (to_little_endian (u32 i)) input)
                 ++ snd (GCM_EncryptAndAuthenticate (m_session_key s) iv
                           (to_little_endian (u32 i)) input).
Proof.
  intros Hok Hi Hsize Hrun s.
  destruct (is_all_zeros input) eqn:Hz.
  - destruct (write_block_zero_run m fuel i input Hok Hi Hsize Hz)
      as (m'' & Hm'' & _ & Hstream & _).
    rewrite Hrun in Hm''. injection Hm'' as <-. eexists. split; [exact Hstream|reflexivity].
  - pose proof (write_block_nonzero_run m fuel i input Hok Hi Hsize Hz) as Hnz.
    cbv zeta in Hnz.
    set (m0 := logged "Being ++++++++++++++[AESGCMCryptStream::WriteBlock]++++++++++++" m)
      in *.
    destruct (draw_iv fuel m0) as [[[] | e | why] m1] eqn:Hdraw;
      [| rewrite Hrun in Hnz; discriminate Hnz | rewrite Hrun in Hnz; discriminate Hnz].
    destruct Hnz as (m'' & Hm'' & Hw). rewrite Hrun in Hm''. injection Hm'' as <-.
    assert (Hok0 : stream_ok (self m0)) by exact Hok.
    destruct (draw_iv_returns fuel m0 m1 Hok0 Hdraw) as (Hok1 & _ & _ & Eiv & _ & _ & Hivnz).
    change (self m0) with s in *.
    unfold block_written in Hw. fold s in Hw. cbv zeta in Hw.
    set (iv := firstn (Z.to_nat (get_iv_size s)) (m_buffer (self m1))) in *.
    destruct (GCM_EncryptAndAuthenticate (m_session_key s) iv (to_little_endian (u32 i))
                input) as [ciphertext mac] eqn:Eenc.
    destruct Hw as (Hstream & _).
    exists (iv ++ ciphertext ++ mac). split; [exact Hstream|].
    exists iv. repeat split.
    + pose proof (ubs_range _ Hok1) as Hubs. destruct Hok1 as (_ & Hiv1 & Hbuf1).
      unfold iv, get_underlying_block_size, get_block_size, get_iv_size, get_mac_size in *.
      rewrite length_firstn. lia.
    + exact Hivnz.
    + rewrite Eenc. reflexivity.
Qed.

Lemma block_result_same_shape `{Crypto} (m m' : Machine) (i : Z) (got : list byte) :
  same_shape m m' -> block_result (self m') i got = block_result (self m) i got.
Proof.
  intros (Hbs & Hiv & Hc & Hk & _).
  unfold block_result, get_block_size, get_iv_size. now rewrite Hbs, Hiv, Hc, Hk.
Qed.

Lemma same_shape_ubs (m m' : Machine) :
  same_shape m m' ->
  get_underlying_block_size (self m') = get_underlying_block_size (self m).
Proof.
  intros (Hbs & Hiv & _).
  unfold get_underlying_block_size, get_block_size, get_iv_size. now rewrite Hbs, Hiv.
Qed.





(** X7: [write_block] at block [i] leaves every other block as [read_block]
    sees it.  Later blocks are never touched; an earlier block is untouched
    when it lies whole inside the inner stream (a short last block is
    lengthened with zeros when a write lands past the end). *)
Theorem write_block_keeps_other_blocks `{Crypto} (m m' : Machine) (fuel : nat) (i j : Z)
    (input : list byte) :
  let s := self m in
  stream_ok s ->
  0 <= i <= 2 ^ 31 - 1 ->
  0 <= j <= 2 ^ 31 - 1 ->
  Z.of_nat (List.length input) <= get_block_size s ->
  i < j
  \/ (j < i /\
      get_header_size + (j + 1) * get_underlying_block_size s <= stream_size (m_stream s)) ->
  write_block fuel i input m = (Ok tt, m') ->
  fst (read_block j m') = fst (read_block j m).
Proof.
  intros s Hok Hi Hj Hsize Hcase Hrun.
  pose proof (write_block_keeps_shape m fuel i input) as Hshape.
  rewrite Hrun in Hshape. cbn [snd] in Hshape.
  pose proof (same_shape_stream_ok m m' Hshape Hok) as Hok'.
  pose proof (ubs_range _ Hok) as Hubs.
  destruct (write_block_stream m m' fuel i input Hok Hi Hsize Hrun) as (src & Hstream & Hsrc).
  fold s in Hstream, Hsrc, Hubs.
  rewrite (read_block_result m' j Hok' Hj), (read_block_result m j Hok Hj).
  rewrite (same_shape_ubs m m' Hshape), Hstream.
  rewrite (block_result_same_shape m m' j _ Hshape). fold s.
  assert (Hu : get_underlying_block_size s = get_block_size s + get_iv_size s + get_mac_size)
    by reflexivity.
  assert (Hlen : Z.of_nat (List.length src)
                 = Z.of_nat (List.length input) + get_iv_size s + get_mac_size).
  { destruct Hok as (_ & Hiv & _). change (m_iv_size s) with (get_iv_size s) in Hiv.
    assert (Hmac : get_mac_size = 16) by reflexivity.
    destruct (is_all_zeros input).
    - subst src. rewrite repeat_length. lia.
    - destruct Hsrc as (iv & Hivlen & _ & ->).
      rewrite !length_app, GCM_ciphertext_length.
      pose proof (GCM_mac_length (m_session_key s) iv (to_little_endian (u32 i)) input).
      lia. }
  f_equal. unfold get_header_size in *. destruct Hcase as [Hlt | [Hlt Hin]].
  - apply stream_read_write_after; nia.
  - apply stream_read_write_before; nia.
Qed.

(** X8: the count that [read_block] returns lies between zero and the block
    size. *)
Theorem read_block_count_within_block `{Crypto} (m : Machine) (i n : Z)
    (output : list byte) :
  stream_ok (self m) ->
  0 <= i <= 2 ^ 31 - 1 ->
  fst (read_block i m) = Ok (n, output) ->
  0 <= n <= get_block_size (self m).
Proof.
  intros Hok Hi. rewrite (read_block_result m i Hok Hi).
  pose proof (ubs_range _ Hok) as Hubs.
  pose proof (stream_read_length (m_stream (self m))
                (get_header_size + i * get_underlying_block_size (self m))
                (get_underlying_block_size (self m))) as Hlen.
  unfold block_result.
  set (got := stream_read _ _ _) in *.
  assert (Hu : get_underlying_block_size (self m)
               = get_block_size (self m) + get_iv_size (self m) + get_mac_size)
    by reflexivity.
  destruct Hok as (Hbs & _). change (m_block_size (self m)) with (get_block_size (self m)) in Hbs.
  destruct (Z.leb_spec (Z.of_nat (List.length got)) (get_mac_size + get_iv_size (self m))).
  - intros Heq. injection Heq as <- _. lia.
  - destruct (is_all_zeros got).
    + intros Heq. injection Heq as <- _. lia.
    + destruct (GCM_DecryptAndVerify _ _ _ _ _) as [success message].
      destruct (m_check (self m) && negb success); [discriminate|].
      intros Heq. injection Heq as <- _. lia.
Qed.

(** ** The constructor: refusals and reopening *)

Lemma constructor_returns_only_checked `{Crypto} `{KeyAudit} (e e1 : Env)
    (stream : option StreamBase) (master_key : list byte) (block_size iv_size : Z)
    (check : bool) (s1 : AESGCMCryptStream) :
  AESGCMCryptStream_new stream master_key block_size iv_size check e = (Ok s1, e1) ->
  12 <= iv_size <= 32 /\ 32 <= block_size /\ exists inner, stream = Some inner.
Proof.
  unfold AESGCMCryptStream_new.
  destruct (Z.ltb_spec iv_size 12); [cbn; discriminate|].
  destruct (Z.gtb_spec iv_size 32); [cbn; discriminate|]. cbn [orb].
  destruct stream as [inner|]; [|cbn; discriminate].
  destruct (Z.ltb_spec block_size 32); [cbn; discriminate|].
  intros _. repeat split; try lia. now exists inner.
Qed.

Lemma stream_read_nothing (data : StreamBase) (n : Z) :
  0 < n -> List.length (stream_read data 0 n) = 0%nat -> data = [].
Proof.
  unfold stream_read. cbn [Z.to_nat skipn]. intros Hn. rewrite length_firstn.
  destruct data; [reflexivity|]. cbn [List.length]. lia.
Qed.

(** X9: the constructor refuses an IV size outside 12..32, a null stream and
    a block size under 32 with [InvalidArgumentException], before it touches
    anything: nothing is read or written, no random byte is drawn and nothing
    is logged. *)
Theorem constructor_refuses_bad_arguments `{Crypto} `{KeyAudit} (e : Env)
    (stream : option StreamBase) (master_key : list byte) (block_size iv_size : Z)
    (check : bool) :
  iv_size < 12 \/ iv_size > 32 \/ stream = None \/ block_size < 32 ->
  exists msg,
    AESGCMCryptStream_new stream master_key block_size iv_size check e
    = (Throw (InvalidArgumentException msg), e).
Proof.
  intros Hbad. unfold AESGCMCryptStream_new.
  destruct (Z.ltb_spec iv_size 12); [eexists; reflexivity|].
  destruct (Z.gtb_spec iv_size 32); [eexists; reflexivity|]. cbn [orb].
  destruct stream as [inner|]; [|eexists; reflexivity].
  destruct (Z.ltb_spec block_size 32); [eexists; reflexivity|].
  destruct Hbad as [Hb | [Hb | [Hb | Hb]]]; try lia. discriminate Hb.
Qed.

(** X10: reopening gives the same object.  Whatever stream the constructor
    was given, when it returns an object, constructing again over that
    object's inner stream with the same key and parameters returns the very
    same object: same session key, inner stream left as it is; and this
    second construction draws no random byte. *)
Theorem constructor_reopens_what_it_created `{Crypto} `{KeyAudit} (e e1 e' : Env)
    (stream : option StreamBase) (master_key : list byte) (block_size iv_size : Z)
    (check : bool) (s1 : AESGCMCryptStream) :
  AESGCMCryptStream_new stream master_key block_size iv_size check e = (Ok s1, e1) ->
  fst (AESGCMCryptStream_new (Some (m_stream s1)) master_key block_size iv_size check e')
  = Ok s1 /\
  rng_pos (snd (AESGCMCryptStream_new (Some (m_stream s1)) master_key block_size iv_size
                  check e'))
  = rng_pos e'.
Proof.
  intros Hrun.
  destruct (constructor_returns_only_checked _ _ _ _ _ _ _ _ Hrun)
    as (Hiv & Hbs & inner & ->).
  rewrite (constructor_run e inner master_key block_size iv_size check Hiv Hbs) in Hrun.
  rewrite (constructor_run e' (m_stream s1) master_key block_size iv_size check Hiv Hbs).
  cbv zeta in *.
  assert (Hpos : forall key x, rng_pos (warned key x) = rng_pos x)
    by (intros key x; apply (warned_same key x)).
  destruct (Z.eqb_spec (Z.of_nat (List.length (stream_read inner 0 get_header_size))) 0)
    as [Hzero | Hnz].
  - assert (inner = []) as ->
        by (apply (stream_read_nothing inner get_header_size); [reflexivity|lia]).
    set (fresh := map (rng_tape e) (seq (rng_pos e) (Z.to_nat get_header_size))) in *.
    assert (Hfresh : List.length fresh = 32%nat)
      by (unfold fresh; rewrite length_map, length_seq; reflexivity).
    clearbody fresh.
    assert (Hsw : stream_write [] 0 fresh = fresh).
    { unfold stream_write. cbn. rewrite skipn_nil. apply app_nil_r. }
    rewrite Hsw in Hrun.
    assert (Hrd : stream_read fresh 0 get_header_size = fresh).
    { unfold stream_read. cbn [Z.to_nat skipn]. apply firstn_all2. rewrite Hfresh.
      reflexivity. }
    assert (Hs1 : m_stream s1 = fresh) by (injection Hrun as <- _; reflexivity).
    rewrite Hs1, Hrd, Hfresh.
    change (Z.of_nat 32 =? 0) with false. change (Z.of_nat 32 =? get_header_size) with true.
    cbn [fst snd]. split; [|rewrite !Hpos; cbn [env_record rng_pos]; rewrite !Hpos; reflexivity].
    injection Hrun as <- _. reflexivity.
  - destruct (Z.eqb_spec (Z.of_nat (List.length (stream_read inner 0 get_header_size)))
                get_header_size) as [Hfull | Hbad]; [|discriminate Hrun].
    injection Hrun as <- _. cbn [m_stream].
    destruct (Z.eqb_spec (Z.of_nat (List.length (stream_read inner 0 get_header_size))) 0);
      [contradiction|].
    destruct (Z.eqb_spec (Z.of_nat (List.length (stream_read inner 0 get_header_size)))
                get_header_size); [|contradiction].
    cbn [fst snd]. split; [reflexivity|].
    rewrite !Hpos. cbn [env_record rng_pos]. rewrite !Hpos. reflexivity.
Qed.


(** ** The block number as associated data *)

Lemma byte_of_Z_value (z : Z) : Z.of_N (Byte.to_N (byte_of_Z z)) = z mod 256.
Proof.
  unfold byte_of_Z.
  assert (Hr : 0 <= z mod 256 < 256) by (apply Z.mod_pos_bound; lia).
  destruct (Byte.of_N (Z.to_N (z mod 256))) as [b|] eqn:Hb.
  - apply Byte.to_of_N in Hb. rewrite Hb. lia.
  - apply Byte.of_N_None_iff in Hb. lia.
Qed.

(** X12: block numbers are not lost on the way into the associated data.
    [read_block] and [write_block] cast the 64-bit block number to 32 bits
    and lay it out LSB first; for every block number they accept, reading
    the four bytes back gives the block number itself, so two accepted
    block numbers never share their associated data. *)
Theorem accepted_block_number_survives_the_cast (i : Z) :
  0 <= i -> (i >? MAX_BLOCKS) = false ->
  from_little_endian (to_little_endian (u32 i)) = i.
Proof.
  intros Hpos Hacc. rewrite MAX_BLOCKS_value in Hacc.
  destruct (Z.gtb_spec i (2 ^ 31 - 1)) as [|Hle]; [discriminate|].
  unfold to_little_endian, from_little_endian, u32.
  rewrite (Z.mod_small i) by lia.
  rewrite !byte_of_Z_value, !Z.shiftr_div_pow2 by lia.
  change (2 ^ 0) with 1. rewrite Z.div_1_r.
  change (2 ^ 8) with 256. change (2 ^ 16) with 65536. change (2 ^ 24) with 16777216.
  change (2 ^ 31 - 1) with 2147483647 in Hle.
  pose proof (Z.div_mod i 256 ltac:(lia)) as E0.
  pose proof (Z.div_mod (i / 256) 256 ltac:(lia)) as E1.
  pose proof (Z.div_mod (i / 256 / 256) 256 ltac:(lia)) as E2.
  assert (E3 : i / 65536 = i / 256 / 256) by (rewrite Z.div_div by lia; reflexivity).
  assert (E4 : i / 16777216 = i / 256 / 256 / 256)
    by (rewrite !Z.div_div by lia; reflexivity).
  rewrite E3, E4.
  pose proof (Z.div_mod (i / 256 / 256 / 256) 256 ltac:(lia)) as E5.
  assert (i / 256 / 256 / 256 / 256 = 0).
  { rewrite !Z.div_div by lia. apply Z.div_small. lia. }
  lia.
Qed.

(** * Further properties of the callbacks *)

(** ** What every path of a callback keeps *)

Section CallbackPreservation.
Context {Host : Type} `{Backend Host} `{KeyAudit} {build : Build}.
Variable R : World Host -> World Host -> Prop.
Hypothesis R_refl : forall w, R w w.
Hypothesis R_trans : forall w1 w2 w3, R w1 w2 -> R w2 w3 -> R w1 w3.
Hypothesis R_log : forall g w, R w (set_global_logger g w).
Hypothesis R_call : forall w callee on outcome h,
  String.eqb callee "File::lock" = false ->
  String.eqb callee "File::unlock" = false ->
  R w (entered (callee, on, outcome) h w).
Hypothesis R_lock_failed : forall w fp outcome h,
  (forall status, outcome <> Returned status) ->
  R w (entered ("File::lock"%string, Some fp, outcome) h w).
Hypothesis R_locked : forall w fp status h w2 h2,
  R (entered ("File::lock"%string, Some fp, Returned status) h w) w2 ->
  R w (entered ("File::unlock"%string, Some fp, Returned 0) h2 w2).

Lemma preserves_log (log : World Host -> World Host) :
  (forall w, exists g, log w = set_global_logger g w) -> preserves R (modify log).
Proof.
  intros Hlog. apply preserves_modify. intros w. destruct (Hlog w) as (g & ->). apply R_log.
Qed.

Lemma preserves_GENERIC_LOG (level : LoggingLevel) (text : string) :
  preserves R (modify (GENERIC_LOG (S := World Host) level text)).
Proof. apply preserves_log. intros w. eexists. reflexivity. Qed.

Lemma preserves_enter {A} (callee : string) (on : option Z) (status : A -> Z)
    (f : M Host A) :
  String.eqb callee "File::lock" = false ->
  String.eqb callee "File::unlock" = false ->
  preserves R (enter callee on status f).
Proof.
  intros H1 H2 w r w' Hrun. unfold enter in Hrun.
  destruct (f (host w)) as [r0 h]. injection Hrun as _ <-.
  exact (R_call w callee on _ h H1 H2).
Qed.

Lemma preserves_invoke {A} (callee : string) (status : A -> Z) (f : M Host A) :
  String.eqb callee "File::lock" = false ->
  String.eqb callee "File::unlock" = false ->
  preserves R (invoke callee status f).
Proof. apply preserves_enter. Qed.

Lemma preserves_invoke_on {A} (handle : Z) (callee : string) (status : A -> Z)
    (method : Z -> M Host A) :
  String.eqb callee "File::lock" = false ->
  String.eqb callee "File::unlock" = false ->
  preserves R (invoke_on handle callee status method).
Proof. apply preserves_enter. Qed.

Lemma R_leave_on (handle : Z) (callee : string) (method : Z -> Host -> Host)
    (w : World Host) :
  String.eqb callee "File::lock" = false ->
  String.eqb callee "File::unlock" = false ->
  R w (leave_on handle callee method w).
Proof. intros H1 H2. exact (R_call w callee (Some handle) (Returned 0) _ H1 H2). Qed.

Lemma preserves_OPT_CATCH (func : string) (e : Exception) : preserves R (OPT_CATCH func e).
Proof.
  unfold OPT_CATCH. apply preserves_bind; [assumption | apply preserves_GENERIC_LOG|].
  intros _. now apply preserves_ret.
Qed.

Lemma preserves_OPT_TRACE (func : string) : preserves R (OPT_TRACE func).
Proof. apply preserves_GENERIC_LOG. Qed.

Lemma preserves_keep {A} (a : A) (c : M (World Host) Z) :
  preserves R c -> preserves R (keep a c).
Proof.
  intros Hc. unfold keep. apply preserves_bind; [assumption | exact Hc|].
  intros v. now apply preserves_ret.
Qed.

Lemma preserves_returned {A} (c : M (World Host) (Z * A)) :
  preserves R c -> preserves R (returned c).
Proof.
  intros Hc. unfold returned. apply preserves_bind; [assumption | exact Hc|].
  intros v. now apply preserves_ret.
Qed.

Lemma preserves_locked {A} (fp : Z) (exclusive : bool) (body : M (World Host) A) :
  preserves R body -> preserves R (locked fp exclusive body).
Proof.
  intros Hb w r w' Hrun. unfold locked, bind, invoke_on, enter, scoped, leave_on in Hrun.
  destruct (File_lock fp exclusive (host w)) as [[[] | e | why] h] eqn:Elock.
  - destruct (body _) as [r2 w2] eqn:Ebody. injection Hrun as _ <-.
    apply Hb in Ebody. exact (R_locked w fp 0 h w2 (File_unlock fp (host w2)) Ebody).
  - injection Hrun as _ <-. apply (R_lock_failed w fp (Raised e) h). discriminate.
  - injection Hrun as _ <-. apply (R_lock_failed w fp (Stopped why) h). discriminate.
Qed.

Lemma preserves_readdir_loop (fuel : nat) (traverser : Z)
    (filler : string -> fuse_stat -> M Host Z) :
  preserves R (readdir_loop fuel traverser filler).
Proof.
  induction fuel as [|fuel IH]; cbn [readdir_loop]; [now apply preserves_halt|].
  apply preserves_bind; [assumption | now apply preserves_invoke_on|].
  intros [[name stbuf]|]; [|now apply preserves_ret].
  destruct (negb _WIN32 && (String.eqb name "." || String.eqb name "..")); [exact IH|].
  apply preserves_bind; [assumption | now apply preserves_invoke|].
  intros rc. destruct (negb (rc =? 0)); [now apply preserves_ret | exact IH].
Qed.

(** One step of a callback written with the combinators above. *)
Ltac keep_world :=
  lazymatch goal with
  | |- preserves _ (ret _) => apply preserves_ret; assumption
  | |- preserves _ (throw _) => apply preserves_throw; assumption
  | |- preserves _ (throwInvalidArgumentException _) => apply preserves_throw; assumption
  | |- preserves _ (halt _) => apply preserves_halt; assumption
  | |- preserves _ (modify (GENERIC_LOG _ _)) => apply preserves_GENERIC_LOG
  | |- preserves _ (modify (INFO_LOG _)) => apply preserves_GENERIC_LOG
  | |- preserves _ (modify (TRACE_LOG _)) => apply preserves_GENERIC_LOG
  | |- preserves _ (modify (ERROR_LOG _)) => apply preserves_GENERIC_LOG
  | |- preserves _ (OPT_TRACE _) => apply preserves_OPT_TRACE
  | |- preserves _ (OPT_CATCH _ _) => apply preserves_OPT_CATCH
  | |- preserves _ (OPT_CATCH _) => apply preserves_OPT_CATCH
  | |- preserves _ (readdir_loop _ _ _) => apply preserves_readdir_loop
  | |- preserves _ (invoke _ _ _) => apply preserves_invoke; reflexivity
  | |- preserves _ (invoke_on _ _ _ _) => apply preserves_invoke_on; reflexivity
  | |- preserves _ (keep _ _) => apply preserves_keep
  | |- preserves _ (returned _) => apply preserves_returned
  | |- preserves _ (locked _ _ _) => apply preserves_locked
  | |- preserves _ (OperationLogger _ _) =>
      apply preserves_OperationLogger; [assumption | exact R_log | ]
  | |- preserves _ (try_catch _ _) => apply preserves_try_catch; [assumption | | intros ?]
  | |- preserves _ (scoped _ _) => apply preserves_scoped; [assumption | | intros ?]
  | |- preserves _ (bind _ _) => apply preserves_bind; [assumption | | intros ?]
  | |- preserves _ (if ?c then _ else _) => destruct c
  | |- preserves _ (match ?x with (_, _) => _ end) => destruct x
  | |- preserves _ (match ?x with Some _ => _ | None => _ end) => destruct x
  | |- R _ (leave_on _ _ _ _) => apply R_leave_on; reflexivity
  | |- R _ (delete_on _ _ _ _) => apply R_leave_on; reflexivity
  end.

Lemma preserves_releasedir path info : preserves R (releasedir path info).
Proof. unfold releasedir. repeat keep_world. Qed.

Lemma preserves_readdir fuel path filler info : preserves R (readdir fuel path filler info).
Proof. unfold readdir. repeat keep_world. Qed.

Lemma preserves_release path info : preserves R (release path info).
Proof. unfold release. repeat keep_world. Qed.

Lemma preserves_read path size offset info : preserves R (read path size offset info).
Proof. unfold read. repeat keep_world. Qed.

Lemma preserves_write path buf offset info : preserves R (write path buf offset info).
Proof. unfold write. repeat keep_world. Qed.

Lemma preserves_flush path info : preserves R (Operations.flush path info).
Proof. unfold Operations.flush. repeat keep_world. Qed.

Lemma preserves_ftruncate path len info : preserves R (ftruncate path len info).
Proof. unfold ftruncate. repeat keep_world. Qed.

Lemma preserves_fsync path datasync info : preserves R (fsync path datasync info).
Proof. unfold fsync. repeat keep_world. Qed.

Lemma preserves_handle_callbacks (cb : Callback Host) :
  enters_filesystem cb = false -> preserves R (call cb).
Proof.
  destruct cb; cbn [enters_filesystem]; try discriminate; intros Hno; cbn [call].
  - apply preserves_releasedir.
  - apply preserves_readdir.
  - apply preserves_release.
  - apply preserves_returned, preserves_read.
  - apply preserves_write.
  - apply preserves_flush.
  - apply preserves_ftruncate.
  - apply preserves_fsync.
  - unfold truncate. apply negb_false_iff in Hno. rewrite Hno. repeat keep_world.
  - apply preserves_returned. unfold getxattr.
    destruct (position =? 0); cbn [negb andb] in *; [|repeat keep_world].
    destruct (String.eqb name "com.apple.quarantine"); cbn [negb andb] in *;
      [repeat keep_world|].
    destruct (String.eqb name "com.apple.FinderInfo"); [repeat keep_world|].
    discriminate Hno.
  - unfold setxattr.
    destruct (position =? 0); cbn [negb andb] in *; [|repeat keep_world].
    destruct (String.eqb name "com.apple.quarantine"); cbn [negb andb] in *;
      [repeat keep_world|].
    destruct (String.eqb name "com.apple.FinderInfo"); cbn [negb andb] in *;
      [repeat keep_world|].
    match type of Hno with
    | match ?v with Some _ => _ | None => _ end = false => destruct v as [bytes|]
    end; [|repeat keep_world].
    destruct (Z.of_nat (List.length bytes) =? 0); [repeat keep_world|].
    discriminate Hno.
Qed.

(** *** The callbacks that enter the file system *)

Hypothesis R_new_fs : forall (w : World Host) fs,
  opt_fs w = None ->
  R w (mkWorld (Some fs) (mount w) (host w) (calls w) (world_logger w)).

Lemma preserves_get_local_filesystem : preserves R get_local_filesystem.
Proof.
  intros w r w' Hrun. unfold get_local_filesystem in Hrun.
  repeat step_in Hrun; wrun_in Hrun; injection Hrun as _ <-;
    first
      [ apply R_refl
      | exact (R_log _ w)
      | match goal with
        | |- R w (mkWorld (opt_fs w) (mount w) ?h (calls w ++ [(?callee, ?on, ?out)]) ?g) =>
            apply (R_trans _ (set_global_logger g w)); [apply R_log|];
            exact (R_call (set_global_logger g w) callee on out h eq_refl eq_refl)
        | E : opt_fs w = None
          |- R w (mkWorld (Some ?fs) (mount w) ?h (calls w ++ [(?callee, ?on, ?out)]) ?g) =>
            apply (R_trans _ (set_global_logger g w)); [apply R_log|];
            apply (R_trans _ (entered (callee, on, out) h (set_global_logger g w)));
            [ exact (R_call (set_global_logger g w) callee on out h eq_refl eq_refl) |];
            exact (R_new_fs (entered (callee, on, out) h (set_global_logger g w)) fs E)
        end ].
Qed.

Ltac keep_world' :=
  lazymatch goal with
  | |- preserves _ get_local_filesystem => apply preserves_get_local_filesystem
  | _ => keep_world
  end.

Lemma preserves_delegate (func callee : string) (f : FileSystem -> M Host unit) :
  String.eqb callee "File::lock" = false ->
  String.eqb callee "File::unlock" = false ->
  preserves R (delegate func callee f).
Proof.
  intros H1 H2. unfold delegate.
  repeat lazymatch goal with
         | |- preserves _ (invoke _ _ _) => apply preserves_invoke; assumption
         | _ => keep_world'
         end.
Qed.

Lemma preserves_call (cb : Callback Host) : preserves R (call cb).
Proof.
  destruct (enters_filesystem cb) eqn:Henters;
    [|now apply preserves_handle_callbacks].
  destruct cb; try discriminate Henters; cbn [call];
    unfold statfs, getattr, opendir, create, open, unlink, mkdir, rmdir, chmod, chown,
      symlink, link, readlink, rename, truncate, utimens, listxattr, getxattr, setxattr,
      removexattr;
    try (apply preserves_delegate; reflexivity);
    repeat keep_world'.
Qed.
End CallbackPreservation.

(** ** Locks and the context of a worker *)

Lemma locks_held_app (held : list Z) (made1 made2 : list Entry) :
  locks_held held (made1 ++ made2)
  = match locks_held held made1 with
    | Some held' => locks_held held' made2
    | None => None
    end.
Proof.
  revert held.
  induction made1 as [|[[callee on] outcome] made1 IH]; intros held; [reflexivity|].
  cbn [app locks_held].
  destruct (String.eqb callee "File::lock"); [destruct on, outcome; apply IH|].
  destruct (String.eqb callee "File::unlock"); [|apply IH].
  destruct on as [fp|]; [|reflexivity].
  destruct held as [|last held]; [reflexivity|].
  destruct (fp =? last); [apply IH | reflexivity].
Qed.

Section WorldRelations.
Context {Host : Type}.

Lemma locks_released_refl (w : World Host) : locks_released w w.
Proof. exists []. split; [symmetry; apply app_nil_r | reflexivity]. Qed.

Lemma locks_released_trans (w1 w2 w3 : World Host) :
  locks_released w1 w2 -> locks_released w2 w3 -> locks_released w1 w3.
Proof.
  intros (made1 & E1 & D1) (made2 & E2 & D2). exists (made1 ++ made2). split.
  - rewrite E2, E1. now rewrite app_assoc.
  - intros held. rewrite locks_held_app, D1. apply D2.
Qed.

Lemma locks_released_same_calls (w w' : World Host) :
  calls w' = calls w -> locks_released w w'.
Proof. intros E. exists []. rewrite E. split; [symmetry; apply app_nil_r | reflexivity]. Qed.

Lemma locks_released_call (w : World Host) (callee : string) (on : option Z)
    (outcome : CallOutcome) (h : Host) :
  String.eqb callee "File::lock" = false ->
  String.eqb callee "File::unlock" = false ->
  locks_released w (entered (callee, on, outcome) h w).
Proof.
  intros H1 H2. exists [(callee, on, outcome)]. split; [reflexivity|].
  intros held. cbn [locks_held]. now rewrite H1, H2.
Qed.

Lemma locks_released_lock_failed (w : World Host) (fp : Z) (outcome : CallOutcome)
    (h : Host) :
  (forall status, outcome <> Returned status) ->
  locks_released w (entered ("File::lock"%string, Some fp, outcome) h w).
Proof.
  intros Hout. exists [("File::lock"%string, Some fp, outcome)]. split; [reflexivity|].
  intros held.
  destruct outcome as [status | e | why]; [now destruct (Hout status) | |]; reflexivity.
Qed.

Lemma locks_released_locked (w : World Host) (fp status : Z) (h : Host) (w2 : World Host)
    (h2 : Host) :
  locks_released (entered ("File::lock"%string, Some fp, Returned status) h w) w2 ->
  locks_released w (entered ("File::unlock"%string, Some fp, Returned 0) h2 w2).
Proof.
  intros (made & E & D). cbn [entered calls] in E.
  exists ([("File::lock"%string, Some fp, Returned status)] ++ made
          ++ [("File::unlock"%string, Some fp, Returned 0)]).
  split.
  - cbn [entered calls]. rewrite E. now rewrite <- !app_assoc.
  - intros held.
    change (locks_held (fp :: held) (made ++ [("File::unlock"%string, Some fp, Returned 0)])
            = Some held).
    rewrite locks_held_app, D.
    cbn [locks_held String.eqb Ascii.eqb Bool.eqb]. now rewrite Z.eqb_refl.
Qed.

Lemma same_context_refl (w : World Host) : same_context w w.
Proof. split; auto. Qed.

Lemma same_context_trans (w1 w2 w3 : World Host) :
  same_context w1 w2 -> same_context w2 w3 -> same_context w1 w3.
Proof. intros (M1 & F1) (M2 & F2). split; [congruence | auto]. Qed.

Lemma same_filesystem_refl (w : World Host) : same_filesystem w w.
Proof. split; reflexivity. Qed.

Lemma same_filesystem_trans (w1 w2 w3 : World Host) :
  same_filesystem w1 w2 -> same_filesystem w2 w3 -> same_filesystem w1 w3.
Proof. intros (M1 & F1) (M2 & F2). split; congruence. Qed.
End WorldRelations.

(** X13: a callback never leaves a file locked.  Among the calls a callback
    makes into the backend, however it ends (a result, an exception of the
    backend turned into an error code, an exception that escapes), every
    [File::lock] that returned is followed by a [File::unlock] on the same
    file, the files locked last being unlocked first, and no file is
    unlocked that the callback did not lock. *)
Theorem callbacks_release_their_locks {Host : Type} `{Backend Host} `{KeyAudit}
    {build : Build} (cb : Callback Host) (w : World Host) :
  exists made,
    calls (snd (call cb w)) = calls w ++ made /\ locks_held [] made = Some [].
Proof.
  assert (Hp : preserves locks_released (call cb)).
  { apply preserves_call;
      first [ exact locks_released_refl | exact locks_released_trans
            | exact locks_released_call | exact locks_released_lock_failed
            | exact locks_released_locked
            | intros; apply locks_released_same_calls; reflexivity ]. }
  destruct (call cb w) as [r w'] eqn:Hrun.
  destruct (Hp w r w' Hrun) as (made & Hcalls & Hheld).
  exists made. split; [exact Hcalls | apply Hheld].
Qed.

(** X14: a callback leaves the context of its worker alone.  The mount
    options are never changed; a thread-local file system that exists is
    never replaced; and the callbacks that work on a handle ([read], [write],
    [flush], [fsync], [ftruncate], [readdir], [release], [releasedir]), and
    [truncate], [getxattr] and [setxattr] when they return before they call
    [get_local_filesystem], never build one. *)
Theorem callbacks_keep_the_context {Host : Type} `{Backend Host} `{KeyAudit}
    {build : Build} (cb : Callback Host) (w : World Host) :
  let w' := snd (call cb w) in
  mount w' = mount w /\
  (forall fs, opt_fs w = Some fs -> opt_fs w' = Some fs) /\
  (enters_filesystem cb = false -> opt_fs w' = opt_fs w).
Proof.
  cbv zeta.
  assert (Hp : preserves same_context (call cb)).
  { apply preserves_call;
      first [ exact same_context_refl | exact same_context_trans
            | intros w0 fp status h w2 h2 (Hm & Hfs); split; [exact Hm | exact Hfs]
            | intros w0 fs Hnone; split; [reflexivity|];
              intros fs0 Hsome; rewrite Hnone in Hsome; discriminate Hsome
            | intros; split; [reflexivity | intros fs0 Hsome; exact Hsome] ]. }
  assert (Hq : enters_filesystem cb = false -> preserves same_filesystem (call cb)).
  { intros Hno. apply preserves_handle_callbacks;
      first [ exact Hno | exact same_filesystem_refl | exact same_filesystem_trans
            | intros w0 fp status h w2 h2 (Hm & Hfs); split; [exact Hm | exact Hfs]
            | intros; split; reflexivity ]. }
  destruct (call cb w) as [r w'] eqn:Hrun. cbn [snd].
  destruct (Hp w r w' Hrun) as (Hm & Hfs). repeat split; [exact Hm | exact Hfs |].
  intros Hno. exact (proj2 (Hq Hno w r w' Hrun)).
Qed.

(** ** The thread-local file system *)

Section LocalFilesystem.
Context {Host : Type} `{Backend Host} `{KeyAudit}.

Lemma get_local_filesystem_cached (w : World Host) (fs : FileSystem) :
  opt_fs w = Some fs -> get_local_filesystem w = (Ok fs, w).
Proof. intros E. unfold get_local_filesystem. wrun. now rewrite E. Qed.

Lemma get_local_filesystem_refuses (w : World Host) (v : Z) :
  opt_fs w = None ->
  version (mount w) = Some v ->
  v <> 4 \/ Z.of_nat (List.length (master_key (mount w))) <> 3 * KEY_LENGTH ->
  exists msg, get_local_filesystem w = (Throw (InvalidArgumentException msg), w).
Proof.
  intros Hnone Hv Hbad. unfold get_local_filesystem. wrun. rewrite Hnone, Hv. wrun.
  destruct (Z.eqb_spec v 4) as [-> | Hne]; cbn [negb]; [|eexists; reflexivity].
  destruct (Z.eqb_spec (Z.of_nat (List.length (master_key (mount w)))) (3 * KEY_LENGTH))
    as [Heq | Hne]; cbn [negb]; [|eexists; reflexivity].
  destruct Hbad as [Hbad | Hbad]; contradiction.
Qed.

Lemma get_local_filesystem_calls (w w1 : World Host) (r : Result FileSystem) :
  get_local_filesystem w = (r, w1) ->
  exists pre, calls w1 = calls w ++ pre /\
              (pre = [] \/
               exists outcome, pre = [("FileSystem::FileSystem"%string, None, outcome)]).
Proof.
  intros Hrun. unfold get_local_filesystem in Hrun.
  repeat step_in Hrun; wrun_in Hrun; injection Hrun as _ <-; cbn [calls].
  all: try (exists []; rewrite app_nil_r; auto; fail).
  all: eexists; split; [reflexivity|right; eexists; reflexivity].
Qed.
End LocalFilesystem.

(** X15: the file system of a thread is built once.  When
    [get_local_filesystem] returns, the thread-local [opt_fs] holds the file
    system returned, and asking again returns the same file system without
    any call to the backend and without any other change. *)
Theorem get_local_filesystem_builds_once {Host : Type} `{Backend Host} `{KeyAudit}
    (w w1 : World Host) (fs : FileSystem) :
  get_local_filesystem w = (Ok fs, w1) ->
  opt_fs w1 = Some fs /\ get_local_filesystem w1 = (Ok fs, w1).
Proof.
  intros Hrun.
  assert (Hfs : opt_fs w1 = Some fs).
  { unfold get_local_filesystem in Hrun.
    repeat step_in Hrun; wrun_in Hrun; try discriminate Hrun;
      injection Hrun as <- <-; cbn [opt_fs]; first [assumption | reflexivity]. }
  split; [exact Hfs | now apply get_local_filesystem_cached].
Qed.

(** X16: what the file system of a thread is built from.  When
    [get_local_filesystem] builds a file system, the format is 4, the master
    key is 96 bytes long and is cut into the name key, the content key and
    the xattr key, 32 bytes each in this order; root, block size, IV size and
    flags are those of the mount options; and the backend is called once, to
    construct the file system. *)
Theorem get_local_filesystem_splits_the_master_key {Host : Type} `{Backend Host} `{KeyAudit}
    (w w1 : World Host) (fs : FileSystem) :
  opt_fs w = None ->
  get_local_filesystem w = (Ok fs, w1) ->
  version (mount w) = Some 4 /\
  fs_name_key fs ++ fs_content_key fs ++ fs_xattr_key fs = master_key (mount w) /\
  List.length (fs_name_key fs) = 32%nat /\
  List.length (fs_content_key fs) = 32%nat /\
  List.length (fs_xattr_key fs) = 32%nat /\
  fs_root fs = root (mount w) /\
  block_size (mount w) = Some (fs_block_size fs) /\
  iv_size (mount w) = Some (fs_iv_size fs) /\
  flags (mount w) = Some (fs_flags fs) /\
  calls w1 = calls w ++ [("FileSystem::FileSystem"%string, None, Returned 0)].
Proof.
  intros Hnone Hrun. unfold get_local_filesystem in Hrun. wrun_in Hrun.
  rewrite Hnone in Hrun.
  destruct (version (mount w)) as [v|] eqn:Ev; wrun_in Hrun; [|discriminate Hrun].
  destruct (Z.eqb_spec v 4) as [-> | Hne]; cbn [negb] in Hrun; [|discriminate Hrun].
  destruct (Z.eqb_spec (Z.of_nat (List.length (master_key (mount w)))) (3 * KEY_LENGTH))
    as [Hlen | Hne]; cbn [negb] in Hrun; [|discriminate Hrun].
  assert (Hkeys :
    let k := Z.to_nat KEY_LENGTH in
    let key := master_key (mount w) in
    firstn k key ++ firstn k (skipn k key) ++ firstn k (skipn (2 * k) key) = key /\
    List.length (firstn k key) = 32%nat /\
    List.length (firstn k (skipn k key)) = 32%nat /\
    List.length (firstn k (skipn (2 * k) key)) = 32%nat).
  { cbv zeta. change (Z.to_nat KEY_LENGTH) with 32%nat. change (3 * KEY_LENGTH) with 96 in Hlen.
    set (key := master_key (mount w)) in *.
    assert (Hl : List.length key = 96%nat) by lia.
    clearbody key.
    change (2 * 32)%nat with (32 + 32)%nat.
    rewrite !length_firstn, !length_skipn, Hl.
    repeat split; try reflexivity.
    rewrite (firstn_all2 (n := 32) (skipn (32 + 32) key))
      by (rewrite length_skipn, Hl; cbn; lia).
    rewrite <- skipn_skipn, firstn_skipn. apply firstn_skipn. }
  cbv zeta in Hkeys. destruct Hkeys as (Hcat & L1 & L2 & L3).
  repeat step_in Hrun; wrun_in Hrun; try discriminate Hrun;
    injection Hrun as <- <-;
    cbn [fs_name_key fs_content_key fs_xattr_key fs_root fs_block_size fs_iv_size fs_flags
         calls];
    repeat split; auto.
Qed.

(** ** Refusals *)

(** X17: a null handle is refused before anything is done.  [readdir],
    [read], [write], [flush], [ftruncate] and [fsync] answer [-EFAULT] for a
    null handle, make no call into the backend, and leave the host and the
    thread-local file system as they were. *)
Theorem null_handle_is_refused_without_a_call {Host : Type} `{Backend Host} `{KeyAudit}
    {build : Build} (cb : Callback Host) (info : fuse_file_info) (w : World Host) :
  tested_handle cb = Some info ->
  fh info = 0 ->
  fst (call cb w) = Ok (- EFAULT) /\
  calls (snd (call cb w)) = calls w /\
  host (snd (call cb w)) = host w /\
  opt_fs (snd (call cb w)) = opt_fs w.
Proof.
  intros Hcb Hnull.
  destruct cb; cbn [tested_handle] in Hcb; try discriminate Hcb;
    injection Hcb as ->; cbn [call];
    unfold readdir, read, write, Operations.flush, ftruncate, fsync; wrun;
    rewrite Hnull; cbn [Z.eqb]; wrun; repeat split.
Qed.

(** X18: an error of [get_local_filesystem] is not turned into an error
    code.  The callbacks call it before their [try] block, and the xattr
    callbacks have none: when the thread has no file system yet and the
    mount options name another format than 4 or a master key that is not 96
    bytes long, every callback that calls [get_local_filesystem] ends with
    the [InvalidArgumentException] itself instead of returning a negative
    errno; no call into the backend is made. *)
Theorem filesystem_error_escapes_the_callback {Host : Type} `{Backend Host} `{KeyAudit}
    {build : Build} (cb : Callback Host) (w : World Host) (v : Z) :
  enters_filesystem cb = true ->
  opt_fs w = None ->
  version (mount w) = Some v ->
  v <> 4 \/ Z.of_nat (List.length (master_key (mount w))) <> 3 * KEY_LENGTH ->
  (exists msg, fst (call cb w) = Throw (InvalidArgumentException msg)) /\
  calls (snd (call cb w)) = calls w /\
  opt_fs (snd (call cb w)) = None.
Proof.
  intros Henters Hnone Hv Hbad.
  destruct cb; cbn [enters_filesystem] in Henters; try discriminate Henters; cbn [call];
    unfold statfs, getattr, opendir, create, open, unlink, mkdir, rmdir, chmod, chown,
      symlink, link, readlink, rename, truncate, utimens, listxattr, getxattr, setxattr,
      removexattr;
    repeat match type of Henters with
           | _ && _ = true => apply andb_prop in Henters; destruct Henters as [Henters ?]
           end;
    repeat match goal with
           | Hc : negb ?c = true |- _ => apply negb_true_iff in Hc
           | Hc : ?c = _ |- context [?c] =>
               lazymatch c with
               | _ =? _ => rewrite Hc
               | _ <? _ => rewrite Hc
               | String.eqb _ _ => rewrite Hc
               end
           | Hc : match ?x with Some _ => _ | None => _ end = true |- _ =>
               destruct x; [|discriminate Hc]
           end;
    wrun;
    match goal with
    | |- context [get_local_filesystem ?w0] =>
        destruct (get_local_filesystem_refuses w0 v Hnone Hv Hbad) as (msg & ->)
    end;
    cbn [fst snd calls opt_fs];
    (split; [exists msg; reflexivity | split; assumption || reflexivity]).
Qed.

(** ** [readdir] and the entries [.] and [..] *)


(** ** The file that [truncate] opens *)

(** X20: [truncate] closes the file it opened.  Among the calls it makes,
    however it ends, a [FileSystem::open] that returned a file is followed
    by [File::~File] on that file, also when [lock] or [resize] raise; and
    [File::~File] is called on no other file. *)
Theorem truncate_closes_the_file {Host : Type} `{Backend Host} `{KeyAudit}
    (path : string) (len : Z) (w : World Host) :
  exists made,
    calls (snd (truncate path len w)) = calls w ++ made /\
    files_open [] made = Some [].
Proof.
  destruct (truncate path len w) as [r w'] eqn:Hrun. cbn [snd].
  unfold truncate in Hrun. wrun_in Hrun.
  destruct (len <? 0); wrun_in Hrun;
    [injection Hrun as _ <-; exists []; split; [symmetry; apply app_nil_r | reflexivity]|].
  match type of Hrun with
  | context [get_local_filesystem ?w0] =>
      destruct (get_local_filesystem w0) as [[fs | e | why] w1] eqn:Hg;
      destruct (get_local_filesystem_calls _ _ _ Hg) as (pre & Hpre & Hcases);
      cbn [calls] in Hpre
  end.
  all: repeat step_in Hrun.
  all: wrun_in Hrun; injection Hrun as _ <-; cbn [calls]; rewrite Hpre, <- ?app_assoc.
  all: eexists; split; [first [reflexivity | symmetry; apply app_nil_r]|].
  all: destruct Hcases as [-> | [outcome ->]]; try destruct outcome;
    cbn [app files_open String.eqb Ascii.eqb Bool.eqb same]; rewrite ?Z.eqb_refl;
    reflexivity.
Qed.

(** ** A block written at the end of the stream *)

Lemma stream_write_size (data : StreamBase) (offset : Z) (src : list byte) :
  0 <= offset ->
  stream_size data <= offset + Z.of_nat (List.length src) ->
  stream_size (stream_write data offset src) = offset + Z.of_nat (List.length src).
Proof.
  intros Hoff Hend. unfold stream_size, stream_write in *.
  rewrite length_app, stream_write_prefix_length, length_app, length_skipn. lia.
Qed.

(** X21: a block written at the end of the stream sets the logical size.
    When [write_block] stores [n > 0] bytes as block [i] and the block ends
    the inner stream, [size] is [i] whole blocks and [n] bytes. *)
Theorem write_block_at_the_end_sets_size `{Crypto} (m m' : Machine) (fuel : nat) (i : Z)
    (input : list byte) :
  let s := self m in
  let n := Z.of_nat (List.length input) in
  stream_ok s ->
  0 <= i <= 2 ^ 31 - 1 ->
  0 < n <= get_block_size s ->
  stream_size (m_stream s)
  <= get_header_size + i * get_underlying_block_size s + n + get_iv_size s + get_mac_size ->
  write_block fuel i input m = (Ok tt, m') ->
  size (self m') = i * get_block_size s + n.
Proof.
  intros s n Hok Hi Hn Hend Hrun.
  pose proof (write_block_keeps_shape m fuel i input) as Hshape.
  rewrite Hrun in Hshape. cbn [snd] in Hshape.
  destruct (write_block_stream m m' fuel i input Hok Hi (proj2 Hn) Hrun)
    as (src & Hstream & Hsrc).
  fold s in Hstream, Hsrc.
  assert (Hiv : 12 <= get_iv_size s <= 32) by (destruct Hok as (_ & Hiv & _); exact Hiv).
  assert (Hbs : 32 <= get_block_size s < 2 ^ 32) by (destruct Hok as (Hbs & _); exact Hbs).
  assert (Hlen : Z.of_nat (List.length src) = n + get_iv_size s + get_mac_size).
  { assert (Hmac : get_mac_size = 16) by reflexivity.
    destruct (is_all_zeros input).
    - subst src. rewrite repeat_length. fold n. lia.
    - destruct Hsrc as (iv & Hivlen & _ & ->).
      rewrite !length_app, GCM_ciphertext_length.
      pose proof (GCM_mac_length (m_session_key s) iv (to_little_endian (u32 i)) input).
      fold n. lia. }
  destruct Hshape as (Eb & Ei & _).
  unfold size, get_block_size, get_iv_size in *. rewrite Eb, Ei, Hstream.
  unfold get_underlying_block_size, get_block_size, get_iv_size, get_header_size,
    get_mac_size in *.
  fold s. set (bs := m_block_size s) in *. set (iv := m_iv_size s) in *.
  rewrite stream_write_size by nia. rewrite Hlen.
  change (2 ^ 31 - 1) with 2147483647 in Hi. change (2 ^ 32) with 4294967296 in Hbs.
  rewrite calculate_real_size_exact by (change (2 ^ 64) with 18446744073709551616; nia).
  destruct (Z.leb_spec (32 + i * (bs + iv + 16) + (n + iv + 16)) 32); [nia|].
  replace (32 + i * (bs + iv + 16) + (n + iv + 16) - 32)
    with (i * (bs + iv + 16) + (n + iv + 16)) by lia.
  destruct (Z.eq_dec n bs) as [Hfull | Hpart].
  - replace (i * (bs + iv + 16) + (n + iv + 16)) with ((i + 1) * (bs + iv + 16)) by lia.
    rewrite Z.div_mul, Z.mod_mul by lia. lia.
  - rewrite (Z.add_comm (i * _)), Z.div_add, Z.mod_add by lia.
    rewrite Z.div_small, Z.mod_small by lia. lia.
Qed.

(** * The further properties on the worked instances *)

(** The three operations on a stream of one sparse block. *)
Lemma operations_keep_object_invariant_witness :
  stream_ok
    (self (snd (write_block (H := example_crypto) 5 1 five_bytes
                  (example_machine (repeat x00 92))))).
Proof.
  apply (operations_keep_object_invariant (H := example_crypto)
           (example_machine (repeat x00 92)) 5 1 40 five_bytes).
  check_stream_ok.
Defined.

(** An underlying file of 100 bytes holds at most 68 bytes of content. *)
Lemma size_within_underlying_witness :
  0 <= size (example_stream (repeat x00 100))
  <= Z.max 0 (stream_size (example_stream (repeat x00 100)).(m_stream) - get_header_size).
Proof.
  apply (size_within_underlying (example_stream (repeat x00 100)));
    [check_stream_ok | by_computation].
Defined.

(** Underlying files of 50 and 100 bytes. *)
Lemma calculate_real_size_monotone_witness :
  calculate_real_size 50 32 12 <= calculate_real_size 100 32 12.
Proof.
  apply (calculate_real_size_monotone 50 100 32 12); lia.
Defined.

(** Setting the logical size of an empty stream to 40 bytes. *)
Lemma adjust_logical_size_then_size_witness :
  fst (adjust_logical_size 40 (example_machine [])) = Ok tt /\
  size (self (snd (adjust_logical_size 40 (example_machine [])))) = 40.
Proof.
  apply (adjust_logical_size_then_size (example_machine []) 40);
    [check_stream_ok | split; by_computation].
Defined.


(** Block 1 written after a whole sparse block 0. *)
Lemma write_block_keeps_other_blocks_witness :
  fst (read_block (H := example_crypto) 0
         (snd (write_block (H := example_crypto) 5 1 five_bytes
                 (example_machine (repeat x00 92)))))
  = fst (read_block (H := example_crypto) 0 (example_machine (repeat x00 92))).
Proof.
  apply (write_block_keeps_other_blocks (H := example_crypto)
           (example_machine (repeat x00 92))
           (snd (write_block (H := example_crypto) 5 1 five_bytes
                   (example_machine (repeat x00 92))))
           5 1 0 five_bytes).
  - check_stream_ok.
  - lia.
  - lia.
  - by_computation.
  - right. split; [lia | by_computation].
  - by_computation.
Defined.

(** A whole sparse block read. *)
Lemma read_block_count_within_block_witness :
  0 <= 32 <= get_block_size (self (example_machine (repeat x00 92))).
Proof.
  apply (read_block_count_within_block (H := example_crypto)
           (example_machine (repeat x00 92)) 0 32 (repeat x00 32)).
  - check_stream_ok.
  - lia.
  - by_computation.
Defined.

(** An IV size of 8 bytes. *)
Lemma constructor_refuses_bad_arguments_witness :
  exists msg,
    AESGCMCryptStream_new (H := example_crypto) (H0 := example_audit)
      (Some []) (repeat x07 32) 32 8 false example_env
    = (Throw (InvalidArgumentException msg), example_env).
Proof.
  apply (constructor_refuses_bad_arguments (H := example_crypto) (H0 := example_audit)).
  left. lia.
Defined.

(** The stream created over an empty stream, opened again. *)
Lemma constructor_reopens_what_it_created_witness :
  fst (AESGCMCryptStream_new (H := example_crypto) (H0 := example_audit)
         (Some (m_stream example_created)) (repeat x07 32) 32 12 false example_env)
  = Ok example_created.
Proof.
  apply (constructor_reopens_what_it_created (H := example_crypto) (H0 := example_audit)
           example_env
           (snd (AESGCMCryptStream_new (H := example_crypto) (H0 := example_audit)
                   (Some []) (repeat x07 32) 32 12 false example_env))
           example_env (Some []) (repeat x07 32) 32 12 false example_created).
  by_computation.
Defined.


(** The block number of the test case "Test endian". *)
Lemma accepted_block_number_survives_the_cast_witness :
  from_little_endian (to_little_endian (u32 11259375)) = 11259375.
Proof.
  apply (accepted_block_number_survives_the_cast 11259375); [lia | by_computation].
Defined.

(** A [write] leaves the thread without a file system. *)
Lemma callbacks_keep_the_context_witness :
  opt_fs (snd (call (H := example_backend) (H0 := example_audit) (build := example_build) write_five
                 (example_world 255)))
  = opt_fs (example_world 255).
Proof.
  apply (callbacks_keep_the_context (H := example_backend) (H0 := example_audit) (build := example_build)
           write_five (example_world 255)).
  reflexivity.
Defined.

(** The file system of [example_world], asked for twice. *)
Lemma get_local_filesystem_builds_once_witness :
  get_local_filesystem (H := example_backend) (H0 := example_audit)
    (snd (get_local_filesystem (H := example_backend) (H0 := example_audit)
            (example_world 255)))
  = (Ok example_filesystem,
     snd (get_local_filesystem (H := example_backend) (H0 := example_audit)
            (example_world 255))).
Proof.
  apply (get_local_filesystem_builds_once (H := example_backend) (H0 := example_audit)
           (example_world 255) _ example_filesystem).
  by_computation.
Defined.

(** The keys of [example_filesystem]. *)
Lemma get_local_filesystem_splits_the_master_key_witness :
  fs_name_key example_filesystem ++ fs_content_key example_filesystem
    ++ fs_xattr_key example_filesystem
  = master_key (mount (example_world 255)).
Proof.
  apply (get_local_filesystem_splits_the_master_key (H := example_backend)
           (H0 := example_audit) (example_world 255)
           (snd (get_local_filesystem (H := example_backend) (H0 := example_audit)
                   (example_world 255)))
           example_filesystem); by_computation.
Defined.

(** A [write] through a null handle. *)
Lemma null_handle_is_refused_without_a_call_witness :
  fst (call (H := example_backend) (H0 := example_audit) (build := example_build) write_null (example_world 255))
  = Ok (- EFAULT).
Proof.
  apply (null_handle_is_refused_without_a_call (H := example_backend) (H0 := example_audit) (build := example_build)
           write_null null_handle (example_world 255)); reflexivity.
Defined.

(** [unlink] on a mount of format 2. *)
Lemma filesystem_error_escapes_the_callback_witness :
  exists msg,
    fst (call (H := example_backend) (H0 := example_audit) (build := example_build) unlink_f example_world_v2)
    = Throw (InvalidArgumentException msg).
Proof.
  apply (filesystem_error_escapes_the_callback (H := example_backend) (H0 := example_audit) (build := example_build)
           unlink_f example_world_v2 2); [reflexivity | reflexivity | reflexivity |].
  left. lia.
Defined.


(** Five bytes written as block 0 of an empty stream. *)
Lemma write_block_at_the_end_sets_size_witness :
  size (self (snd (write_block (H := example_crypto) 5 0 five_bytes (example_machine []))))
  = 0 * get_block_size (self (example_machine [])) + 5.
Proof.
  apply (write_block_at_the_end_sets_size (H := example_crypto) (example_machine [])
           (snd (write_block (H := example_crypto) 5 0 five_bytes (example_machine [])))
           5 0 five_bytes).
  - check_stream_ok.
  - lia.
  - split; by_computation.
  - by_computation.
  - by_computation.
Defined.
